(** * A 3DES-CBC file encryptor: model of [main.c] and its properties

    The program derives a Triple-DES key and IV from a password with
    OpenSSL's [EVP_BytesToKey] (SHA-256, no salt, one iteration) and
    runs the file through [EVP_EncryptUpdate]/[EVP_EncryptFinal_ex]
    (or their decrypting twins) in pieces of [BUF_SIZE] bytes.

    The C functions of [main.c] are embedded as functions on a process
    state, written against the interface of the OpenSSL calls they
    make. The calls are modelled after the library's documented
    behaviour, with the SHA-256 compression and the DES-EDE3 block
    permutation kept abstract behind two interfaces; what the program
    does when a call fails is stated for any library. Files are told
    apart by what they are, not by the path that names them, and a
    write may end the process by a signal. *)

From Stdlib.Strings Require Import Ascii Byte.
From Stdlib Require Import NArith ZArith.
From stdpp Require Import base list gmap strings.

Open Scope nat_scope.

Abbreviation bytes := (list byte).

(** ** Bytes *)

Module Bytes.

Definition NUL : byte := x00.

(** [unsigned char] from a small number, wrapping like the C conversion. *)
Definition of_nat (n : nat) : byte :=
  match Byte.of_N (N.of_nat n mod 256) with
  | Some b => b
  | None => NUL
  end.

Definition to_nat (b : byte) : nat := N.to_nat (Byte.to_N b).

(** [a ^ b] on [unsigned char]. *)
Definition xor (a b : byte) : byte :=
  match Byte.of_N (N.lxor (Byte.to_N a) (Byte.to_N b)) with
  | Some c => c
  | None => NUL
  end.

(** Bytewise xor of two buffers of the same length. *)
Definition xors (a b : bytes) : bytes := zip_with xor a b.

Definition eqb (a b : byte) : bool := Byte.eqb a b.

End Bytes.

Arguments Bytes.of_nat : simpl never.
Arguments Bytes.to_nat : simpl never.
Arguments Bytes.xor : simpl never.
Arguments Bytes.eqb : simpl never.

#[global] Instance byte_eq_dec : EqDecision byte := Byte.byte_eq_dec.

(** ** C strings *)

(** A [const char *] is modelled by the bytes found at the address; the
    terminating NUL of an argv string is implicit at the end of the list,
    so [strlen] stops at the first NUL byte or at the end of the list. *)
Fixpoint strlen (s : bytes) : nat :=
  match s with
  | [] => 0
  | c :: s' => if Bytes.eqb c Bytes.NUL then 0 else S (strlen s')
  end.

(** [memcpy (dst + p, src, length src)]: writes past the end of [dst]
    are dropped (the C program never makes one). *)
Definition memcpy (dst : bytes) (p : nat) (src : bytes) : bytes :=
  list_inserts p src dst.

(** ** The two primitives taken from OpenSSL as they are *)

(** SHA-256 as a function from messages to 32-byte digests. *)
Class Sha256 := {
  sha256 : bytes → bytes;
  sha256_length : ∀ m, length (sha256 m) = 32;
}.

(** The DES-EDE3 block permutation and its inverse on 8-byte blocks
    under a 24-byte key. *)
Class DesEde3 := {
  des_ede3_encrypt : bytes → bytes → bytes;
  des_ede3_decrypt : bytes → bytes → bytes;
  des_ede3_encrypt_length :
    ∀ k b, length b = 8 → length (des_ede3_encrypt k b) = 8;
  des_ede3_decrypt_length :
    ∀ k b, length b = 8 → length (des_ede3_decrypt k b) = 8;
  des_ede3_decrypt_encrypt :
    ∀ k b, length k = 24 → length b = 8 →
           des_ede3_decrypt k (des_ede3_encrypt k b) = b;
}.

(** ** EVP descriptors *)

Definition EVP_MAX_KEY_LENGTH : nat := 64.
Definition EVP_MAX_IV_LENGTH : nat := 16.
Definition PKCS5_SALT_LEN : nat := 8.

Record EVP_MD := {
  md_size : nat;
  md_digest : bytes → bytes;
  md_size_pos : 0 < md_size;
  md_digest_length : ∀ m, length (md_digest m) = md_size;
}.

Record EVP_CIPHER := {
  cipher_block_size : nat;
  cipher_key_length : nat;
  cipher_iv_length : nat;
  cipher_encrypt_block : bytes → bytes → bytes;
  cipher_decrypt_block : bytes → bytes → bytes;
}.

Lemma sha256_size_pos : 0 < 32.
Proof. lia. Qed.

Definition EVP_sha256 `{Sha256} : EVP_MD :=
  {| md_size := 32;
     md_digest := sha256;
     md_size_pos := sha256_size_pos;
     md_digest_length := sha256_length |}.

Definition EVP_des_ede3_cbc `{DesEde3} : EVP_CIPHER :=
  {| cipher_block_size := 8;
     cipher_key_length := 24;
     cipher_iv_length := 8;
     cipher_encrypt_block := des_ede3_encrypt;
     cipher_decrypt_block := des_ede3_decrypt |}.

(** ** [EVP_BytesToKey] *)

Module BytesToKey.

(** The registers of the C function between two rounds of its
    [for (;;)] loop. [key] and [iv] are the caller's buffers, [kp] and
    [ip] how far the [key++] and [iv++] pointers have moved. *)
Record state := {
  md_buf : bytes;
  addmd : nat;
  nkey : nat;
  niv : nat;
  key : bytes;
  kp : nat;
  iv : bytes;
  ip : nat;
}.

(** One round: digest [md_buf ‖ data ‖ salt] (no [md_buf] in the first
    round), rehash [count - 1] times, hand the digest bytes to the key
    and then to the IV. *)
Definition round (md : EVP_MD) (salt : option bytes) (data : bytes)
    (count : nat) (s : state) : state :=
  let prev := if addmd s =? 0 then [] else md_buf s in
  let salted :=
    match salt with
    | Some sa => take PKCS5_SALT_LEN sa
    | None => []
    end in
  let d1 := md_digest md (prev ++ data ++ salted) in
  let d := Nat.iter (count - 1) (md_digest md) d1 in
  let mds := md_size md in
  let i := min (nkey s) mds in
  let key' := memcpy (key s) (kp s) (take i d) in
  let j := if (negb (niv s =? 0)) && negb (i =? mds)
           then min (niv s) (mds - i) else 0 in
  let iv' := memcpy (iv s) (ip s) (take j (drop i d)) in
  {| md_buf := d;
     addmd := S (addmd s);
     nkey := nkey s - i;
     niv := niv s - j;
     key := key';
     kp := kp s + i;
     iv := iv';
     ip := ip s + j |}.

Definition finished (s : state) : bool := (nkey s =? 0) && (niv s =? 0).

(** The loop, cut after [fuel] rounds. *)
Fixpoint loop (fuel : nat) (md : EVP_MD) (salt : option bytes)
    (data : bytes) (count : nat) (s : state) : option state :=
  match fuel with
  | 0 => None
  | S fuel' =>
      let s' := round md salt data count s in
      if finished s' then Some s' else loop fuel' md salt data count s'
  end.

End BytesToKey.

(** [EVP_BytesToKey (type, md, salt, data, datal, count, key, iv)]:
    returns the key length and the two buffers filled in. With
    [data == NULL] it only reports the key length. Every round of the
    loop hands over at least one byte, a digest being at least one byte
    long, so the loop is over after [nkey + niv + 1] rounds at most
    (lemma [BytesToKey_loop_total]); the 0 of the last branch, the
    value of the library's error exit, is never taken. *)
Definition EVP_BytesToKey (type : EVP_CIPHER) (md : EVP_MD)
    (salt : option bytes) (data : option bytes) (datal : nat) (count : nat)
    (key iv : bytes) : Z * bytes * bytes :=
  let nkey := cipher_key_length type in
  let niv := cipher_iv_length type in
  match data with
  | None => (Z.of_nat nkey, key, iv)
  | Some d =>
      let s0 := {| BytesToKey.md_buf := [];
                   BytesToKey.addmd := 0;
                   BytesToKey.nkey := nkey;
                   BytesToKey.niv := niv;
                   BytesToKey.key := key;
                   BytesToKey.kp := 0;
                   BytesToKey.iv := iv;
                   BytesToKey.ip := 0 |} in
      match BytesToKey.loop (S (nkey + niv)) md salt (take datal d) count s0 with
      | Some s => (Z.of_nat nkey, BytesToKey.key s, BytesToKey.iv s)
      | None => (0%Z, key, iv)
      end
  end.

(** ** The cipher context *)

(** [do_cipher] of a CBC cipher over [n] whole blocks: the output and
    the chaining value left in the context. *)
Module Cbc.

Fixpoint encrypt (n : nat) (c : EVP_CIPHER) (key iv data : bytes)
    : bytes * bytes :=
  match n with
  | 0 => ([], iv)
  | S n' =>
      let bl := cipher_block_size c in
      let ct := cipher_encrypt_block c key (Bytes.xors (take bl data) iv) in
      let '(out, iv') := encrypt n' c key ct (drop bl data) in
      (ct ++ out, iv')
  end.

Fixpoint decrypt (n : nat) (c : EVP_CIPHER) (key iv data : bytes)
    : bytes * bytes :=
  match n with
  | 0 => ([], iv)
  | S n' =>
      let bl := cipher_block_size c in
      let ct := take bl data in
      let pt := Bytes.xors (cipher_decrypt_block c key ct) iv in
      let '(out, iv') := decrypt n' c key ct (drop bl data) in
      (pt ++ out, iv')
  end.

End Cbc.

(** What an [EVP_CIPHER_CTX] holds between calls: the cipher and the
    direction set by the init call, the key, the chaining value, the
    bytes of an incomplete block ([buf], [buf_len = length buf]) and, when
    decrypting, the last whole block, kept back until the final call
    ([final] when [final_used] is set, [None] when it is not). *)
Record EVP_CIPHER_CTX := {
  ctx_cipher : option EVP_CIPHER;
  ctx_encrypt : bool;
  ctx_key : bytes;
  ctx_iv : bytes;
  ctx_buf : bytes;
  ctx_final : option bytes;
}.

Definition EVP_CIPHER_CTX_new : option EVP_CIPHER_CTX :=
  Some {| ctx_cipher := None;
          ctx_encrypt := false;
          ctx_key := [];
          ctx_iv := [];
          ctx_buf := [];
          ctx_final := None |}.

Definition cipher_init (enc : bool) (ctx : EVP_CIPHER_CTX)
    (type : EVP_CIPHER) (key iv : bytes) : Z * EVP_CIPHER_CTX :=
  (1%Z,
   {| ctx_cipher := Some type;
      ctx_encrypt := enc;
      ctx_key := take (cipher_key_length type) key;
      ctx_iv := take (cipher_iv_length type) iv;
      ctx_buf := [];
      ctx_final := None |}).

(** [EVP_EncryptInit_ex (ctx, type, NULL, key, iv)] *)
Definition EVP_EncryptInit_ex := cipher_init true.

(** [EVP_DecryptInit_ex (ctx, type, NULL, key, iv)] *)
Definition EVP_DecryptInit_ex := cipher_init false.

(** The context after a call that consumed whole blocks and keeps [buf]. *)
Definition ctx_advance (ctx : EVP_CIPHER_CTX) (iv buf : bytes)
    (final : option bytes) : EVP_CIPHER_CTX :=
  {| ctx_cipher := ctx_cipher ctx;
     ctx_encrypt := ctx_encrypt ctx;
     ctx_key := ctx_key ctx;
     ctx_iv := iv;
     ctx_buf := buf;
     ctx_final := final |}.

(** [EVP_EncryptUpdate (ctx, out, &outl, in, inl)]: the bytes kept from
    earlier calls and the new ones are encrypted as far as they fill
    whole blocks; the rest waits in the context. Returns the status, the
    [outl] bytes written to [out], and the context. *)
Definition EVP_EncryptUpdate (ctx : EVP_CIPHER_CTX) (inp : bytes)
    : Z * bytes * EVP_CIPHER_CTX :=
  match ctx_cipher ctx with
  | None => (0%Z, [], ctx)
  | Some c =>
      if negb (ctx_encrypt ctx) then (0%Z, [], ctx) else
      let bl := cipher_block_size c in
      let data := ctx_buf ctx ++ inp in
      let n := length data / bl in
      let '(out, iv') := Cbc.encrypt n c (ctx_key ctx) (ctx_iv ctx) data in
      (1%Z, out, ctx_advance ctx iv' (drop (n * bl) data) (ctx_final ctx))
  end.

(** [EVP_EncryptFinal_ex (ctx, out, &outl)]: the waiting bytes are padded
    to a whole block with [n] bytes of value [n] and encrypted. *)
Definition EVP_EncryptFinal_ex (ctx : EVP_CIPHER_CTX)
    : Z * bytes * EVP_CIPHER_CTX :=
  match ctx_cipher ctx with
  | None => (0%Z, [], ctx)
  | Some c =>
      if negb (ctx_encrypt ctx) then (0%Z, [], ctx) else
      let b := cipher_block_size c in
      if b =? 1 then (1%Z, [], ctx) else
      let bl := length (ctx_buf ctx) in
      let n := b - bl in
      let block := ctx_buf ctx ++ replicate n (Bytes.of_nat n) in
      let '(out, iv') := Cbc.encrypt 1 c (ctx_key ctx) (ctx_iv ctx) block in
      (1%Z, out, ctx_advance ctx iv' (ctx_buf ctx) (ctx_final ctx))
  end.

(** [EVP_DecryptUpdate (ctx, out, &outl, in, inl)]: like the encrypting
    update, except that when the input so far ends on a block boundary
    the last decrypted block is kept back in [final] instead of being
    written, and a block kept back by the previous call is written
    first. *)
Definition EVP_DecryptUpdate (ctx : EVP_CIPHER_CTX) (inp : bytes)
    : Z * bytes * EVP_CIPHER_CTX :=
  match ctx_cipher ctx with
  | None => (0%Z, [], ctx)
  | Some c =>
      if ctx_encrypt ctx then (0%Z, [], ctx) else
      if length inp =? 0 then (1%Z, [], ctx) else
      let b := cipher_block_size c in
      let data := ctx_buf ctx ++ inp in
      let n := length data / b in
      let '(plain, iv') := Cbc.decrypt n c (ctx_key ctx) (ctx_iv ctx) data in
      let buf' := drop (n * b) data in
      let held := default [] (ctx_final ctx) in
      if (1 <? b) && (length buf' =? 0) then
        let outl := length plain - b in
        (1%Z, held ++ take outl plain,
         ctx_advance ctx iv' buf' (Some (drop outl plain)))
      else
        (1%Z, held ++ plain, ctx_advance ctx iv' buf' None)
  end.

(** The check of [EVP_DecryptFinal_ex] on the block kept back: its last
    byte [n] must be between 1 and the block size, and the last [n]
    bytes must all be [n]. [i] counts the bytes still to compare, from
    the end of the block backwards. *)
Fixpoint padding_bytes_ok (i : nat) (rev_final : bytes) (n : byte) : bool :=
  match i with
  | 0 => true
  | S i' =>
      match rev_final with
      | [] => false
      | x :: rest => Bytes.eqb x n && padding_bytes_ok i' rest n
      end
  end.

(** [EVP_DecryptFinal_ex (ctx, out, &outl)] *)
Definition EVP_DecryptFinal_ex (ctx : EVP_CIPHER_CTX)
    : Z * bytes * EVP_CIPHER_CTX :=
  match ctx_cipher ctx with
  | None => (0%Z, [], ctx)
  | Some c =>
      if ctx_encrypt ctx then (0%Z, [], ctx) else
      let b := cipher_block_size c in
      if 1 <? b then
        match ctx_final ctx with
        | Some final =>
            if negb (length (ctx_buf ctx) =? 0)
            then (0%Z, [], ctx)             (* wrong final block length *)
            else
              let last := default Bytes.NUL (final !! (b - 1)) in
              let n := Bytes.to_nat last in
              if (n =? 0) || (b <? n) then (0%Z, [], ctx)   (* bad decrypt *)
              else if negb (padding_bytes_ok n (rev (take b final)) last)
              then (0%Z, [], ctx)                            (* bad decrypt *)
              else (1%Z, take (b - n) final, ctx)
        | None => (0%Z, [], ctx)            (* wrong final block length *)
        end
      else (1%Z, [], ctx)
  end.

(** ** The process: files, standard error, exit, signals *)

(** The signals a write can raise, both fatal to a process that has not
    asked for them: [SIGPIPE] (writing to a pipe or socket nobody reads)
    and [SIGXFSZ] (writing past the file size limit of the process). *)
Inductive signal := SIGPIPE | SIGXFSZ.

(** A [FILE *] is the file the stream was opened on, not the path it was
    opened by; [None] is [NULL]. *)
Abbreviation FILE := nat.

(** What the program can see and change: which file a path names (two
    paths may name one file: "plain" and "./plain", a link and what it
    points to; a path that names no file yet names the file that would
    be created there); the files with their contents; the files that
    cannot be opened for writing; how many bytes the medium behind a
    file accepts (no entry: any number); the size at which writing more
    to a file raises a signal, and which signal (size 0 and [SIGPIPE] for
    a pipe nobody reads, the file size limit and [SIGXFSZ] for a file;
    no entry: never); the offset at which reading a file fails with an
    I/O error (no entry: never); the lines printed on standard error;
    and the indeterminate contents of the stack the automatic arrays
    are taken from. *)
Record world := {
  w_file : string → FILE;
  w_files : gmap FILE bytes;
  w_locked : gset FILE;
  w_room : gmap FILE nat;
  w_signal : gmap FILE (nat * signal);
  w_fault : gmap FILE nat;
  w_stderr : list string;
  w_stack : nat → byte;
}.

Definition set_files (w : world) (fs : gmap FILE bytes) : world :=
  {| w_file := w_file w;
     w_files := fs;
     w_locked := w_locked w;
     w_room := w_room w;
     w_signal := w_signal w;
     w_fault := w_fault w;
     w_stderr := w_stderr w;
     w_stack := w_stack w |}.

Definition add_stderr (w : world) (line : string) : world :=
  {| w_file := w_file w;
     w_files := w_files w;
     w_locked := w_locked w;
     w_room := w_room w;
     w_signal := w_signal w;
     w_fault := w_fault w;
     w_stderr := w_stderr w ++ [line];
     w_stack := w_stack w |}.

(** A call returns to its caller, ends the process through
    [exit (status)], or does not come back because a signal has ended
    the process. *)
Inductive outcome (A : Type) : Type :=
  | Returned (a : A) (w : world)
  | Exited (status : Z) (w : world)
  | Killed (sig : signal) (w : world).
Arguments Returned {A} a w.
Arguments Exited {A} status w.
Arguments Killed {A} sig w.

Definition proc (A : Type) : Type := world → outcome A.

#[global] Instance proc_ret : MRet proc := λ A a w, Returned a w.

#[global] Instance proc_bind : MBind proc := λ A B f m w,
  match m w with
  | Returned a w' => f a w'
  | Exited status w' => Exited status w'
  | Killed sig w' => Killed sig w'
  end.

Definition exit {A} (status : Z) : proc A := λ w, Exited status w.

(** [fprintf (stderr, "...\n")], one line at a time. *)
Definition eprintln (line : string) : proc unit :=
  λ w, Returned tt (add_stderr w line).

(** An automatic array of [n] bytes at stack offset [off]: whatever the
    stack holds there. *)
Definition automatic (off n : nat) : proc bytes :=
  λ w, Returned (w_stack w <$> seq off n) w.

Inductive fmode := rb | wb.

(** [fopen]: the path is resolved to the file it names. Reading needs
    the file to exist; writing needs it not to be locked, and leaves it
    empty, whatever path it was opened by before. *)
Definition fopen (path : string) (mode : fmode) : proc (option FILE) :=
  λ w,
    let f := w_file w path in
    match mode with
    | rb =>
        match w_files w !! f with
        | Some _ => Returned (Some f) w
        | None => Returned None w
        end
    | wb =>
        if decide (f ∈ w_locked w) then Returned None w
        else Returned (Some f) (set_files w (<[f := []]> (w_files w)))
    end.

(** The bytes [fread] can deliver from a file: all of them, or those
    before the offset at which the read error strikes. *)
Definition readable (w : world) (f : FILE) : bytes :=
  let content := default [] (w_files w !! f) in
  match w_fault w !! f with
  | Some k => take k content
  | None => content
  end.

(** The successive non-empty results of [fread (buf, 1, n, f)]. *)
Fixpoint pieces_of (fuel n : nat) (data : bytes) : list bytes :=
  match fuel with
  | 0 => []
  | S fuel' =>
      match data with
      | [] => []
      | _ => take n data :: pieces_of fuel' n (drop n data)
      end
  end.

Definition pieces (n : nat) (data : bytes) : list bytes :=
  if n =? 0 then [] else pieces_of (length data) n data.

(** All the [fread (buf, 1, n, f)] calls of a reading loop, up to the one
    that returns 0 (end of file, or a read error: the program does not
    tell them apart). *)
Definition fread_all (n : nat) (f : FILE) : proc (list bytes) :=
  λ w, Returned (pieces n (readable w f)) w.

(** The file once [data] has been written to it as far as the medium
    has room: it grows by what the medium still accepts. *)
Definition written (data : bytes) (f : FILE) (w : world) : world :=
  let content := default [] (w_files w !! f) in
  let accepted :=
    match w_room w !! f with
    | Some r => take (r - length content) data
    | None => data
    end in
  set_files w (<[f := content ++ accepted]> (w_files w)).

(** [fwrite (buf, 1, length data, f)]. The bytes go to the file as far
    as the medium has room; the count [fwrite] returns is not looked at
    by the program, so it is not modelled. Where the file raises a
    signal at some size: if the data goes past that size and the medium
    has room up to it, the bytes below it are written and the signal
    ends the process.

    The C library may hold bytes back and hand them to the system in a
    later call on the stream, in [fclose] or in [exit] at the latest. The
    file holds the same bytes in the end, and a signal is raised all the
    same, only later; the model hands them over at once. The one thing
    that can come in between is the line [decrypt_file] prints when the
    final call fails: what is stated below of a process ended by a
    signal leaves open whether that line is on standard error. *)
Definition fwrite (data : bytes) (f : FILE) : proc unit :=
  λ w,
    match w_signal w !! f with
    | Some (limit, sig) =>
        let size := length (default [] (w_files w !! f)) in
        let below := limit - size in
        if (below <? length data) &&
           match w_room w !! f with
           | Some r => below <=? r - size
           | None => true
           end
        then Killed sig (written (take below data) f w)
        else Returned tt (written data f w)
    | None => Returned tt (written data f w)
    end.

Definition fclose (f : FILE) : proc unit := mret tt.

(** ** The library as the program calls it *)

(** The calls [main.c] makes into OpenSSL. Each reports a status the
    program looks at, and any of them may report failure for reasons
    of its own (no memory, an algorithm the loaded providers do not
    offer). The program is written against this interface. *)
Module Lib.

Class Evp := {
  EVP_BytesToKey :
    EVP_CIPHER → EVP_MD → option bytes → option bytes → nat → nat →
    bytes → bytes → Z * bytes * bytes;
  EVP_CIPHER_CTX_new : option EVP_CIPHER_CTX;
  EVP_EncryptInit_ex :
    EVP_CIPHER_CTX → EVP_CIPHER → bytes → bytes → Z * EVP_CIPHER_CTX;
  EVP_EncryptUpdate : EVP_CIPHER_CTX → bytes → Z * bytes * EVP_CIPHER_CTX;
  EVP_EncryptFinal_ex : EVP_CIPHER_CTX → Z * bytes * EVP_CIPHER_CTX;
  EVP_DecryptInit_ex :
    EVP_CIPHER_CTX → EVP_CIPHER → bytes → bytes → Z * EVP_CIPHER_CTX;
  EVP_DecryptUpdate : EVP_CIPHER_CTX → bytes → Z * bytes * EVP_CIPHER_CTX;
  EVP_DecryptFinal_ex : EVP_CIPHER_CTX → Z * bytes * EVP_CIPHER_CTX;
}.

End Lib.

(** The library as documented: the functions above. *)
#[global] Instance openssl : Lib.Evp :=
  {| Lib.EVP_BytesToKey := EVP_BytesToKey;
     Lib.EVP_CIPHER_CTX_new := EVP_CIPHER_CTX_new;
     Lib.EVP_EncryptInit_ex := EVP_EncryptInit_ex;
     Lib.EVP_EncryptUpdate := EVP_EncryptUpdate;
     Lib.EVP_EncryptFinal_ex := EVP_EncryptFinal_ex;
     Lib.EVP_DecryptInit_ex := EVP_DecryptInit_ex;
     Lib.EVP_DecryptUpdate := EVP_DecryptUpdate;
     Lib.EVP_DecryptFinal_ex := EVP_DecryptFinal_ex |}.

(** ** The program *)

Definition BUF_SIZE : nat := 1024 * 1024.

Section Program.
Context `{!Sha256, !DesEde3, !Lib.Evp}.

(** [generate_key_iv (password, key, iv)]: returns 1 and the buffers
    filled in, or ends the process. *)
Definition generate_key_iv (password key iv : bytes)
    : proc (Z * bytes * bytes) :=
  let cipher := EVP_des_ede3_cbc in
  let dgst := EVP_sha256 in
  let '(rv, key', iv') :=
    Lib.EVP_BytesToKey cipher dgst None (Some password) (strlen password) 1
                       key iv in
  if (rv =? 0)%Z then
    eprintln "Error occurred";; exit 1
  else mret (1%Z, key', iv').

(** The [while ((num_bytes_read = fread (...)) > 0)] loop of
    [encrypt_file], over the pieces [fread] delivers. *)
Fixpoint encrypt_loop (ps : list bytes) (ctx : EVP_CIPHER_CTX)
    (out : FILE) : proc EVP_CIPHER_CTX :=
  match ps with
  | [] => mret ctx
  | inbuf :: ps' =>
      let '(r, outbuf, ctx') := Lib.EVP_EncryptUpdate ctx inbuf in
      if negb (r =? 1)%Z then
        eprintln "Error occurred";; exit 1
      else
        fwrite outbuf out;;
        encrypt_loop ps' ctx' out
  end.

Definition encrypt_file_sized (buf_size : nat)
    (input_file output_file : string) (password : bytes) : proc unit :=
  in_ ← fopen input_file rb;
  out ← fopen output_file wb;
  match in_, out with
  | Some in_, Some out =>
      key ← automatic 0 EVP_MAX_KEY_LENGTH;
      iv ← automatic EVP_MAX_KEY_LENGTH EVP_MAX_IV_LENGTH;
      '(r, key, iv) ← generate_key_iv password key iv;
      if (r =? 0)%Z then
        eprintln "Error occurred";; exit 1
      else
      match Lib.EVP_CIPHER_CTX_new with
      | None => eprintln "Error occurred";; exit 1
      | Some ctx =>
          let '(r, ctx) :=
            Lib.EVP_EncryptInit_ex ctx EVP_des_ede3_cbc key iv in
          if negb (r =? 1)%Z then
            eprintln "Error occurred";; exit 1
          else
            ps ← fread_all buf_size in_;
            ctx ← encrypt_loop ps ctx out;
            let '(r, outbuf, ctx) := Lib.EVP_EncryptFinal_ex ctx in
            if negb (r =? 1)%Z then
              eprintln "Error occurred";; exit 1
            else
              fwrite outbuf out;;
              fclose in_;;
              fclose out
      end
  | _, _ =>
      eprintln "Unable to open input or output file";; exit 1
  end.

(** [encrypt_file (input_file, output_file, password)] *)
Definition encrypt_file := encrypt_file_sized BUF_SIZE.

(** The reading loop of [decrypt_file]. *)
Fixpoint decrypt_loop (ps : list bytes) (ctx : EVP_CIPHER_CTX)
    (out : FILE) : proc EVP_CIPHER_CTX :=
  match ps with
  | [] => mret ctx
  | inbuf :: ps' =>
      let '(r, outbuf, ctx') := Lib.EVP_DecryptUpdate ctx inbuf in
      if negb (r =? 1)%Z then
        eprintln "Error occurred";; exit 1
      else
        fwrite outbuf out;;
        decrypt_loop ps' ctx' out
  end.

Definition decrypt_file_sized (buf_size : nat)
    (input_file output_file : string) (password : bytes) : proc unit :=
  in_ ← fopen input_file rb;
  out ← fopen output_file wb;
  match in_, out with
  | Some in_, Some out =>
      key ← automatic 0 EVP_MAX_KEY_LENGTH;
      iv ← automatic EVP_MAX_KEY_LENGTH EVP_MAX_IV_LENGTH;
      '(r, key, iv) ← generate_key_iv password key iv;
      if (r =? 0)%Z then
        eprintln "Error occurred";; exit 1
      else
      match Lib.EVP_CIPHER_CTX_new with
      | None => eprintln "Error occurred";; exit 1
      | Some ctx =>
          let '(r, ctx) :=
            Lib.EVP_DecryptInit_ex ctx EVP_des_ede3_cbc key iv in
          if negb (r =? 1)%Z then
            eprintln "Error occurred";; exit 1
          else
            ps ← fread_all buf_size in_;
            ctx ← decrypt_loop ps ctx out;
            let '(r, outbuf, ctx) := Lib.EVP_DecryptFinal_ex ctx in
            if negb (r =? 1)%Z then
              eprintln "Error occurred";; exit 1
            else
              fwrite outbuf out;;
              fclose in_;;
              fclose out
      end
  | _, _ =>
      eprintln "Unable to open input or output file";; exit 1
  end.

(** [decrypt_file (input_file, output_file, password)] *)
Definition decrypt_file := decrypt_file_sized BUF_SIZE.

End Program.

(** ** The command line *)

(** One call of [getopt] that does not return -1: an option letter with
    its argument, or '?' once the complaint is on standard error. *)
Inductive getopt_result :=
  | GetoptOption (c : Ascii.ascii) (optarg : option string)
  | GetoptUnknown (complaint : string).

(** Where [c] stands in the option string, and whether a colon follows
    it there; ':' and ';' are never option letters. *)
Fixpoint optstring_find (optstring : string) (c : Ascii.ascii)
    : option bool :=
  match optstring with
  | EmptyString => None
  | String x rest =>
      if decide (x = c) then
        Some match rest with
             | String y _ => bool_decide (y = ":"%char)
             | EmptyString => false
             end
      else optstring_find rest c
  end.

Definition option_kind (optstring : string) (c : Ascii.ascii) : option bool :=
  if bool_decide (c = ":"%char) || bool_decide (c = ";"%char) then None
  else optstring_find optstring c.

(** The results of the successive calls of [getopt (argc, argv,
    optstring)] until it returns -1, for the arguments after [argv[0]],
    as the GNU C library scans them: an argument that does not start
    with '-', or is "-" alone, is passed over; "--" ends the scan; any
    other argument is a cluster of option letters, and a letter that
    takes an argument takes the rest of its cluster or, when nothing is
    left of it, the whole next argument. This is the scan of a process
    that runs without [POSIXLY_CORRECT] in its environment, and with
    [opterr] as the library sets it, so that complaints are printed. *)
Fixpoint getopt_all (prog optstring : string) (args : list string)
    : list getopt_result :=
  match args with
  | [] => []
  | a :: rest =>
      match a with
      | String d (String c cs) =>
          if bool_decide (d = "-"%char) then
            if bool_decide (a = "--") then []
            else
              (fix cluster (s : string) : list getopt_result :=
                 match s with
                 | EmptyString => getopt_all prog optstring rest
                 | String c cs =>
                     match option_kind optstring c with
                     | None =>
                         GetoptUnknown
                           (prog +:+ ": invalid option -- '" +:+ String c "'")
                         :: cluster cs
                     | Some false => GetoptOption c None :: cluster cs
                     | Some true =>
                         match cs with
                         | String _ _ =>
                             GetoptOption c (Some cs)
                             :: getopt_all prog optstring rest
                         | EmptyString =>
                             match rest with
                             | b :: rest' =>
                                 GetoptOption c (Some b)
                                 :: getopt_all prog optstring rest'
                             | [] =>
                                 [GetoptUnknown
                                    (prog +:+ ": option requires an argument -- '"
                                     +:+ String c "'")]
                             end
                         end
                     end
                 end) (String c cs)
          else getopt_all prog optstring rest
      | _ => getopt_all prog optstring rest
      end
  end.

(** The variables [main] sets from its options; [None] is [NULL]. *)
Record options := {
  opt_encrypt : Z;
  opt_input_file : option string;
  opt_output_file : option string;
  opt_password : option string;
}.

(** [print_usage (prog_name)] *)
Definition print_usage (prog_name : string) : proc unit :=
  eprintln ("Usage: " +:+ prog_name
            +:+ " [-e|-d] -i input -o output -p password");;
  eprintln "  -e : Encrypt the file";;
  eprintln "  -d : Decrypt the file";;
  eprintln "  -i : Input file";;
  eprintln "  -o : Output file";;
  eprintln "  -p : Password for encryption or decryption".

(** The [switch (opt)] of [main]; [None] is its [default] case. *)
Definition main_switch (opt : Ascii.ascii) (optarg : option string)
    (o : options)
    : option options :=
  if bool_decide (opt = "e"%char) then
    Some {| opt_encrypt := 1;
            opt_input_file := opt_input_file o;
            opt_output_file := opt_output_file o;
            opt_password := opt_password o |}
  else if bool_decide (opt = "d"%char) then
    Some {| opt_encrypt := 0;
            opt_input_file := opt_input_file o;
            opt_output_file := opt_output_file o;
            opt_password := opt_password o |}
  else if bool_decide (opt = "i"%char) then
    Some {| opt_encrypt := opt_encrypt o;
            opt_input_file := optarg;
            opt_output_file := opt_output_file o;
            opt_password := opt_password o |}
  else if bool_decide (opt = "o"%char) then
    Some {| opt_encrypt := opt_encrypt o;
            opt_input_file := opt_input_file o;
            opt_output_file := optarg;
            opt_password := opt_password o |}
  else if bool_decide (opt = "p"%char) then
    Some {| opt_encrypt := opt_encrypt o;
            opt_input_file := opt_input_file o;
            opt_output_file := opt_output_file o;
            opt_password := optarg |}
  else None.

(** The [while ((opt = getopt (...)) != -1)] loop of [main], over the
    results [getopt] delivers: the variables as set, or the value [main]
    returns from inside the loop. [getopt] prints its complaint itself
    before it returns '?'. *)
Fixpoint main_loop (prog : string) (results : list getopt_result)
    (o : options) : proc (options + Z) :=
  match results with
  | [] => mret (inl o)
  | GetoptUnknown complaint :: _ =>
      eprintln complaint;;
      print_usage prog;;
      mret (inr 1%Z)
  | GetoptOption opt optarg :: results' =>
      match main_switch opt optarg o with
      | Some o' => main_loop prog results' o'
      | None => print_usage prog;; mret (inr 1%Z)
      end
  end.

Section CommandLine.
Context `{!Sha256, !DesEde3, !Lib.Evp}.

(** [main (argc, argv)], with [argv[0]] apart from the other arguments. *)
Definition main (argv0 : string) (args : list string) : proc Z :=
  r ← main_loop argv0 (getopt_all argv0 "edi:o:p:" args)
         {| opt_encrypt := -1;
            opt_input_file := None;
            opt_output_file := None;
            opt_password := None |};
  match r with
  | inr code => mret code
  | inl o =>
      if (opt_encrypt o =? -1)%Z then
        print_usage argv0;; mret 1%Z
      else
        match opt_input_file o, opt_output_file o, opt_password o with
        | Some input_file, Some output_file, Some password =>
            (if (opt_encrypt o =? 1)%Z
             then encrypt_file input_file output_file
                    (String.list_byte_of_string password)
             else decrypt_file input_file output_file
                    (String.list_byte_of_string password));;
            mret 0%Z
        | _, _, _ => print_usage argv0;; mret 1%Z
        end
  end.

End CommandLine.

(** ** The derivation in the words of the specification *)

Module Spec.
Section Derive.
Context `{!Sha256}.

Definition K : nat := 24.
Definition V : nat := 8.

(** Digest (previous digest ‖ password), starting from an empty
    previous digest, and append the digests until at least [K + V]
    bytes have been produced. No digest is shorter than a byte, so
    [K + V] rounds are always enough. *)
Fixpoint produce (rounds : nat) (produced prev password : bytes) : bytes :=
  if K + V <=? length produced then produced
  else
    match rounds with
    | 0 => produced
    | S rounds' =>
        let d := sha256 (prev ++ password) in
        produce rounds' (produced ++ d) d password
    end.

(** The first [K] bytes are the key, the next [V] bytes the IV. *)
Definition derive (password : bytes) : bytes * bytes :=
  let stream := produce (K + V) [] [] password in
  (take K stream, take V (drop K stream)).

End Derive.
End Spec.

(** The string a [const char *] denotes: the bytes before the first NUL. *)
Definition cstring (s : bytes) : bytes := take (strlen s) s.

(** ** What the program computes, in closed form *)

(** The padded input: [n] bytes of value [n] bring the length to the
    next multiple of the block size [b], a whole block of them when the
    length is a multiple already. *)
Definition pkcs7_pad (b : nat) (data : bytes) : bytes :=
  let n := b - length data mod b in
  data ++ replicate n (Bytes.of_nat n).

(** The count a padded block announces in its last byte. *)
Definition pkcs7_count (block : bytes) : nat :=
  Bytes.to_nat (default Bytes.NUL (last block)).

(** A block ends in valid padding when the count is between 1 and the
    block size and every one of the last count bytes equals the count. *)
Definition pkcs7_valid (b : nat) (block : bytes) : bool :=
  let n := pkcs7_count block in
  (1 <=? n) && (n <=? b) &&
  forallb (λ x, Bytes.to_nat x =? n) (drop (b - n) block).

(** A context the encrypting calls can work on. *)
Definition enc_ready (c : EVP_CIPHER) (ctx : EVP_CIPHER_CTX) : Prop :=
  ctx_cipher ctx = Some c ∧ ctx_encrypt ctx = true ∧
  length (ctx_buf ctx) < cipher_block_size c.

(** A context the decrypting calls can work on. *)
Definition dec_ready (c : EVP_CIPHER) (ctx : EVP_CIPHER_CTX) : Prop :=
  ctx_cipher ctx = Some c ∧ ctx_encrypt ctx = false ∧
  length (ctx_buf ctx) < cipher_block_size c ∧
  length (ctx_iv ctx) = cipher_block_size c.

(** The world once both [fopen] calls are done, [out] being the file
    the output path names. *)
Definition opened (out : FILE) (w : world) : world :=
  if decide (out ∈ w_locked w) then w
  else set_files w (<[out := []]> (w_files w)).

(** Whether writing [n] bytes to the file [f], empty so far, raises a
    signal, and at which size: the file raises one at a size below [n]
    that its medium has room for. *)
Definition raises (w : world) (f : FILE) (n : nat) : option (nat * signal) :=
  match w_signal w !! f with
  | Some (limit, sig) =>
      if (limit <? n) &&
         match w_room w !! f with
         | Some r => limit <=? r
         | None => true
         end
      then Some (limit, sig)
      else None
  | None => None
  end.

(** [n] rounded up to a multiple of [m]. *)
Definition round_up (m n : nat) : nat := (n + m - 1) / m * m.

Section Described.
Context `{!Sha256, !DesEde3}.

(** The key and IV the password stands for. *)
Definition key_of (password : bytes) : bytes :=
  take 24 (sha256 (cstring password)).
Definition iv_of (password : bytes) : bytes :=
  take 8 (drop 24 (sha256 (cstring password))).

(** The context the init call hands to the loop. *)
Definition started (enc : bool) (password : bytes) : EVP_CIPHER_CTX :=
  {| ctx_cipher := Some EVP_des_ede3_cbc;
     ctx_encrypt := enc;
     ctx_key := key_of password;
     ctx_iv := iv_of password;
     ctx_buf := [];
     ctx_final := None |}.

(** What [encrypt_file] writes for the input [data]: the padded
    input, chained block by block from the derived IV. *)
Definition ciphertext (password data : bytes) : bytes :=
  (Cbc.encrypt (length data / 8 + 1) EVP_des_ede3_cbc
     (key_of password) (iv_of password) (pkcs7_pad 8 data)).1.

(** The blocks of a ciphertext, decrypted and unchained. *)
Definition plain_blocks (password data : bytes) : bytes :=
  (Cbc.decrypt (length data / 8) EVP_des_ede3_cbc
     (key_of password) (iv_of password) data).1.

(** What [decrypt_file] does with the ciphertext [data]: whether it
    ends well, and the bytes that reach the output file either way. *)
Definition decrypt_outcome (password data : bytes) : bool * bytes :=
  let p := plain_blocks password data in
  if (length data =? 0) || negb (length data mod 8 =? 0) then (false, p)
  else
    let block := drop (length p - 8) p in
    if pkcs7_valid 8 block
    then (true, take (length p - pkcs7_count block) p)
    else (false, take (length p - 8) p).

End Described.

(** ** What a call leaves behind *)

(** The world at the end of a call, whether it returned or ended the
    process. *)
Definition world_of {A} (o : outcome A) : world :=
  match o with
  | Returned _ w => w
  | Exited _ w => w
  | Killed _ w => w
  end.

(** The outcome of a call that goes on to return [b] if it returns. *)
Definition returning {A B} (b : B) (o : outcome A) : outcome B :=
  match o with
  | Returned _ w => Returned b w
  | Exited status w => Exited status w
  | Killed sig w => Killed sig w
  end.

(** The world with [lines] more on standard error. *)
Definition printed (w : world) (lines : list string) : world :=
  {| w_file := w_file w;
     w_files := w_files w;
     w_locked := w_locked w;
     w_room := w_room w;
     w_signal := w_signal w;
     w_fault := w_fault w;
     w_stderr := w_stderr w ++ lines;
     w_stack := w_stack w |}.

(** The world with other bytes on the stack. *)
Definition set_stack (w : world) (stack : nat → byte) : world :=
  {| w_file := w_file w;
     w_files := w_files w;
     w_locked := w_locked w;
     w_room := w_room w;
     w_signal := w_signal w;
     w_fault := w_fault w;
     w_stderr := w_stderr w;
     w_stack := stack |}.

(** The outcome of a call as seen from outside the process: how it
    ended (a value returned, an exit status or a signal), the files
    and standard error. *)
Definition observed {A} (o : outcome A)
    : (A + (Z + signal)) * gmap FILE bytes * list string :=
  match o with
  | Returned a w => (inl a, w_files w, w_stderr w)
  | Exited status w => (inr (inl status), w_files w, w_stderr w)
  | Killed sig w => (inr (inr sig), w_files w, w_stderr w)
  end.

(** ** Command lines, option by option *)

(** The six lines of [print_usage]. *)
Definition usage_lines (prog_name : string) : list string :=
  ["Usage: " +:+ prog_name +:+ " [-e|-d] -i input -o output -p password";
   "  -e : Encrypt the file";
   "  -d : Decrypt the file";
   "  -i : Input file";
   "  -o : Output file";
   "  -p : Password for encryption or decryption"].

(** An option as the usage line writes it: a mode flag on its own, or a
    letter with its argument in the next word. *)
Inductive argument :=
  | Mode (encrypt : bool)
  | Input (file : string)
  | Output (file : string)
  | Password (password : string).

Definition words (a : argument) : list string :=
  match a with
  | Mode true => ["-e"]
  | Mode false => ["-d"]
  | Input file => ["-i"; file]
  | Output file => ["-o"; file]
  | Password password => ["-p"; password]
  end.

(** The arguments after [argv[0]] for a list of options. *)
Definition command_line (l : list argument) : list string :=
  l ≫= words.

(** What [getopt] returns for such an option. *)
Definition getopt_of (a : argument) : getopt_result :=
  match a with
  | Mode true => GetoptOption "e" None
  | Mode false => GetoptOption "d" None
  | Input file => GetoptOption "i" (Some file)
  | Output file => GetoptOption "o" (Some file)
  | Password password => GetoptOption "p" (Some password)
  end.

(** What the [switch] of [main] does with it. *)
Definition set_option (o : options) (a : argument) : options :=
  match a with
  | Mode encrypt =>
      {| opt_encrypt := if encrypt then 1 else 0;
         opt_input_file := opt_input_file o;
         opt_output_file := opt_output_file o;
         opt_password := opt_password o |}
  | Input file =>
      {| opt_encrypt := opt_encrypt o;
         opt_input_file := Some file;
         opt_output_file := opt_output_file o;
         opt_password := opt_password o |}
  | Output file =>
      {| opt_encrypt := opt_encrypt o;
         opt_input_file := opt_input_file o;
         opt_output_file := Some file;
         opt_password := opt_password o |}
  | Password password =>
      {| opt_encrypt := opt_encrypt o;
         opt_input_file := opt_input_file o;
         opt_output_file := opt_output_file o;
         opt_password := Some password |}
  end.

(** The last mode flag, input file, output file and password of a list
    of options. *)
Definition chosen_mode (l : list argument) : option bool :=
  last (omap (λ a, match a with Mode m => Some m | _ => None end) l).
Definition chosen_input (l : list argument) : option string :=
  last (omap (λ a, match a with Input f => Some f | _ => None end) l).
Definition chosen_output (l : list argument) : option string :=
  last (omap (λ a, match a with Output f => Some f | _ => None end) l).
Definition chosen_password (l : list argument) : option string :=
  last (omap (λ a, match a with Password p => Some p | _ => None end) l).

(** An argument [getopt] passes over: one that does not start with '-',
    or is "-" alone. *)
Definition operand (a : string) : bool :=
  match a with
  | String d (String _ _) => negb (bool_decide (d = "-"%char))
  | _ => true
  end.

(** ** Command lines as [main] accepts them *)

(** A result of [getopt] the [switch] of [main] has a case for. *)
Definition known (r : getopt_result) : bool :=
  match r with
  | GetoptOption c _ => bool_decide (c ∈ ["e"; "d"; "i"; "o"; "p"]%char)
  | GetoptUnknown _ => false
  end.

(** The last mode flag among the results of [getopt]. *)
Definition last_mode (results : list getopt_result) : option bool :=
  last (omap (λ r, match r with
                   | GetoptOption c _ =>
                       if bool_decide (c = "e"%char) then Some true
                       else if bool_decide (c = "d"%char) then Some false
                       else None
                   | GetoptUnknown _ => None
                   end) results).

(** The argument of the last option [c] among them; [Some None] is an
    option that came with [optarg] at [NULL]. *)
Definition last_argument (c : Ascii.ascii) (results : list getopt_result)
    : option (option string) :=
  last (omap (λ r, match r with
                   | GetoptOption c' optarg =>
                       if bool_decide (c' = c) then Some optarg else None
                   | GetoptUnknown _ => None
                   end) results).

(** The mode, input file, output file and password of a command line
    that is in order: every result of [getopt] is one of the five
    options, and a mode flag, an input file, an output file and a
    password are among them; the last of each counts. *)
Definition accepted (results : list getopt_result)
    : option (bool * string * string * string) :=
  if forallb known results then
    m ← last_mode results;
    i ← mjoin (last_argument "i" results);
    o ← mjoin (last_argument "o" results);
    p ← mjoin (last_argument "p" results);
    Some (m, i, o, p)
  else None.

Section Operation.
Context `{!Sha256, !DesEde3, !Lib.Evp}.

(** What [main] runs once its options are in order. *)
Definition operation (encrypt : bool)
    (input_file output_file password : string) : proc unit :=
  if encrypt
  then encrypt_file input_file output_file (String.list_byte_of_string password)
  else decrypt_file input_file output_file (String.list_byte_of_string password).

(** A context of the decrypting loop: when a block is kept back, it is
    a whole block and no byte waits for its block to fill. *)
Definition dec_held (ctx : EVP_CIPHER_CTX) : Prop :=
  dec_ready EVP_des_ede3_cbc ctx ∧
  match ctx_final ctx with
  | Some final => length final = 8 ∧ ctx_buf ctx = []
  | None => True
  end.

End Operation.

(** ** The failures the two functions look for *)

(** The calls whose result [encrypt_file] and [decrypt_file] examine, in
    the order they make them. *)
Inductive failure :=
  | CannotOpen
  | Derivation
  | NoContext
  | Init
  | Update
  | Final.

(** The context after the update calls on the pieces [ps], unless one of
    the calls reports failure. *)
Fixpoint first_failing_update
    (update : EVP_CIPHER_CTX → bytes → Z * bytes * EVP_CIPHER_CTX)
    (ps : list bytes) (ctx : EVP_CIPHER_CTX) : option EVP_CIPHER_CTX :=
  match ps with
  | [] => Some ctx
  | p :: ps' =>
      let r := update ctx p in
      if (r.1.1 =? 1)%Z then first_failing_update update ps' r.2 else None
  end.

Section Failures.
Context `{!Sha256, !DesEde3, !Lib.Evp}.

(** The first call that fails when a file is encrypted ([enc]) or
    decrypted in reads of [buf_size] bytes, from what the files and the
    library answer; [None] when every call succeeds. *)
Definition first_failure (enc : bool) (buf_size : nat)
    (input_file output_file : string) (password : bytes) (w : world)
    : option failure :=
  let inp := w_file w input_file in
  let out := w_file w output_file in
  if decide (is_Some (w_files w !! inp) ∧ out ∉ w_locked w) then
    let d := Lib.EVP_BytesToKey EVP_des_ede3_cbc EVP_sha256 None
               (Some password) (strlen password) 1
               (w_stack w <$> seq 0 EVP_MAX_KEY_LENGTH)
               (w_stack w <$> seq EVP_MAX_KEY_LENGTH EVP_MAX_IV_LENGTH) in
    if (d.1.1 =? 0)%Z then Some Derivation
    else
      match Lib.EVP_CIPHER_CTX_new with
      | None => Some NoContext
      | Some ctx =>
          let i := (if enc then Lib.EVP_EncryptInit_ex
                    else Lib.EVP_DecryptInit_ex)
                     ctx EVP_des_ede3_cbc d.1.2 d.2 in
          if (i.1 =? 1)%Z then
            match first_failing_update
                    (if enc then Lib.EVP_EncryptUpdate
                     else Lib.EVP_DecryptUpdate)
                    (pieces buf_size (readable (opened out w) inp)) i.2
            with
            | Some ctx' =>
                if (((if enc then Lib.EVP_EncryptFinal_ex
                      else Lib.EVP_DecryptFinal_ex) ctx').1.1 =? 1)%Z
                then None
                else Some Final
            | None => Some Update
            end
          else Some Init
      end
  else Some CannotOpen.

End Failures.

(** ** Facts about bytes and strings *)

Lemma byte_to_N_lt (b : byte) : (Byte.to_N b < 256)%N.
Proof. pose proof (Byte.to_N_bounded b). lia. Qed.

Lemma byte_of_N_lt (n : N) : (n < 256)%N → ∃ b, Byte.of_N n = Some b.
Proof.
  intros Hn. destruct (Byte.of_N n) as [b|] eqn:E; [by eexists|].
  apply Byte.of_N_None_iff in E. lia.
Qed.

Lemma N_lt_256_log2 (a : N) : (a < 256)%N → (N.log2 a < 8)%N.
Proof.
  intros Ha. destruct (N.eq_dec a 0%N) as [->|Hnz]; [simpl; lia|].
  apply N.log2_lt_pow2; [lia|]. simpl. lia.
Qed.

Lemma N_lxor_lt_256 (a b : N) :
  (a < 256)%N → (b < 256)%N → (N.lxor a b < 256)%N.
Proof.
  intros Ha%N_lt_256_log2 Hb%N_lt_256_log2.
  destruct (N.eq_dec (N.lxor a b) 0%N) as [->|Hnz]; [lia|].
  change 256%N with (2 ^ 8)%N. apply N.log2_lt_pow2; [lia|].
  pose proof (N.log2_lxor a b). lia.
Qed.

Lemma xor_to_N (a b : byte) :
  Byte.to_N (Bytes.xor a b) = N.lxor (Byte.to_N a) (Byte.to_N b).
Proof.
  unfold Bytes.xor.
  destruct (byte_of_N_lt (N.lxor (Byte.to_N a) (Byte.to_N b))) as [c Hc].
  { apply N_lxor_lt_256; apply byte_to_N_lt. }
  rewrite Hc. by apply Byte.to_of_N.
Qed.

Lemma byte_to_N_inj (a b : byte) : Byte.to_N a = Byte.to_N b → a = b.
Proof.
  intros E. pose proof (Byte.of_to_N a) as Ha.
  rewrite E, Byte.of_to_N in Ha. congruence.
Qed.

Lemma xor_involutive (a b : byte) : Bytes.xor (Bytes.xor a b) b = a.
Proof.
  apply byte_to_N_inj. rewrite !xor_to_N.
  by rewrite N.lxor_assoc, N.lxor_nilpotent, N.lxor_0_r.
Qed.

Lemma length_xors (a b : bytes) :
  length a = length b → length (Bytes.xors a b) = length a.
Proof. intros E. unfold Bytes.xors. by rewrite length_zip_with, E, Nat.min_id. Qed.

Lemma xors_involutive (a b : bytes) :
  length a = length b → Bytes.xors (Bytes.xors a b) b = a.
Proof.
  revert b. induction a as [|x a IH]; intros [|y b] E; simplify_eq/=; [done|].
  unfold Bytes.xors in *. simpl. by rewrite xor_involutive, IH.
Qed.

Lemma to_nat_of_nat (n : nat) : n < 256 → Bytes.to_nat (Bytes.of_nat n) = n.
Proof.
  intros Hn. unfold Bytes.to_nat, Bytes.of_nat.
  rewrite N.mod_small by lia.
  destruct (byte_of_N_lt (N.of_nat n)) as [b Hb]; [lia|].
  rewrite Hb. apply Byte.to_of_N in Hb. rewrite Hb. lia.
Qed.

Lemma eqb_refl (b : byte) : Bytes.eqb b b = true.
Proof. by apply Byte.byte_dec_lb. Qed.

Lemma eqb_eq (a b : byte) : Bytes.eqb a b = true ↔ a = b.
Proof. split; [apply Byte.byte_dec_bl | apply Byte.byte_dec_lb]. Qed.

Lemma strlen_le (s : bytes) : strlen s ≤ length s.
Proof.
  induction s as [|c s IH]; simpl; [lia|].
  destruct (Bytes.eqb c Bytes.NUL); lia.
Qed.

Lemma strlen_no_nul (s : bytes) : Bytes.NUL ∉ s → strlen s = length s.
Proof.
  induction s as [|c s IH]; intros Hs; simpl; [done|].
  apply not_elem_of_cons in Hs as [Hc Hs].
  destruct (Bytes.eqb c Bytes.NUL) eqn:E.
  - apply eqb_eq in E. congruence.
  - by rewrite IH.
Qed.

Lemma strlen_app_nul (s rest : bytes) :
  Bytes.NUL ∉ s → strlen (s ++ Bytes.NUL :: rest) = length s.
Proof.
  induction s as [|c s IH]; intros Hs; simpl.
  - done.
  - apply not_elem_of_cons in Hs as [Hc Hs].
    destruct (Bytes.eqb c Bytes.NUL) eqn:E.
    + apply eqb_eq in E. congruence.
    + by rewrite IH.
Qed.

Lemma cstring_no_nul (s : bytes) : Bytes.NUL ∉ s → cstring s = s.
Proof. intros Hs. unfold cstring. rewrite strlen_no_nul by done. apply firstn_all. Qed.

Lemma cstring_app_nul (s rest : bytes) :
  Bytes.NUL ∉ s → cstring (s ++ Bytes.NUL :: rest) = s.
Proof.
  intros Hs. unfold cstring. rewrite strlen_app_nul by done.
  by rewrite take_app_length.
Qed.

(** ** Key derivation *)

(** Every round hands over at least one byte until none is wanted, so
    the loop of [EVP_BytesToKey] is over within [nkey + niv + 1]
    rounds. *)
Lemma BytesToKey_loop_total (md : EVP_MD) (salt : option bytes)
    (data : bytes) (count : nat) (fuel : nat) (s : BytesToKey.state) :
  BytesToKey.nkey s + BytesToKey.niv s < fuel →
  is_Some (BytesToKey.loop fuel md salt data count s).
Proof.
  revert s. induction fuel as [|fuel IH]; intros s Hfuel; [lia|].
  cbn [BytesToKey.loop]. cbv zeta.
  destruct (BytesToKey.finished _) eqn:Hfin; [by eexists|].
  apply IH. pose proof (md_size_pos md) as Hpos.
  unfold BytesToKey.finished, BytesToKey.round in *.
  cbn [BytesToKey.nkey BytesToKey.niv] in *.
  apply andb_false_iff in Hfin.
  destruct (BytesToKey.niv s =? 0) eqn:Hniv;
    destruct (Nat.min (BytesToKey.nkey s) (md_size md) =? md_size md) eqn:Hi;
    cbn [negb andb] in *;
    repeat match goal with
           | H : (_ =? _) = true |- _ => apply Nat.eqb_eq in H
           | H : (_ =? _) = false |- _ => apply Nat.eqb_neq in H
           end;
    destruct Hfin as [Hfin|Hfin]; apply Nat.eqb_neq in Hfin; lia.
Qed.

(** [EVP_BytesToKey] on a password always reports the key length. *)
Lemma EVP_BytesToKey_status (type : EVP_CIPHER) (md : EVP_MD)
    (salt : option bytes) (data : bytes) (datal count : nat)
    (key iv : bytes) :
  (EVP_BytesToKey type md salt (Some data) datal count key iv).1.1 =
  Z.of_nat (cipher_key_length type).
Proof.
  unfold EVP_BytesToKey. cbv zeta.
  set (s0 := BytesToKey.Build_state _ _ _ _ _ _ _ _).
  destruct (BytesToKey_loop_total md salt (take datal data) count
              (S (cipher_key_length type + cipher_iv_length type)) s0)
    as [s' Hs']; [cbn; lia|].
  by rewrite Hs'.
Qed.

Section Derivation.
Context `{!Sha256, !DesEde3}.

Lemma produce_S (r : nat) (produced prev password : bytes) :
  Spec.produce (S r) produced prev password =
  if Spec.K + Spec.V <=? length produced then produced
  else Spec.produce r (produced ++ sha256 (prev ++ password))
                    (sha256 (prev ++ password)) password.
Proof. reflexivity. Qed.

Lemma produce_enough (r : nat) (produced prev password : bytes) :
  Spec.K + Spec.V ≤ length produced →
  Spec.produce r produced prev password = produced.
Proof.
  intros Hlen%Nat.leb_le.
  destruct r; [unfold Spec.produce | rewrite produce_S]; by rewrite Hlen.
Qed.

Lemma spec_derive_unfold (password : bytes) :
  Spec.derive password =
  (take 24 (sha256 password), take 8 (drop 24 (sha256 password))).
Proof.
  unfold Spec.derive.
  replace (Spec.produce (Spec.K + Spec.V) [] [] password)
    with (sha256 password); [done|].
  symmetry. change (Spec.K + Spec.V) with (S 31) at 1.
  rewrite produce_S.
  change (Spec.K + Spec.V <=? length []) with false.
  cbv iota. rewrite !app_nil_l.
  apply produce_enough. rewrite sha256_length. unfold Spec.K, Spec.V. lia.
Qed.

Lemma EVP_BytesToKey_des_ede3_sha256 (data : bytes) (datal : nat)
    (key iv : bytes) :
  EVP_BytesToKey EVP_des_ede3_cbc EVP_sha256 None (Some data) datal 1 key iv =
  (24%Z,
   memcpy key 0 (take 24 (sha256 (take datal data))),
   memcpy iv 0 (take 8 (drop 24 (sha256 (take datal data))))).
Proof.
  unfold EVP_BytesToKey. cbn. by rewrite app_nil_r.
Qed.

Lemma generate_key_iv_returns (password key iv : bytes) (w : world) :
  generate_key_iv password key iv w =
  Returned (1%Z,
            memcpy key 0 (take 24 (sha256 (cstring password))),
            memcpy iv 0 (take 8 (drop 24 (sha256 (cstring password))))) w.
Proof.
  unfold generate_key_iv. by rewrite EVP_BytesToKey_des_ede3_sha256.
Qed.

End Derivation.

(** ** Chaining over whole blocks *)

Section Chaining.
Context (c : EVP_CIPHER).
Abbreviation bl := (cipher_block_size c).

Lemma cbc_encrypt_S (n : nat) (k iv d : bytes) :
  Cbc.encrypt (S n) c k iv d =
  let ct := cipher_encrypt_block c k (Bytes.xors (take bl d) iv) in
  let r := Cbc.encrypt n c k ct (drop bl d) in
  (ct ++ r.1, r.2).
Proof. cbn [Cbc.encrypt]. by destruct (Cbc.encrypt n c k _ (drop bl d)). Qed.

Lemma cbc_decrypt_S (n : nat) (k iv d : bytes) :
  Cbc.decrypt (S n) c k iv d =
  let ct := take bl d in
  let r := Cbc.decrypt n c k ct (drop bl d) in
  (Bytes.xors (cipher_decrypt_block c k ct) iv ++ r.1, r.2).
Proof. cbn [Cbc.decrypt]. by destruct (Cbc.decrypt n c k _ (drop bl d)). Qed.

Lemma cbc_encrypt_take (n : nat) (k iv d : bytes) :
  Cbc.encrypt n c k iv (take (n * bl) d) = Cbc.encrypt n c k iv d.
Proof.
  revert iv d. induction n as [|n IH]; intros iv d; [done|].
  rewrite !cbc_encrypt_S. cbv zeta.
  rewrite take_take, Nat.min_l by lia.
  replace (S n * bl) with (bl + n * bl) by lia.
  by rewrite <- take_drop_commute, IH.
Qed.

Lemma cbc_decrypt_take (n : nat) (k iv d : bytes) :
  Cbc.decrypt n c k iv (take (n * bl) d) = Cbc.decrypt n c k iv d.
Proof.
  revert iv d. induction n as [|n IH]; intros iv d; [done|].
  rewrite !cbc_decrypt_S. cbv zeta.
  rewrite take_take, Nat.min_l by lia.
  replace (S n * bl) with (bl + n * bl) by lia.
  by rewrite <- take_drop_commute, IH.
Qed.

Lemma cbc_encrypt_app (n m : nat) (k iv d1 d2 : bytes) :
  length d1 = n * bl →
  Cbc.encrypt (n + m) c k iv (d1 ++ d2) =
  let r1 := Cbc.encrypt n c k iv d1 in
  let r2 := Cbc.encrypt m c k r1.2 d2 in
  (r1.1 ++ r2.1, r2.2).
Proof.
  revert iv d1. induction n as [|n IH]; intros iv d1 Hlen.
  - apply length_zero_iff_nil in Hlen as ->. cbn.
    by destruct (Cbc.encrypt m c k iv d2).
  - replace (S n + m) with (S (n + m)) by lia.
    rewrite !cbc_encrypt_S. cbv zeta.
    rewrite take_app_le, drop_app_le by lia.
    rewrite IH by (rewrite length_drop; lia). cbn.
    by rewrite app_assoc.
Qed.

Lemma cbc_decrypt_app (n m : nat) (k iv d1 d2 : bytes) :
  length d1 = n * bl →
  Cbc.decrypt (n + m) c k iv (d1 ++ d2) =
  let r1 := Cbc.decrypt n c k iv d1 in
  let r2 := Cbc.decrypt m c k r1.2 d2 in
  (r1.1 ++ r2.1, r2.2).
Proof.
  revert iv d1. induction n as [|n IH]; intros iv d1 Hlen.
  - apply length_zero_iff_nil in Hlen as ->. cbn.
    by destruct (Cbc.decrypt m c k iv d2).
  - replace (S n + m) with (S (n + m)) by lia.
    rewrite !cbc_decrypt_S. cbv zeta.
    rewrite take_app_le, drop_app_le by lia.
    rewrite IH by (rewrite length_drop; lia). cbn.
    by rewrite app_assoc.
Qed.

(** Splitting the data at a block boundary splits the work. *)
Lemma cbc_encrypt_split (n m : nat) (k iv d : bytes) :
  n * bl ≤ length d →
  Cbc.encrypt (n + m) c k iv d =
  let r1 := Cbc.encrypt n c k iv d in
  let r2 := Cbc.encrypt m c k r1.2 (drop (n * bl) d) in
  (r1.1 ++ r2.1, r2.2).
Proof.
  intros Hlen. rewrite <- (take_drop (n * bl) d) at 1.
  rewrite cbc_encrypt_app by (rewrite length_take; lia).
  by rewrite cbc_encrypt_take.
Qed.

Lemma cbc_decrypt_split (n m : nat) (k iv d : bytes) :
  n * bl ≤ length d →
  Cbc.decrypt (n + m) c k iv d =
  let r1 := Cbc.decrypt n c k iv d in
  let r2 := Cbc.decrypt m c k r1.2 (drop (n * bl) d) in
  (r1.1 ++ r2.1, r2.2).
Proof.
  intros Hlen. rewrite <- (take_drop (n * bl) d) at 1.
  rewrite cbc_decrypt_app by (rewrite length_take; lia).
  by rewrite cbc_decrypt_take.
Qed.

(** Lengths, for a cipher whose block functions keep the block size. *)
Hypothesis encrypt_block_length :
  ∀ k b, length b = bl → length (cipher_encrypt_block c k b) = bl.
Hypothesis decrypt_block_length :
  ∀ k b, length b = bl → length (cipher_decrypt_block c k b) = bl.

Lemma cbc_encrypt_length (n : nat) (k iv d : bytes) :
  length iv = bl → n * bl ≤ length d →
  length (Cbc.encrypt n c k iv d).1 = n * bl ∧
  length (Cbc.encrypt n c k iv d).2 = bl.
Proof.
  revert iv d. induction n as [|n IH]; intros iv d Hiv Hd; [done|].
  rewrite cbc_encrypt_S. cbn.
  assert (Hct : length (cipher_encrypt_block c k
                          (Bytes.xors (take bl d) iv)) = bl).
  { apply encrypt_block_length. rewrite length_xors; rewrite length_take; lia. }
  destruct (IH (cipher_encrypt_block c k (Bytes.xors (take bl d) iv))
               (drop bl d)) as [H1 H2]; [done|rewrite length_drop; lia|].
  rewrite length_app, Hct, H1. done.
Qed.

Lemma cbc_decrypt_length (n : nat) (k iv d : bytes) :
  length iv = bl → n * bl ≤ length d →
  length (Cbc.decrypt n c k iv d).1 = n * bl ∧
  length (Cbc.decrypt n c k iv d).2 = bl.
Proof.
  revert iv d. induction n as [|n IH]; intros iv d Hiv Hd; [done|].
  rewrite cbc_decrypt_S. cbn.
  assert (Htk : length (take bl d) = bl) by (rewrite length_take; lia).
  destruct (IH (take bl d) (drop bl d)) as [H1 H2];
    [done|rewrite length_drop; lia|].
  rewrite length_app, H1, length_xors; rewrite decrypt_block_length; lia.
Qed.

(** Decrypting undoes encrypting, block by block. *)
Hypothesis decrypt_encrypt_block :
  ∀ k b, length k = cipher_key_length c → length b = bl →
         cipher_decrypt_block c k (cipher_encrypt_block c k b) = b.

Lemma cbc_decrypt_encrypt (n : nat) (k iv d : bytes) :
  length k = cipher_key_length c → length iv = bl → n * bl ≤ length d →
  (Cbc.decrypt n c k iv (Cbc.encrypt n c k iv d).1).1 = take (n * bl) d.
Proof.
  intros Hk. revert iv d. induction n as [|n IH]; intros iv d Hiv Hd; [done|].
  rewrite cbc_encrypt_S. cbv zeta. cbn [fst snd].
  set (ct := cipher_encrypt_block c k (Bytes.xors (take bl d) iv)).
  assert (Hx : length (Bytes.xors (take bl d) iv) = bl).
  { rewrite length_xors; rewrite length_take; lia. }
  assert (Hct : length ct = bl) by by apply encrypt_block_length.
  rewrite cbc_decrypt_S. cbv zeta. cbn [fst snd].
  rewrite take_app_length', drop_app_length' by done.
  unfold ct at 1. rewrite decrypt_encrypt_block by done.
  rewrite xors_involutive by (rewrite length_take; lia).
  rewrite IH by (done || rewrite length_drop; lia).
  replace (S n * bl) with (bl + n * bl) by lia.
  by rewrite take_take_drop.
Qed.

End Chaining.

(** ** Arithmetic of blocks *)

Lemma div_mul_le (a b : nat) : a / b * b ≤ a.
Proof.
  rewrite Nat.mul_comm. apply Nat.Div0.mul_div_le.
Qed.

Lemma sub_div_mul (a b : nat) : a - a / b * b = a mod b.
Proof.
  destruct b as [|b]; [simpl; lia|].
  pose proof (Nat.div_mod_eq a (S b)). lia.
Qed.

Lemma length_drop_blocks (d : bytes) (b : nat) :
  length (drop (length d / b * b) d) = length d mod b.
Proof. rewrite length_drop. apply sub_div_mul. Qed.

Lemma div_add_blocks (n r b : nat) : 0 < b → (n * b + r) / b = n + r / b.
Proof. intros Hb. apply Nat.div_add_l. lia. Qed.

(** ** Writing to a file *)

Lemma written_files (data : bytes) (f : FILE) (w : world) :
  w_room w !! f = None →
  w_files (written data f w) =
  <[f := default [] (w_files w !! f) ++ data]> (w_files w).
Proof. intros Hr. unfold written. by rewrite Hr. Qed.

Lemma written_written (d1 d2 : bytes) (f : FILE) (w : world) :
  written d2 f (written d1 f w) = written (d1 ++ d2) f w.
Proof.
  unfold written, set_files. cbn. f_equal.
  rewrite lookup_insert_eq, insert_insert_eq. cbn. f_equal.
  destruct (w_room w !! f) as [r|]; [|by rewrite app_assoc].
  rewrite <- app_assoc. f_equal.
  rewrite length_app, length_take, take_app. f_equal. f_equal. lia.
Qed.

Lemma written_nil (f : FILE) (w : world) :
  is_Some (w_files w !! f) → written [] f w = w.
Proof.
  intros [x Hx]. unfold written, set_files.
  destruct w as [nm fs lk rm sg ft se st].
  cbn in *. f_equal. rewrite Hx. cbn.
  replace (match rm !! f with Some r => take (r - length x) [] | None => [] end)
    with (@nil byte) by (destruct (rm !! f); by rewrite ?take_nil).
  rewrite app_nil_r. by apply insert_id.
Qed.

Lemma written_is_Some (data : bytes) (f g : FILE) (w : world) :
  is_Some (w_files w !! g) → is_Some (w_files (written data f w) !! g).
Proof.
  intros Hg. unfold written. cbn.
  destruct (decide (f = g)) as [->|Hne].
  - rewrite lookup_insert_eq. by eexists.
  - by rewrite lookup_insert_ne.
Qed.

Lemma stderr_written (data : bytes) (f : FILE) (w : world) :
  w_stderr (written data f w) = w_stderr w.
Proof. reflexivity. Qed.

Lemma stderr_opened (f : FILE) (w : world) :
  w_stderr (opened f w) = w_stderr w.
Proof. unfold opened. by destruct (decide _). Qed.

Lemma stderr_add_stderr (w : world) (line : string) :
  w_stderr (add_stderr w line) = w_stderr w ++ [line].
Proof. reflexivity. Qed.

Lemma signal_written (data : bytes) (f : FILE) (w : world) :
  w_signal (written data f w) = w_signal w.
Proof. reflexivity. Qed.

Lemma files_written (data : bytes) (f : FILE) (w : world) :
  w_files (written data f w) !! f =
  Some (default [] (w_files w !! f) ++
        match w_room w !! f with
        | Some r => take (r - length (default [] (w_files w !! f))) data
        | None => data
        end).
Proof. unfold written. cbn. by rewrite lookup_insert_eq. Qed.

(** On a file that raises no signal [fwrite] returns. *)
Lemma fwrite_quiet (data : bytes) (f : FILE) (w : world) :
  w_signal w !! f = None → fwrite data f w = Returned tt (written data f w).
Proof. intros Hs. unfold fwrite. by rewrite Hs. Qed.

Lemma fwrite_nil (f : FILE) (w : world) :
  is_Some (w_files w !! f) → fwrite [] f w = Returned tt w.
Proof.
  intros Hf. unfold fwrite.
  destruct (w_signal w !! f) as [[limit sig]|]; cbn [length];
    rewrite ?Nat.ltb_irrefl; cbn [andb]; by rewrite written_nil.
Qed.

Lemma fwrite_signal (data : bytes) (f : FILE) (limit : nat) (sig : signal)
    (w : world) :
  w_signal w !! f = Some (limit, sig) →
  fwrite data f w =
  let size := length (default [] (w_files w !! f)) in
  if (limit - size <? length data) &&
     match w_room w !! f with
     | Some r => limit - size <=? r - size
     | None => true
     end
  then Killed sig (written (take (limit - size) data) f w)
  else Returned tt (written data f w).
Proof. intros Hs. unfold fwrite. by rewrite Hs. Qed.

(** Two calls of [fwrite] do what one call on all the bytes does. *)
Lemma fwrite_app (a b : bytes) (f : FILE) (w : world) :
  (fwrite a f;; fwrite b f) w = fwrite (a ++ b) f w.
Proof.
  change ((fwrite a f;; fwrite b f) w)
    with (match fwrite a f w with
          | Returned _ w' => fwrite b f w'
          | Exited status w' => Exited status w'
          | Killed sig w' => Killed sig w'
          end).
  destruct (w_signal w !! f) as [[limit sig]|] eqn:Hs.
  2: { rewrite !fwrite_quiet by done.
       by rewrite written_written. }
  rewrite (fwrite_signal a _ limit sig), (fwrite_signal (a ++ b) _ limit sig)
    by done.
  cbv zeta. set (c := default [] (w_files w !! f)).
  assert (Hb : ∀ w', w' = written a f w →
    fwrite b f w' =
    let size := length (default [] (w_files w' !! f)) in
    if (limit - size <? length b) &&
       match w_room w !! f with
       | Some r => limit - size <=? r - size
       | None => true
       end
    then Killed sig (written (take (limit - size) b) f w')
    else Returned tt (written b f w')).
  { intros w' ->. by rewrite (fwrite_signal b _ limit sig). }
  assert (Hjoin : ∀ k, length a ≤ k - length c →
    written (take (k - (length c + length a)) b) f (written a f w) =
    written (take (k - length c) (a ++ b)) f w).
  { intros k Hk. rewrite written_written, take_app_ge by lia.
    do 3 f_equal. lia. }
  destruct ((limit - length c <? length a) && _) eqn:Ea; cbv beta iota;
    [|rewrite (Hb _ eq_refl); cbv zeta;
      rewrite files_written; fold c; cbn [from_option id]];
    revert Ea; rewrite !length_app;
    destruct (w_room w !! f) as [r|] eqn:Hr; rewrite ?length_take;
    repeat match goal with
           | |- context [?x <? ?y] => destruct (Nat.ltb_spec x y)
           | |- context [?x <=? ?y] => destruct (Nat.leb_spec x y)
           end;
    cbn [andb]; intros Ea; try discriminate Ea; try (exfalso; lia);
    first [ by rewrite written_written
          | by rewrite take_app_le by lia
          | idtac ].
  all: try (replace ((r - length c) `min` length a) with (length a) by lia).
  all: by rewrite Hjoin by lia.
Qed.

(** Writing to a file that has just been opened. *)
Lemma fwrite_empty (data : bytes) (f : FILE) (w : world) :
  w_files w !! f = Some [] →
  fwrite data f w =
  match raises w f (length data) with
  | Some (limit, sig) => Killed sig (written (take limit data) f w)
  | None => Returned tt (written data f w)
  end.
Proof.
  intros Hf. unfold fwrite, raises. rewrite Hf. cbn [from_option id length].
  destruct (w_signal w !! f) as [[limit sig]|]; [|done].
  rewrite !Nat.sub_0_r.
  replace (match w_room w !! f with
           | Some r => limit <=? r - 0
           | None => true
           end)
    with (match w_room w !! f with
          | Some r => limit <=? r
          | None => true
          end)
    by (destruct (w_room w !! f); by rewrite ?Nat.sub_0_r).
  by destruct (_ && _).
Qed.

(** ** Updates compose *)

Section Streaming.
Context (c : EVP_CIPHER).
Abbreviation b := (cipher_block_size c).
Hypothesis block_size_gt_1 : 1 < b.

Lemma EVP_EncryptUpdate_eq (ctx : EVP_CIPHER_CTX) (inp : bytes) :
  ctx_cipher ctx = Some c → ctx_encrypt ctx = true →
  EVP_EncryptUpdate ctx inp =
  let data := ctx_buf ctx ++ inp in
  let n := length data / b in
  let r := Cbc.encrypt n c (ctx_key ctx) (ctx_iv ctx) data in
  (1%Z, r.1,
   ctx_advance ctx r.2 (drop (n * b) data) (ctx_final ctx)).
Proof.
  intros Hc He. unfold EVP_EncryptUpdate. rewrite Hc, He. cbn.
  by destruct (Cbc.encrypt _ c _ _ _).
Qed.

Lemma EVP_EncryptUpdate_ready (ctx : EVP_CIPHER_CTX) (inp : bytes) :
  ctx_cipher ctx = Some c → ctx_encrypt ctx = true →
  enc_ready c (EVP_EncryptUpdate ctx inp).2.
Proof.
  intros Hc He. rewrite EVP_EncryptUpdate_eq by done. cbn.
  split_and!; [done..|]. unfold ctx_advance. cbn.
  rewrite length_drop_blocks. apply Nat.mod_upper_bound. lia.
Qed.

Lemma EVP_EncryptUpdate_nil (ctx : EVP_CIPHER_CTX) :
  enc_ready c ctx → EVP_EncryptUpdate ctx [] = (1%Z, [], ctx).
Proof.
  intros (Hc & He & Hb). rewrite EVP_EncryptUpdate_eq by done. cbn.
  rewrite app_nil_r, Nat.div_small by done. cbn.
  by destruct ctx.
Qed.

(** Feeding [x ++ y] in one call or [x] and then [y] in two gives the
    same bytes and leaves the same context. *)
Lemma EVP_EncryptUpdate_app (ctx : EVP_CIPHER_CTX) (x y : bytes) :
  ctx_cipher ctx = Some c → ctx_encrypt ctx = true →
  EVP_EncryptUpdate ctx (x ++ y) =
  let r1 := EVP_EncryptUpdate ctx x in
  let r2 := EVP_EncryptUpdate r1.2 y in
  (1%Z, r1.1.2 ++ r2.1.2, r2.2).
Proof.
  intros Hc He.
  rewrite (EVP_EncryptUpdate_eq ctx x) by done. cbv zeta. cbn [fst snd].
  rewrite !EVP_EncryptUpdate_eq by done. cbn.
  set (A := ctx_buf ctx ++ x).
  set (n1 := length A / b).
  set (B := drop (n1 * b) A ++ y).
  set (n2 := length B / b).
  assert (Hn1 : n1 * b ≤ length A) by apply div_mul_le.
  assert (HAB : ctx_buf ctx ++ x ++ y = A ++ y) by by rewrite app_assoc.
  rewrite HAB.
  assert (Hn : length (A ++ y) / b = n1 + n2).
  { replace (length (A ++ y)) with (n1 * b + length B).
    - apply div_add_blocks. lia.
    - unfold B. rewrite !length_app, length_drop. lia. }
  rewrite Hn.
  rewrite cbc_encrypt_split by (rewrite length_app; lia). cbn.
  assert (Hr1 : Cbc.encrypt n1 c (ctx_key ctx) (ctx_iv ctx) (A ++ y) =
                Cbc.encrypt n1 c (ctx_key ctx) (ctx_iv ctx) A).
  { rewrite <- (cbc_encrypt_take c n1 _ _ (A ++ y)).
    rewrite take_app_le by done. apply cbc_encrypt_take. }
  rewrite Hr1, drop_app_le by done. fold B.
  unfold ctx_advance. cbn.
  replace ((n1 + n2) * b) with (n1 * b + n2 * b) by lia.
  rewrite <- drop_drop, drop_app_le by done. done.
Qed.

(** The decrypting side needs the block lengths. *)
Hypothesis decrypt_block_length :
  ∀ k x, length x = b → length (cipher_decrypt_block c k x) = b.

Lemma EVP_DecryptUpdate_nil (ctx : EVP_CIPHER_CTX) :
  ctx_cipher ctx = Some c → ctx_encrypt ctx = false →
  EVP_DecryptUpdate ctx [] = (1%Z, [], ctx).
Proof. intros Hc He. unfold EVP_DecryptUpdate. by rewrite Hc, He. Qed.

Lemma EVP_DecryptUpdate_eq (ctx : EVP_CIPHER_CTX) (inp : bytes) :
  ctx_cipher ctx = Some c → ctx_encrypt ctx = false → inp ≠ [] →
  EVP_DecryptUpdate ctx inp =
  let data := ctx_buf ctx ++ inp in
  let n := length data / b in
  let r := Cbc.decrypt n c (ctx_key ctx) (ctx_iv ctx) data in
  let buf' := drop (n * b) data in
  let held := default [] (ctx_final ctx) in
  if length buf' =? 0 then
    (1%Z, held ++ take (length r.1 - b) r.1,
     ctx_advance ctx r.2 buf' (Some (drop (length r.1 - b) r.1)))
  else (1%Z, held ++ r.1, ctx_advance ctx r.2 buf' None).
Proof.
  intros Hc He Hi. unfold EVP_DecryptUpdate. rewrite Hc, He.
  destruct inp as [|i0 inp]; [done|]. cbn [length Nat.eqb].
  destruct (Cbc.decrypt _ c _ _ _) as [plain iv']. cbn [fst snd].
  assert (Hb : (1 <? b) = true) by by apply Nat.ltb_lt.
  by rewrite Hb.
Qed.

Lemma EVP_DecryptUpdate_status (ctx : EVP_CIPHER_CTX) (inp : bytes) :
  ctx_cipher ctx = Some c → ctx_encrypt ctx = false →
  (EVP_DecryptUpdate ctx inp).1.1 = 1%Z.
Proof.
  intros Hc He. destruct (decide (inp = [])) as [->|Hi].
  - by rewrite EVP_DecryptUpdate_nil.
  - rewrite EVP_DecryptUpdate_eq by done. cbv zeta.
    by destruct (length _ =? 0).
Qed.

Lemma EVP_DecryptUpdate_ready (ctx : EVP_CIPHER_CTX) (inp : bytes) :
  dec_ready c ctx → dec_ready c (EVP_DecryptUpdate ctx inp).2.
Proof.
  intros (Hc & He & Hb & Hiv). destruct (decide (inp = [])) as [->|Hi].
  - by rewrite EVP_DecryptUpdate_nil.
  - rewrite EVP_DecryptUpdate_eq by done. cbv zeta.
    assert (length (ctx_buf ctx ++ inp) `div` b * b
            ≤ length (ctx_buf ctx ++ inp)) by apply div_mul_le.
    destruct (cbc_decrypt_length c decrypt_block_length
                (length (ctx_buf ctx ++ inp) / b)
                (ctx_key ctx) (ctx_iv ctx) (ctx_buf ctx ++ inp))
      as [_ Hiv']; [done..|].
    destruct (length _ =? 0); unfold dec_ready, ctx_advance; cbn;
      (split_and!; [done..| |done]);
      rewrite length_drop_blocks; apply Nat.mod_upper_bound; lia.
Qed.

(** Feeding [x ++ y] in one call or [x] and then [y] in two writes
    the same bytes and leaves the same context. *)
Lemma EVP_DecryptUpdate_app (ctx : EVP_CIPHER_CTX) (x y : bytes) :
  dec_ready c ctx →
  EVP_DecryptUpdate ctx (x ++ y) =
  let r1 := EVP_DecryptUpdate ctx x in
  let r2 := EVP_DecryptUpdate r1.2 y in
  (1%Z, r1.1.2 ++ r2.1.2, r2.2).
Proof.
  intros Hready. pose proof Hready as (Hc & He & Hb & Hiv). cbv zeta.
  destruct (decide (x = [])) as [->|Hx].
  { rewrite EVP_DecryptUpdate_nil by done. cbn.
    pose proof (EVP_DecryptUpdate_status ctx y Hc He).
    by destruct (EVP_DecryptUpdate ctx y) as [[? ?] ?]; simplify_eq/=. }
  pose proof (EVP_DecryptUpdate_ready ctx x Hready) as (Hc1 & He1 & Hb1 & Hiv1).
  destruct (decide (y = [])) as [->|Hy].
  { rewrite app_nil_r, (EVP_DecryptUpdate_nil _ Hc1 He1). cbn.
    rewrite app_nil_r.
    pose proof (EVP_DecryptUpdate_status ctx x Hc He).
    by destruct (EVP_DecryptUpdate ctx x) as [[? ?] ?]; simplify_eq/=. }
  assert (Hxy : x ++ y ≠ []) by by destruct x.
  rewrite (EVP_DecryptUpdate_eq _ y Hc1 He1 Hy).
  rewrite (EVP_DecryptUpdate_eq ctx (x ++ y)) by done.
  rewrite (EVP_DecryptUpdate_eq ctx x) by done. cbv zeta.
  set (A := ctx_buf ctx ++ x).
  set (n1 := length A / b).
  set (P1 := Cbc.decrypt n1 c (ctx_key ctx) (ctx_iv ctx) A).
  set (B := drop (n1 * b) A ++ y).
  assert (Hn1 : n1 * b ≤ length A) by apply div_mul_le.
  assert (HAB : ctx_buf ctx ++ x ++ y = A ++ y) by by rewrite app_assoc.
  rewrite HAB.
  assert (Hn : length (A ++ y) / b = n1 + length B / b).
  { replace (length (A ++ y)) with (n1 * b + length B).
    - apply div_add_blocks. lia.
    - unfold B. rewrite !length_app, length_drop. lia. }
  rewrite Hn. set (n2 := length B / b).
  assert (Hr1 : Cbc.decrypt n1 c (ctx_key ctx) (ctx_iv ctx) (A ++ y) = P1).
  { rewrite <- (cbc_decrypt_take c n1 _ _ (A ++ y)).
    rewrite take_app_le by done. apply cbc_decrypt_take. }
  rewrite cbc_decrypt_split by (rewrite length_app; lia).
  cbv zeta. cbn [fst snd].
  replace ((n1 + n2) * b) with (n1 * b + n2 * b) by lia.
  rewrite <- drop_drop, Hr1, (drop_app_le A y (n1 * b)) by done. fold B.
  destruct (cbc_decrypt_length c decrypt_block_length n1
              (ctx_key ctx) (ctx_iv ctx) A) as [HP1 HP1iv]; [done..|].
  fold P1 in HP1, HP1iv.
  (* the context and the bytes after the first call *)
  set (r1 := if length (drop (n1 * b) A) =? 0
             then (1%Z, default [] (ctx_final ctx)
                          ++ take (length P1.1 - b) P1.1,
                   ctx_advance ctx P1.2 (drop (n1 * b) A)
                     (Some (drop (length P1.1 - b) P1.1)))
             else (1%Z, default [] (ctx_final ctx) ++ P1.1,
                   ctx_advance ctx P1.2 (drop (n1 * b) A) None)).
  assert (Hkey : ctx_key r1.2 = ctx_key ctx ∧ ctx_iv r1.2 = P1.2 ∧
                 ctx_buf r1.2 = drop (n1 * b) A ∧
                 r1.1.2 ++ default [] (ctx_final r1.2) =
                 default [] (ctx_final ctx) ++ P1.1 ∧
                 ∀ iv' buf' fin, ctx_advance r1.2 iv' buf' fin =
                                 ctx_advance ctx iv' buf' fin).
  { unfold r1. destruct (length (drop (n1 * b) A) =? 0); cbn;
      split_and!; try done.
    - by rewrite <- app_assoc, take_drop.
    - by rewrite app_nil_r. }
  destruct Hkey as (Hk & Hi & Hbuf & Hout & Hadv).
  rewrite Hk, Hi, Hbuf. fold B. fold n2.
  set (P2 := Cbc.decrypt n2 c (ctx_key ctx) P1.2 B).
  assert (Hn2 : n2 * b ≤ length B) by apply div_mul_le.
  destruct (cbc_decrypt_length c decrypt_block_length n2
              (ctx_key ctx) P1.2 B) as [HP2 _]; [done..|].
  fold P2 in HP2. cbn [fst snd]. rewrite !Hadv.
  destruct (length (drop (n2 * b) B) =? 0) eqn:Hal.
  - (* the input ends on a block boundary *)
    apply Nat.eqb_eq in Hal. unfold n2 in Hal.
    rewrite length_drop_blocks in Hal.
    assert (HB : 0 < length B).
    { unfold B. rewrite length_app. destruct y; [done|cbn; lia]. }
    assert (1 ≤ n2).
    { unfold n2. apply Nat.div_str_pos. split; [lia|].
      pose proof (Nat.div_mod_eq (length B) b).
      destruct (length B / b) eqn:E; [|nia]. lia. }
    rewrite length_app, HP1, HP2.
    replace (n1 * b + n2 * b - b) with (length P1.1 + (n2 * b - b)) by nia.
    rewrite take_app_add, drop_app_add. cbn [fst snd].
    by rewrite (app_assoc r1.1.2), Hout, <- app_assoc.
  - cbn [fst snd].
    by rewrite (app_assoc r1.1.2), Hout, <- app_assoc.
Qed.

End Streaming.

(** ** Padding *)

Lemma to_nat_inj (x y : byte) : Bytes.to_nat x = Bytes.to_nat y → x = y.
Proof. unfold Bytes.to_nat. intros E. apply byte_to_N_inj. lia. Qed.

Lemma to_nat_lt (x : byte) : Bytes.to_nat x < 256.
Proof. unfold Bytes.to_nat. pose proof (byte_to_N_lt x). lia. Qed.

Lemma eqb_to_nat (x y : byte) :
  Bytes.eqb x y = (Bytes.to_nat x =? Bytes.to_nat y).
Proof.
  destruct (Bytes.eqb x y) eqn:E.
  - apply eqb_eq in E as ->. by rewrite Nat.eqb_refl.
  - symmetry. apply Nat.eqb_neq. intros Hxy%to_nat_inj.
    apply eqb_eq in Hxy. congruence.
Qed.

Lemma padding_bytes_ok_app (a rest : bytes) (x : byte) :
  padding_bytes_ok (length a) (a ++ rest) x =
  forallb (λ y, Bytes.to_nat y =? Bytes.to_nat x) a.
Proof.
  induction a as [|y a IH]; [done|].
  cbn [length app padding_bytes_ok forallb]. by rewrite IH, eqb_to_nat.
Qed.

Lemma forallb_rev {A} (f : A → bool) (l : list A) :
  forallb f (rev l) = forallb f l.
Proof.
  induction l as [|x l IH]; [done|].
  cbn [rev forallb]. rewrite forallb_app, IH. cbn. by rewrite andb_true_r, andb_comm.
Qed.

(** The backwards loop of the final call checks the last [n] bytes. *)
Lemma padding_bytes_ok_rev (n : nat) (block : bytes) (x : byte) :
  n ≤ length block →
  padding_bytes_ok n (rev block) x =
  forallb (λ y, Bytes.to_nat y =? Bytes.to_nat x) (drop (length block - n) block).
Proof.
  intros Hn.
  rewrite <- (take_drop (length block - n) block) at 1.
  rewrite rev_app_distr.
  replace n with (length (rev (drop (length block - n) block))) at 1
    by (rewrite length_rev, length_drop; lia).
  by rewrite padding_bytes_ok_app, forallb_rev.
Qed.

Lemma length_pkcs7_pad (b : nat) (data : bytes) :
  0 < b → length (pkcs7_pad b data) = (length data / b + 1) * b.
Proof.
  intros Hb. unfold pkcs7_pad. rewrite length_app, length_replicate.
  pose proof (Nat.div_mod_eq (length data) b).
  pose proof (Nat.mod_upper_bound (length data) b). nia.
Qed.

Lemma last_app_replicate {A} (l : list A) (n : nat) (x : A) :
  0 < n → last (l ++ replicate n x) = Some x.
Proof.
  intros Hn. rewrite last_lookup, length_app, length_replicate.
  rewrite lookup_app_r by lia.
  apply lookup_replicate_2. lia.
Qed.

Lemma forallb_replicate {A} (f : A → bool) (n : nat) (x : A) :
  f x = true → forallb f (replicate n x) = true.
Proof. intros Hx. induction n as [|n IH]; [done|]. cbn. by rewrite Hx, IH. Qed.

(** The last block of a padded input passes the check, and announces
    the number of bytes that were added. *)
Lemma pkcs7_pad_last_block (data : bytes) :
  let n := 8 - length data mod 8 in
  let block := drop (length data / 8 * 8) (pkcs7_pad 8 data) in
  block = drop (length data / 8 * 8) data ++ replicate n (Bytes.of_nat n) ∧
  pkcs7_count block = n ∧ pkcs7_valid 8 block = true.
Proof.
  cbv zeta. unfold pkcs7_pad.
  pose proof (div_mul_le (length data) 8) as Hq.
  pose proof (Nat.mod_upper_bound (length data) 8) as Hr.
  set (n := 8 - length data mod 8). assert (Hn : 1 ≤ n ≤ 8) by lia.
  rewrite drop_app_le by done.
  set (rest := drop (length data / 8 * 8) data).
  assert (Hrest : length rest = 8 - n).
  { unfold rest. rewrite length_drop_blocks. lia. }
  assert (Hcount : pkcs7_count (rest ++ replicate n (Bytes.of_nat n)) = n).
  { unfold pkcs7_count. rewrite last_app_replicate by lia. cbn.
    apply to_nat_of_nat. lia. }
  split_and!; [done..|].
  unfold pkcs7_valid. rewrite Hcount.
  replace (1 <=? n) with true by (symmetry; apply Nat.leb_le; lia).
  replace (n <=? 8) with true by (symmetry; apply Nat.leb_le; lia).
  cbn [andb]. rewrite drop_app_length' by lia.
  apply forallb_replicate. rewrite to_nat_of_nat by lia. apply Nat.eqb_refl.
Qed.

(** ** The program, call by call *)

Lemma proc_bind_eq {A B} (m : proc A) (f : A → proc B) (w : world) :
  (m ≫= f) w =
  match m w with
  | Returned a w' => f a w'
  | Exited status w' => Exited status w'
  | Killed sig w' => Killed sig w'
  end.
Proof. reflexivity. Qed.

Lemma take_memcpy (dst src : bytes) :
  length src ≤ length dst → take (length src) (memcpy dst 0 src) = src.
Proof.
  intros Hlen. unfold memcpy.
  rewrite <- (take_drop (length src) dst) at 1.
  rewrite list_inserts_0_r by (rewrite length_take; lia).
  by rewrite take_app_length.
Qed.

Lemma pieces_of_concat (n fuel : nat) (data : bytes) :
  0 < n → length data ≤ fuel → concat (pieces_of fuel n data) = data.
Proof.
  intros Hn. revert data. induction fuel as [|fuel IH]; intros data Hlen.
  - destruct data; [done|cbn in Hlen; lia].
  - destruct data as [|x data]; [done|].
    cbn [pieces_of concat].
    rewrite IH; [apply take_drop|].
    rewrite length_drop. cbn in *. lia.
Qed.

(** Whatever the size of the reads, the pieces put together are the
    bytes of the file. *)
Lemma pieces_concat (n : nat) (data : bytes) :
  0 < n → concat (pieces n data) = data.
Proof.
  intros Hn. unfold pieces.
  destruct (n =? 0) eqn:E; [apply Nat.eqb_eq in E; lia|].
  by apply pieces_of_concat.
Qed.

Section Run.
Context `{!Sha256, !DesEde3}.

Lemma des_ede3_block_size_gt_1 : 1 < cipher_block_size EVP_des_ede3_cbc.
Proof. cbn. lia. Qed.

Lemma des_ede3_decrypt_block_length (k x : bytes) :
  length x = cipher_block_size EVP_des_ede3_cbc →
  length (cipher_decrypt_block EVP_des_ede3_cbc k x) =
  cipher_block_size EVP_des_ede3_cbc.
Proof. apply des_ede3_decrypt_length. Qed.

Lemma des_ede3_encrypt_block_length (k x : bytes) :
  length x = cipher_block_size EVP_des_ede3_cbc →
  length (cipher_encrypt_block EVP_des_ede3_cbc k x) =
  cipher_block_size EVP_des_ede3_cbc.
Proof. apply des_ede3_encrypt_length. Qed.

Lemma fwrite_returned (data : bytes) (f : FILE) (w w' : world) :
  fwrite data f w = Returned tt w' → w' = written data f w.
Proof.
  unfold fwrite. destruct (w_signal w !! f) as [[limit sig]|];
    [destruct (_ && _)|]; congruence.
Qed.

(** The reading loop of [encrypt_file] does what one call of
    [EVP_EncryptUpdate] on the whole input and one call of [fwrite] on
    what it gives do. *)
Lemma encrypt_loop_concat (ps : list bytes) (ctx : EVP_CIPHER_CTX)
    (out : FILE) (w : world) :
  enc_ready EVP_des_ede3_cbc ctx → is_Some (w_files w !! out) →
  encrypt_loop ps ctx out w =
  let r := EVP_EncryptUpdate ctx (concat ps) in
  returning r.2 (fwrite r.1.2 out w).
Proof.
  revert ctx w. induction ps as [|p ps IH]; intros ctx w Hready Hout.
  - cbn [encrypt_loop concat].
    rewrite (EVP_EncryptUpdate_nil EVP_des_ede3_cbc) by done.
    cbn [fst snd]. by rewrite fwrite_nil.
  - destruct Hready as (Hc & He & Hb).
    cbn [encrypt_loop concat Lib.EVP_EncryptUpdate openssl]. cbv zeta.
    rewrite (EVP_EncryptUpdate_app _ des_ede3_block_size_gt_1) by done.
    pose proof (EVP_EncryptUpdate_ready _ des_ede3_block_size_gt_1
                  ctx p Hc He) as Hready'.
    pose proof (EVP_EncryptUpdate_eq EVP_des_ede3_cbc ctx p Hc He) as Heq.
    destruct (EVP_EncryptUpdate ctx p) as [[r o] ctx'].
    cbv zeta in Heq. injection Heq as -> _ _.
    cbn [fst snd] in *. cbn [Z.eqb Pos.eqb negb].
    rewrite proc_bind_eq, <- fwrite_app, proc_bind_eq.
    destruct (fwrite o out w) as [[] w'|status w'|sig w'] eqn:Hw; [|done..].
    apply fwrite_returned in Hw as ->.
    by rewrite IH by (done || by apply written_is_Some).
Qed.

(** The same for [decrypt_file] and [EVP_DecryptUpdate]. *)
Lemma decrypt_loop_concat (ps : list bytes) (ctx : EVP_CIPHER_CTX)
    (out : FILE) (w : world) :
  dec_ready EVP_des_ede3_cbc ctx → is_Some (w_files w !! out) →
  decrypt_loop ps ctx out w =
  let r := EVP_DecryptUpdate ctx (concat ps) in
  returning r.2 (fwrite r.1.2 out w).
Proof.
  revert ctx w. induction ps as [|p ps IH]; intros ctx w Hready Hout.
  - destruct Hready as (Hc & He & Hb & Hiv).
    cbn [decrypt_loop concat].
    rewrite (EVP_DecryptUpdate_nil EVP_des_ede3_cbc) by done.
    cbn [fst snd]. by rewrite fwrite_nil.
  - pose proof Hready as (Hc & He & Hb & Hiv).
    cbn [decrypt_loop concat Lib.EVP_DecryptUpdate openssl]. cbv zeta.
    rewrite (EVP_DecryptUpdate_app _ des_ede3_block_size_gt_1
               des_ede3_decrypt_block_length) by done.
    pose proof (EVP_DecryptUpdate_ready _ des_ede3_block_size_gt_1
                  des_ede3_decrypt_block_length ctx p Hready) as Hready'.
    pose proof (EVP_DecryptUpdate_status _ des_ede3_block_size_gt_1
                  ctx p Hc He) as Hst.
    destruct (EVP_DecryptUpdate ctx p) as [[r o] ctx'].
    cbn [fst snd] in *. subst r. cbn [Z.eqb Pos.eqb negb].
    rewrite proc_bind_eq, <- fwrite_app, proc_bind_eq.
    destruct (fwrite o out w) as [[] w'|status w'|sig w'] eqn:Hw; [|done..].
    apply fwrite_returned in Hw as ->.
    by rewrite IH by (done || by apply written_is_Some).
Qed.

Lemma length_key_of (password : bytes) : length (key_of password) = 24.
Proof. unfold key_of. rewrite length_take, sha256_length. lia. Qed.

Lemma length_iv_of (password : bytes) : length (iv_of password) = 8.
Proof.
  unfold iv_of. rewrite length_take, length_drop, sha256_length. lia.
Qed.

Lemma started_enc_ready (password : bytes) :
  enc_ready EVP_des_ede3_cbc (started true password).
Proof. split_and!; [done..|]. cbn. lia. Qed.

Lemma started_dec_ready (password : bytes) :
  dec_ready EVP_des_ede3_cbc (started false password).
Proof. split_and!; [done..|cbn; lia|]. apply length_iv_of. Qed.

(** The init call of either function, on the buffers
    [generate_key_iv] has filled in on the stack. *)
Lemma cipher_init_started (enc : bool) (ctx : EVP_CIPHER_CTX)
    (password : bytes) (w : world) :
  cipher_init enc ctx EVP_des_ede3_cbc
    (memcpy (w_stack w <$> seq 0 EVP_MAX_KEY_LENGTH) 0
            (take 24 (sha256 (cstring password))))
    (memcpy (w_stack w <$> seq EVP_MAX_KEY_LENGTH EVP_MAX_IV_LENGTH) 0
            (take 8 (drop 24 (sha256 (cstring password))))) =
  (1%Z, started enc password).
Proof.
  unfold cipher_init, started. f_equal. f_equal.
  - pose proof (length_key_of password) as Hk. unfold key_of in *.
    cbn [cipher_key_length EVP_des_ede3_cbc].
    rewrite <- Hk at 1. apply take_memcpy.
    rewrite Hk, length_fmap, length_seq. unfold EVP_MAX_KEY_LENGTH. lia.
  - pose proof (length_iv_of password) as Hv. unfold iv_of in *.
    cbn [cipher_iv_length EVP_des_ede3_cbc].
    rewrite <- Hv at 1. apply take_memcpy.
    rewrite Hv, length_fmap, length_seq. unfold EVP_MAX_IV_LENGTH. lia.
Qed.

Lemma EVP_EncryptFinal_ex_eq (ctx : EVP_CIPHER_CTX) :
  ctx_cipher ctx = Some EVP_des_ede3_cbc → ctx_encrypt ctx = true →
  EVP_EncryptFinal_ex ctx =
  let n := 8 - length (ctx_buf ctx) in
  let r := Cbc.encrypt 1 EVP_des_ede3_cbc (ctx_key ctx) (ctx_iv ctx)
             (ctx_buf ctx ++ replicate n (Bytes.of_nat n)) in
  (1%Z, r.1, ctx_advance ctx r.2 (ctx_buf ctx) (ctx_final ctx)).
Proof.
  intros Hc He. unfold EVP_EncryptFinal_ex. rewrite Hc, He.
  cbn [negb cipher_block_size EVP_des_ede3_cbc Nat.eqb]. cbv zeta.
  by destruct (Cbc.encrypt 1 _ _ _ _).
Qed.

(** [encrypt_file] with both files open: one update on the whole
    input, the final call, and the two results written. *)
Lemma encrypt_file_sized_opened (n : nat) (input_file output_file : string)
    (password : bytes) (w : world) :
  is_Some (w_files w !! w_file w input_file) →
  w_file w output_file ∉ w_locked w →
  encrypt_file_sized n input_file output_file password w =
  let out := w_file w output_file in
  let w1 := opened out w in
  let r := EVP_EncryptUpdate (started true password)
             (concat (pieces n (readable w1 (w_file w input_file)))) in
  let f := EVP_EncryptFinal_ex r.2 in
  fwrite (r.1.2 ++ f.1.2) out w1.
Proof.
  intros [x Hin] Hout. unfold encrypt_file_sized.
  rewrite proc_bind_eq. unfold fopen at 1. cbv zeta. rewrite Hin.
  rewrite proc_bind_eq. unfold fopen at 1. cbv zeta.
  rewrite decide_False by done.
  unfold opened. rewrite decide_False by done.
  set (out := w_file w output_file).
  set (w1 := set_files w _).
  assert (Hw1 : is_Some (w_files w1 !! out)).
  { unfold w1. cbn. rewrite lookup_insert_eq. by eexists. }
  rewrite proc_bind_eq. unfold automatic at 1. cbv beta iota.
  rewrite proc_bind_eq. unfold automatic at 1. cbv beta iota.
  rewrite proc_bind_eq, generate_key_iv_returns. cbv beta iota.
  change (1 =? 0)%Z with false. cbv iota.
  cbn [Lib.EVP_CIPHER_CTX_new Lib.EVP_EncryptInit_ex
       Lib.EVP_EncryptFinal_ex openssl].
  unfold EVP_CIPHER_CTX_new, EVP_EncryptInit_ex.
  rewrite cipher_init_started. cbv beta iota.
  change (negb (1 =? 1)%Z) with false. cbv iota.
  rewrite proc_bind_eq. unfold fread_all at 1. cbv beta iota.
  rewrite proc_bind_eq.
  rewrite encrypt_loop_concat by (done || apply started_enc_ready).
  cbv zeta.
  set (ps := concat _).
  pose proof (EVP_EncryptUpdate_ready _ des_ede3_block_size_gt_1
                (started true password) ps eq_refl eq_refl)
    as (Hc & He & _).
  rewrite (EVP_EncryptFinal_ex_eq _ Hc He). cbv zeta. cbn [fst snd].
  destruct (Cbc.encrypt 1 _ _ _ _) as [o iv'] eqn:Hfin. cbn [fst snd].
  rewrite <- fwrite_app, proc_bind_eq.
  destruct (fwrite _ out w1) as [[] w2|status w2|sig w2]; cbn [returning];
    [|done..].
  rewrite (EVP_EncryptFinal_ex_eq _ Hc He). cbv zeta. rewrite Hfin.
  cbn [fst snd]. change (negb (1 =? 1)%Z) with false. cbv iota.
  rewrite proc_bind_eq. by destruct (fwrite o out w2) as [[] ?|?|?].
Qed.

Lemma encrypt_one_call (password data : bytes) :
  let r := EVP_EncryptUpdate (started true password) data in
  let f := EVP_EncryptFinal_ex r.2 in
  r.1.2 ++ f.1.2 = ciphertext password data.
Proof.
  cbv zeta.
  pose proof (EVP_EncryptUpdate_ready _ des_ede3_block_size_gt_1
                (started true password) data eq_refl eq_refl)
    as (Hc & He & _).
  rewrite (EVP_EncryptFinal_ex_eq _ Hc He).
  rewrite (EVP_EncryptUpdate_eq EVP_des_ede3_cbc) by done.
  cbv zeta. cbn [fst snd started ctx_advance ctx_buf ctx_key ctx_iv
                 cipher_block_size EVP_des_ede3_cbc app].
  unfold ciphertext, pkcs7_pad.
  set (n := length data / 8).
  assert (Hn : n * 8 ≤ length data) by apply div_mul_le.
  rewrite (cbc_encrypt_split EVP_des_ede3_cbc n 1)
    by (cbn [cipher_block_size EVP_des_ede3_cbc]; rewrite length_app; lia).
  cbv zeta. cbn [fst snd cipher_block_size EVP_des_ede3_cbc].
  assert (Hfirst : ∀ tail,
    Cbc.encrypt n EVP_des_ede3_cbc (key_of password) (iv_of password)
      (data ++ tail) =
    Cbc.encrypt n EVP_des_ede3_cbc (key_of password) (iv_of password) data).
  { intros tail.
    rewrite <- (cbc_encrypt_take EVP_des_ede3_cbc n _ _ (data ++ tail)).
    cbn [cipher_block_size EVP_des_ede3_cbc].
    rewrite take_app_le by done.
    apply (cbc_encrypt_take EVP_des_ede3_cbc). }
  rewrite Hfirst, drop_app_le by done.
  unfold n. by rewrite length_drop_blocks.
Qed.

Lemma length_ciphertext (password data : bytes) :
  length (ciphertext password data) = (length data / 8 + 1) * 8.
Proof.
  unfold ciphertext.
  apply (cbc_encrypt_length EVP_des_ede3_cbc des_ede3_encrypt_block_length).
  - apply length_iv_of.
  - rewrite length_pkcs7_pad by lia. done.
Qed.

(** The final call of [decrypt_file] on the block kept back. *)
Lemma EVP_DecryptFinal_ex_eq (ctx : EVP_CIPHER_CTX) (final : bytes) :
  ctx_cipher ctx = Some EVP_des_ede3_cbc → ctx_encrypt ctx = false →
  ctx_buf ctx = [] → ctx_final ctx = Some final → length final = 8 →
  EVP_DecryptFinal_ex ctx =
  if pkcs7_valid 8 final
  then (1%Z, take (8 - pkcs7_count final) final, ctx)
  else (0%Z, [], ctx).
Proof.
  intros Hc He Hb Hf Hlen. unfold EVP_DecryptFinal_ex.
  rewrite Hc, He, Hf, Hb.
  cbn [cipher_block_size EVP_des_ede3_cbc length Nat.eqb negb].
  change (1 <? 8) with true. cbv iota zeta.
  assert (Hlast : final !! (8 - 1) = last final).
  { rewrite last_lookup, Hlen. done. }
  rewrite Hlast. unfold pkcs7_valid, pkcs7_count.
  set (x := default Bytes.NUL (last final)).
  set (n := Bytes.to_nat x).
  destruct (n =? 0) eqn:E0.
  { apply Nat.eqb_eq in E0. rewrite E0. done. }
  apply Nat.eqb_neq in E0.
  destruct (8 <? n) eqn:E8.
  { apply Nat.ltb_lt in E8. cbn [orb].
    replace (n <=? 8) with false by (symmetry; apply Nat.leb_gt; lia).
    by rewrite andb_false_r, andb_false_l. }
  apply Nat.ltb_ge in E8. cbn [orb].
  replace (1 <=? n) with true by (symmetry; apply Nat.leb_le; lia).
  replace (n <=? 8) with true by (symmetry; apply Nat.leb_le; lia).
  cbn [andb].
  rewrite take_ge by lia.
  rewrite padding_bytes_ok_rev by lia. rewrite Hlen. fold n.
  by destruct (forallb _ _).
Qed.

Lemma EVP_DecryptFinal_ex_short (ctx : EVP_CIPHER_CTX) :
  ctx_cipher ctx = Some EVP_des_ede3_cbc → ctx_encrypt ctx = false →
  ctx_buf ctx ≠ [] ∨ ctx_final ctx = None →
  EVP_DecryptFinal_ex ctx = (0%Z, [], ctx).
Proof.
  intros Hc He Hs. unfold EVP_DecryptFinal_ex. rewrite Hc, He.
  cbn [cipher_block_size EVP_des_ede3_cbc].
  change (1 <? 8) with true. cbv iota.
  destruct (ctx_final ctx) as [final|]; [|done].
  destruct Hs as [Hb|?]; [|done].
  destruct (ctx_buf ctx); done.
Qed.

(** [decrypt_file] with both files open: one update on the whole
    input and the final call; the process ends there when the final
    call reports a failure, with what the update wrote left in the
    output file. *)
Lemma decrypt_file_sized_opened (n : nat) (input_file output_file : string)
    (password : bytes) (w : world) :
  is_Some (w_files w !! w_file w input_file) →
  w_file w output_file ∉ w_locked w →
  decrypt_file_sized n input_file output_file password w =
  let out := w_file w output_file in
  let w1 := opened out w in
  let r := EVP_DecryptUpdate (started false password)
             (concat (pieces n (readable w1 (w_file w input_file)))) in
  let f := EVP_DecryptFinal_ex r.2 in
  if (f.1.1 =? 1)%Z
  then fwrite (r.1.2 ++ f.1.2) out w1
  else (fwrite r.1.2 out;; eprintln "Error occurred";; exit 1) w1.
Proof.
  intros [x Hin] Hout. unfold decrypt_file_sized.
  rewrite proc_bind_eq. unfold fopen at 1. cbv zeta. rewrite Hin.
  rewrite proc_bind_eq. unfold fopen at 1. cbv zeta.
  rewrite decide_False by done.
  unfold opened. rewrite decide_False by done.
  set (out := w_file w output_file).
  set (w1 := set_files w _).
  assert (Hw1 : is_Some (w_files w1 !! out)).
  { unfold w1. cbn. rewrite lookup_insert_eq. by eexists. }
  rewrite proc_bind_eq. unfold automatic at 1. cbv beta iota.
  rewrite proc_bind_eq. unfold automatic at 1. cbv beta iota.
  rewrite proc_bind_eq, generate_key_iv_returns. cbv beta iota.
  change (1 =? 0)%Z with false. cbv iota.
  cbn [Lib.EVP_CIPHER_CTX_new Lib.EVP_DecryptInit_ex
       Lib.EVP_DecryptFinal_ex openssl].
  unfold EVP_CIPHER_CTX_new, EVP_DecryptInit_ex.
  rewrite cipher_init_started. cbv beta iota.
  change (negb (1 =? 1)%Z) with false. cbv iota.
  rewrite proc_bind_eq. unfold fread_all at 1. cbv beta iota.
  rewrite proc_bind_eq.
  rewrite decrypt_loop_concat by (done || apply started_dec_ready).
  cbv beta iota zeta.
  set (r := EVP_DecryptUpdate _ _).
  destruct (EVP_DecryptFinal_ex r.2) as [[st o] ctx'] eqn:Hfin.
  cbn [fst snd].
  destruct (st =? 1)%Z eqn:Hst.
  - rewrite <- fwrite_app, proc_bind_eq.
    destruct (fwrite _ out w1) as [[] w2|status w2|sig w2]; cbn [returning];
      [|done..].
    rewrite Hfin, Hst. cbn [negb].
    rewrite proc_bind_eq. by destruct (fwrite o out w2) as [[] ?|?|?].
  - rewrite proc_bind_eq.
    destruct (fwrite _ out w1) as [[] w2|status w2|sig w2]; cbn [returning];
      [|done..].
    by rewrite Hfin, Hst.
Qed.

Lemma length_plain_blocks (password data : bytes) :
  length (plain_blocks password data) = length data / 8 * 8.
Proof.
  unfold plain_blocks.
  apply (cbc_decrypt_length EVP_des_ede3_cbc des_ede3_decrypt_block_length).
  - apply length_iv_of.
  - apply div_mul_le.
Qed.

(** The update of [decrypt_file] on a whole ciphertext that ends on a
    block boundary: everything but the last block is written. *)
Lemma decrypt_update_aligned (password data : bytes) :
  data ≠ [] → length data mod 8 = 0 →
  let p := plain_blocks password data in
  let r := EVP_DecryptUpdate (started false password) data in
  r.1.1 = 1%Z ∧ r.1.2 = take (length p - 8) p ∧
  ctx_cipher r.2 = Some EVP_des_ede3_cbc ∧ ctx_encrypt r.2 = false ∧
  ctx_buf r.2 = [] ∧ ctx_final r.2 = Some (drop (length p - 8) p).
Proof.
  intros Hne Hal. cbv zeta.
  rewrite (EVP_DecryptUpdate_eq _ des_ede3_block_size_gt_1) by done.
  cbv zeta.
  cbn [started ctx_buf ctx_key ctx_iv ctx_final app default
       cipher_block_size EVP_des_ede3_cbc].
  rewrite length_drop_blocks, Hal. cbn [Nat.eqb fst snd ctx_advance
    ctx_cipher ctx_encrypt ctx_buf ctx_final started].
  fold (plain_blocks password data).
  split_and!; try done.
  apply length_zero_iff_nil. by rewrite length_drop_blocks.
Qed.

(** On a ciphertext that stops inside a block, every whole block is
    written and the rest waits in the context. *)
Lemma decrypt_update_unaligned (password data : bytes) :
  length data mod 8 ≠ 0 →
  let r := EVP_DecryptUpdate (started false password) data in
  r.1.1 = 1%Z ∧ r.1.2 = plain_blocks password data ∧
  ctx_cipher r.2 = Some EVP_des_ede3_cbc ∧ ctx_encrypt r.2 = false ∧
  ctx_buf r.2 ≠ [].
Proof.
  intros Hal. cbv zeta.
  assert (Hne : data ≠ []) by (intros ->; by cbn in Hal).
  rewrite (EVP_DecryptUpdate_eq _ des_ede3_block_size_gt_1) by done.
  cbv zeta.
  cbn [started ctx_buf ctx_key ctx_iv ctx_final app default
       cipher_block_size EVP_des_ede3_cbc].
  rewrite length_drop_blocks.
  destruct (length data mod 8 =? 0) eqn:E; [by apply Nat.eqb_eq in E|].
  cbn [fst snd ctx_advance ctx_cipher ctx_encrypt ctx_buf].
  fold (plain_blocks password data).
  split_and!; try done.
  intros Hnil%(f_equal length). rewrite length_drop_blocks in Hnil.
  by cbn in Hnil.
Qed.

(** Decrypting what [encrypt_file] wrote gives the padded input back. *)
Lemma plain_blocks_ciphertext (password data : bytes) :
  plain_blocks password (ciphertext password data) = pkcs7_pad 8 data.
Proof.
  unfold plain_blocks. rewrite length_ciphertext.
  rewrite Nat.div_mul by lia. unfold ciphertext.
  rewrite (cbc_decrypt_encrypt EVP_des_ede3_cbc
             des_ede3_encrypt_block_length).
  - apply take_ge. rewrite length_pkcs7_pad by lia. done.
  - intros k x Hk Hx. by apply des_ede3_decrypt_encrypt.
  - apply length_key_of.
  - apply length_iv_of.
  - rewrite length_pkcs7_pad by lia. done.
Qed.

Lemma encrypt_file_sized_result (n : nat) (input_file output_file : string)
    (password : bytes) (w : world) :
  0 < n → is_Some (w_files w !! w_file w input_file) →
  w_file w output_file ∉ w_locked w →
  encrypt_file_sized n input_file output_file password w =
  let out := w_file w output_file in
  let w1 := opened out w in
  fwrite (ciphertext password (readable w1 (w_file w input_file))) out w1.
Proof.
  intros Hn Hin Hout. rewrite encrypt_file_sized_opened by done.
  cbv zeta. rewrite pieces_concat by done.
  by rewrite encrypt_one_call.
Qed.

Lemma decrypt_one_call (password data : bytes) :
  let r := EVP_DecryptUpdate (started false password) data in
  let f := EVP_DecryptFinal_ex r.2 in
  let o := decrypt_outcome password data in
  (f.1.1 =? 1)%Z = o.1 ∧
  (if o.1 then r.1.2 ++ f.1.2 else r.1.2) = o.2.
Proof.
  cbv zeta. unfold decrypt_outcome.
  destruct (decide (data = [])) as [->|Hne].
  { rewrite (EVP_DecryptUpdate_nil EVP_des_ede3_cbc) by done.
    by rewrite EVP_DecryptFinal_ex_short by (done || by right). }
  assert (Hlen : (length data =? 0) = false).
  { apply Nat.eqb_neq. by destruct data. }
  rewrite Hlen. cbn [orb].
  destruct (length data mod 8 =? 0) eqn:Hal; cbn [negb].
  - apply Nat.eqb_eq in Hal.
    destruct (decrypt_update_aligned password data Hne Hal)
      as (_ & Hout & Hc & He & Hb & Hf).
    pose proof (length_plain_blocks password data) as Hp.
    assert (8 ≤ length data).
    { pose proof (Nat.div_mod_eq (length data) 8).
      destruct data; [done|]. cbn [length] in *. lia. }
    assert (Hq : 1 ≤ length data / 8).
    { apply Nat.div_str_pos. lia. }
    rewrite (EVP_DecryptFinal_ex_eq _ _ Hc He Hb Hf)
      by (rewrite length_drop; lia).
    rewrite Hout.
    set (p := plain_blocks password data) in *.
    destruct (pkcs7_valid 8 (drop (length p - 8) p)) eqn:Hv;
      cbn [fst snd]; [|done].
    split; [done|].
    assert (Hcount : 1 ≤ pkcs7_count (drop (length p - 8) p) ≤ 8).
    { unfold pkcs7_valid in Hv. apply andb_prop in Hv as [Hv _].
      apply andb_prop in Hv as [Hlo%Nat.leb_le Hhi%Nat.leb_le]. done. }
    rewrite take_drop_commute.
    replace (length p - 8 + (8 - pkcs7_count (drop (length p - 8) p)))
      with (length p - pkcs7_count (drop (length p - 8) p)) by lia.
    rewrite <- (take_drop (length p - 8)
                  (take (length p - pkcs7_count (drop (length p - 8) p)) p))
      at 2.
    f_equal. rewrite take_take. f_equal. lia.
  - apply Nat.eqb_neq in Hal.
    destruct (decrypt_update_unaligned password data Hal)
      as (_ & Hout & Hc & He & Hb).
    by rewrite EVP_DecryptFinal_ex_short by (done || by left).
Qed.

Lemma decrypt_file_sized_result (n : nat) (input_file output_file : string)
    (password : bytes) (w : world) :
  0 < n → is_Some (w_files w !! w_file w input_file) →
  w_file w output_file ∉ w_locked w →
  decrypt_file_sized n input_file output_file password w =
  let out := w_file w output_file in
  let w1 := opened out w in
  let o := decrypt_outcome password (readable w1 (w_file w input_file)) in
  if o.1 then fwrite o.2 out w1
  else (fwrite o.2 out;; eprintln "Error occurred";; exit 1) w1.
Proof.
  intros Hn Hin Hout. rewrite decrypt_file_sized_opened by done.
  cbv zeta. rewrite pieces_concat by done.
  destruct (decrypt_one_call password
              (readable (opened (w_file w output_file) w)
                 (w_file w input_file))) as [Hst Hby].
  rewrite Hst.
  by destruct (decrypt_outcome _ _).1; rewrite Hby.
Qed.

(** With a file that cannot be opened, either function prints its
    message and ends the process; the output file has been emptied by
    then if it could be opened. *)
Lemma encrypt_file_sized_unopened (n : nat) (input_file output_file : string)
    (password : bytes) (w : world) :
  w_files w !! w_file w input_file = None ∨
  w_file w output_file ∈ w_locked w →
  encrypt_file_sized n input_file output_file password w =
  Exited 1 (add_stderr (opened (w_file w output_file) w)
              "Unable to open input or output file").
Proof.
  intros Hno. unfold encrypt_file_sized, opened.
  rewrite proc_bind_eq. unfold fopen at 1. cbv zeta.
  destruct (w_files w !! w_file w input_file) as [x|] eqn:Hin;
    rewrite proc_bind_eq; unfold fopen at 1; cbv zeta;
    destruct (decide (w_file w output_file ∈ w_locked w)); try done.
  by destruct Hno.
Qed.

Lemma decrypt_file_sized_unopened (n : nat) (input_file output_file : string)
    (password : bytes) (w : world) :
  w_files w !! w_file w input_file = None ∨
  w_file w output_file ∈ w_locked w →
  decrypt_file_sized n input_file output_file password w =
  Exited 1 (add_stderr (opened (w_file w output_file) w)
              "Unable to open input or output file").
Proof.
  intros Hno. unfold decrypt_file_sized, opened.
  rewrite proc_bind_eq. unfold fopen at 1. cbv zeta.
  destruct (w_files w !! w_file w input_file) as [x|] eqn:Hin;
    rewrite proc_bind_eq; unfold fopen at 1; cbv zeta;
    destruct (decide (w_file w output_file ∈ w_locked w)); try done.
  by destruct Hno.
Qed.

Lemma BUF_SIZE_pos : 0 < BUF_SIZE.
Proof. unfold BUF_SIZE. apply Nat.mul_pos_pos; lia. Qed.

(** Decrypting what [encrypt_file] wrote ends well and gives the input
    back. *)
Lemma decrypt_outcome_ciphertext (password data : bytes) :
  decrypt_outcome password (ciphertext password data) = (true, data).
Proof.
  unfold decrypt_outcome.
  rewrite plain_blocks_ciphertext, length_ciphertext.
  rewrite Nat.Div0.mod_mul.
  replace ((length data / 8 + 1) * 8 =? 0) with false
    by (symmetry; apply Nat.eqb_neq; lia).
  cbn [orb negb Nat.eqb]. rewrite length_pkcs7_pad by lia.
  replace ((length data / 8 + 1) * 8 - 8) with (length data / 8 * 8) by lia.
  destruct (pkcs7_pad_last_block data) as (Hblock & Hcount & Hvalid).
  rewrite Hvalid, Hcount. f_equal.
  pose proof (Nat.div_mod_eq (length data) 8).
  pose proof (Nat.mod_upper_bound (length data) 8).
  unfold pkcs7_pad. rewrite take_app_le by lia. apply take_ge. lia.
Qed.

(** A ciphertext that is empty or stops inside a block is refused, the
    whole blocks it has having been written. *)
Lemma decrypt_outcome_short (password data : bytes) :
  data = [] ∨ length data mod 8 ≠ 0 →
  decrypt_outcome password data = (false, plain_blocks password data).
Proof.
  intros Hshort. unfold decrypt_outcome.
  destruct Hshort as [->|Hal]; [done|].
  apply Nat.eqb_neq in Hal. rewrite Hal. cbn [negb].
  by rewrite orb_true_r.
Qed.

Lemma readable_opened (f out : FILE) (data : bytes) (w : world) :
  w_files w !! f = Some data → f ≠ out → w_fault w !! f = None →
  readable (opened out w) f = data.
Proof.
  intros Hin Hne Hf. unfold readable, opened.
  destruct (decide (out ∈ w_locked w)); unfold set_files; cbn.
  - by rewrite Hf, Hin.
  - by rewrite Hf, lookup_insert_ne, Hin.
Qed.

Lemma written_opened (data : bytes) (out : FILE) (w : world) :
  out ∉ w_locked w → w_room w !! out = None →
  written data out (opened out w) =
  set_files w (<[out := data]> (w_files w)).
Proof.
  intros Hl Hr. unfold opened. rewrite decide_False by done.
  unfold written, set_files. cbn. rewrite Hr, lookup_insert_eq. cbn.
  by rewrite insert_insert_eq.
Qed.

(** Writing to a file just opened, on a medium that neither fills up
    nor raises a signal. *)
Lemma fwrite_opened (data : bytes) (out : FILE) (w : world) :
  out ∉ w_locked w → w_room w !! out = None → w_signal w !! out = None →
  fwrite data out (opened out w) =
  Returned tt (set_files w (<[out := data]> (w_files w))).
Proof.
  intros Hl Hr Hs. rewrite fwrite_quiet.
  - by rewrite written_opened.
  - unfold opened. by destruct (decide _).
Qed.

(** [encrypt_file] on media that do not fail, fill up or raise a
    signal. *)
Lemma encrypt_file_sized_good (n : nat) (input_file output_file : string)
    (password data : bytes) (w : world) :
  0 < n → w_files w !! w_file w input_file = Some data →
  w_file w input_file ≠ w_file w output_file →
  w_file w output_file ∉ w_locked w →
  w_fault w !! w_file w input_file = None →
  w_room w !! w_file w output_file = None →
  w_signal w !! w_file w output_file = None →
  encrypt_file_sized n input_file output_file password w =
  Returned tt
    (set_files w
       (<[w_file w output_file := ciphertext password data]> (w_files w))).
Proof.
  intros Hn Hin Hne Hl Hf Hr Hs.
  rewrite encrypt_file_sized_result by (done || by eexists).
  cbv zeta. rewrite (readable_opened _ _ data) by done.
  by rewrite fwrite_opened.
Qed.

(** [decrypt_file] on media that do not fail, fill up or raise a
    signal. *)
Lemma decrypt_file_sized_good (n : nat) (input_file output_file : string)
    (password data : bytes) (w : world) :
  0 < n → w_files w !! w_file w input_file = Some data →
  w_file w input_file ≠ w_file w output_file →
  w_file w output_file ∉ w_locked w →
  w_fault w !! w_file w input_file = None →
  w_room w !! w_file w output_file = None →
  w_signal w !! w_file w output_file = None →
  decrypt_file_sized n input_file output_file password w =
  let o := decrypt_outcome password data in
  let w' := set_files w (<[w_file w output_file := o.2]> (w_files w)) in
  if o.1 then Returned tt w' else Exited 1 (add_stderr w' "Error occurred").
Proof.
  intros Hn Hin Hne Hl Hf Hr Hs.
  rewrite decrypt_file_sized_result by (done || by eexists).
  cbv zeta. rewrite (readable_opened _ _ data) by done.
  destruct (decrypt_outcome password data).1;
    [by rewrite fwrite_opened|].
  rewrite proc_bind_eq, fwrite_opened by done. done.
Qed.

End Run.

(** ** The command line, option by option *)

Lemma print_usage_printed (prog_name : string) (w : world) :
  print_usage prog_name w = Returned tt (printed w (usage_lines prog_name)).
Proof.
  unfold print_usage, printed, usage_lines.
  repeat (rewrite proc_bind_eq; unfold eprintln at 1; cbv beta iota).
  unfold eprintln, add_stderr. cbn. f_equal. f_equal.
  by rewrite <- !app_assoc.
Qed.

Lemma printed_printed (w : world) (l1 l2 : list string) :
  printed (printed w l1) l2 = printed w (l1 ++ l2).
Proof. unfold printed. cbn. by rewrite app_assoc. Qed.

Lemma add_stderr_printed (w : world) (line : string) :
  add_stderr w line = printed w [line].
Proof. reflexivity. Qed.

Lemma getopt_all_words (prog : string) (a : argument) (rest : list string) :
  getopt_all prog "edi:o:p:" (words a ++ rest) =
  getopt_of a :: getopt_all prog "edi:o:p:" rest.
Proof. destruct a as [[]| | |]; reflexivity. Qed.

Lemma getopt_all_command_line (prog : string) (l : list argument)
    (rest : list string) :
  getopt_all prog "edi:o:p:" (command_line l ++ rest) =
  (getopt_of <$> l) ++ getopt_all prog "edi:o:p:" rest.
Proof.
  unfold command_line. induction l as [|a l IH]; [done|].
  rewrite bind_cons, <- app_assoc, getopt_all_words, IH. done.
Qed.

Lemma main_loop_getopt_of (prog : string) (a : argument)
    (results : list getopt_result) (o : options) :
  main_loop prog (getopt_of a :: results) o =
  main_loop prog results (set_option o a).
Proof. destruct a as [[]| | |]; reflexivity. Qed.

Lemma main_loop_options (prog : string) (l : list argument)
    (results : list getopt_result) (o : options) :
  main_loop prog ((getopt_of <$> l) ++ results) o =
  main_loop prog results (foldl set_option o l).
Proof.
  revert o. induction l as [|a l IH]; intros o; [done|].
  rewrite fmap_cons. cbn [app foldl].
  by rewrite main_loop_getopt_of, IH.
Qed.

(** The variables after the loop hold the last value given for each. *)
Lemma foldl_set_option (l : list argument) (o : options) :
  foldl set_option o l =
  {| opt_encrypt :=
       match chosen_mode l with
       | Some m => if m then 1%Z else 0%Z
       | None => opt_encrypt o
       end;
     opt_input_file :=
       match chosen_input l with
       | Some f => Some f
       | None => opt_input_file o
       end;
     opt_output_file :=
       match chosen_output l with
       | Some f => Some f
       | None => opt_output_file o
       end;
     opt_password :=
       match chosen_password l with
       | Some p => Some p
       | None => opt_password o
       end |}.
Proof.
  revert o. induction l as [|a l IH]; intros o; [by destruct o|].
  cbn [foldl]. rewrite IH.
  unfold chosen_mode, chosen_input, chosen_output, chosen_password.
  destruct a as [m| | |];
    cbn [omap list_omap set_option opt_encrypt opt_input_file
         opt_output_file opt_password];
    rewrite ?last_cons; f_equal; by repeat case_match.
Qed.

Lemma getopt_all_operand (prog optstring : string) (x : string)
    (rest : list string) :
  operand x = true →
  getopt_all prog optstring (x :: rest) = getopt_all prog optstring rest.
Proof.
  intros Hx. destruct x as [|d [|c cs]]; [done..|].
  cbn [operand] in Hx. apply negb_true_iff in Hx.
  cbn [getopt_all]. by rewrite Hx.
Qed.

Lemma option_kind_unknown (c : Ascii.ascii) :
  c ∉ ["e"; "d"; "i"; "o"; "p"]%char → option_kind "edi:o:p:" c = None.
Proof.
  intros Hc. unfold option_kind.
  destruct (bool_decide (c = ":"%char)) eqn:E1; [done|].
  destruct (bool_decide (c = ";"%char)) eqn:E2; [done|].
  apply bool_decide_eq_false in E1. cbn [orb optstring_find].
  repeat (destruct (decide _) as [<-|_];
          [exfalso; first [by apply E1 | apply Hc; set_solver]|]).
  done.
Qed.

Lemma getopt_all_unknown (prog : string) (c : Ascii.ascii) (cs : string)
    (rest : list string) :
  c ∉ ["e"; "d"; "i"; "o"; "p"]%char → String c cs ≠ "-" →
  ∃ results,
    getopt_all prog "edi:o:p:" (String "-" (String c cs) :: rest) =
    GetoptUnknown (prog +:+ ": invalid option -- '" +:+ String c "'")
    :: results.
Proof.
  intros Hc Hdd. cbn [getopt_all].
  rewrite bool_decide_eq_true_2 by done.
  rewrite bool_decide_eq_false_2 by congruence.
  rewrite option_kind_unknown by done. by eexists.
Qed.

Lemma getopt_all_no_argument (prog : string) (c : Ascii.ascii) :
  c ∈ ["i"; "o"; "p"]%char →
  getopt_all prog "edi:o:p:" [String "-" (String c "")] =
  [GetoptUnknown (prog +:+ ": option requires an argument -- '"
                  +:+ String c "'")].
Proof.
  intros Hc. repeat (apply elem_of_cons in Hc as [->|Hc]; [reflexivity|]).
  by apply elem_of_nil in Hc.
Qed.

(** The loop either leaves the variables set and nothing printed, or
    makes [main] return 1 after the usage lines, which follow the
    complaint of [getopt] if there is one. *)
Lemma main_loop_cases (prog : string) (results : list getopt_result)
    (o : options) (w : world) :
  (∃ o', main_loop prog results o w = Returned (inl o') w) ∨
  (∃ complaint,
     length complaint ≤ 1 ∧
     main_loop prog results o w =
     Returned (inr 1%Z) (printed w (complaint ++ usage_lines prog))).
Proof.
  revert o. induction results as [|[c optarg|complaint] results IH]; intros o.
  - left. by eexists.
  - cbn [main_loop]. destruct (main_switch c optarg o) as [o'|]; [apply IH|].
    right. exists []. split; [cbn; lia|].
    rewrite proc_bind_eq, print_usage_printed. done.
  - right. exists [complaint]. split; [done|].
    cbn [main_loop]. rewrite proc_bind_eq. unfold eprintln at 1.
    cbv beta iota. rewrite proc_bind_eq, print_usage_printed.
    cbv beta iota. by rewrite add_stderr_printed, printed_printed.
Qed.

Lemma main_loop_unknown (prog complaint : string)
    (results : list getopt_result) (o : options) (w : world) :
  main_loop prog (GetoptUnknown complaint :: results) o w =
  Returned (inr 1%Z) (printed w (complaint :: usage_lines prog)).
Proof.
  cbn [main_loop]. rewrite proc_bind_eq. unfold eprintln at 1.
  cbv beta iota. rewrite proc_bind_eq, print_usage_printed.
  cbv beta iota. by rewrite add_stderr_printed, printed_printed.
Qed.

Lemma getopt_all_attached (prog : string) (c : Ascii.ascii) (arg : string)
    (rest : list string) :
  c ∈ ["i"; "o"; "p"]%char → arg ≠ "" →
  getopt_all prog "edi:o:p:" (String "-" (String c arg) :: rest) =
  getopt_all prog "edi:o:p:" (String "-" (String c "") :: arg :: rest).
Proof.
  intros Hc Harg. destruct arg as [|a arg]; [done|].
  repeat (apply elem_of_cons in Hc as [->|Hc]; [reflexivity|]).
  by apply elem_of_nil in Hc.
Qed.

Lemma getopt_all_cluster (prog : string) (m c : Ascii.ascii) (cs : string)
    (rest : list string) :
  m ∈ ["e"; "d"]%char → String c cs ≠ "-" →
  getopt_all prog "edi:o:p:" (String "-" (String m (String c cs)) :: rest) =
  getopt_all prog "edi:o:p:"
    (String "-" (String m "") :: String "-" (String c cs) :: rest).
Proof.
  intros Hm Hdd.
  assert (Hnext :
    getopt_all prog "edi:o:p:" (String "-" (String c cs) :: rest) =
    (fix cluster (s : string) : list getopt_result :=
       match s with
       | EmptyString => getopt_all prog "edi:o:p:" rest
       | String c cs =>
           match option_kind "edi:o:p:" c with
           | None =>
               GetoptUnknown
                 (prog +:+ ": invalid option -- '" +:+ String c "'")
               :: cluster cs
           | Some false => GetoptOption c None :: cluster cs
           | Some true =>
               match cs with
               | String _ _ =>
                   GetoptOption c (Some cs)
                   :: getopt_all prog "edi:o:p:" rest
               | EmptyString =>
                   match rest with
                   | b :: rest' =>
                       GetoptOption c (Some b)
                       :: getopt_all prog "edi:o:p:" rest'
                   | [] =>
                       [GetoptUnknown
                          (prog +:+ ": option requires an argument -- '"
                           +:+ String c "'")]
                   end
               end
           end
       end) (String c cs)).
  { cbn [getopt_all]. rewrite bool_decide_eq_true_2 by done.
    by rewrite bool_decide_eq_false_2 by congruence. }
  apply elem_of_cons in Hm as [->|Hm].
  { transitivity (GetoptOption "e" None
                  :: getopt_all prog "edi:o:p:"
                       (String "-" (String c cs) :: rest));
      [|symmetry; apply (getopt_all_words prog (Mode true))].
    rewrite Hnext. reflexivity. }
  apply elem_of_cons in Hm as [->|Hm].
  { transitivity (GetoptOption "d" None
                  :: getopt_all prog "edi:o:p:"
                       (String "-" (String c cs) :: rest));
      [|symmetry; apply (getopt_all_words prog (Mode false))].
    rewrite Hnext. reflexivity. }
  by apply elem_of_nil in Hm.
Qed.

Section CommandLineFacts.
Context `{!Sha256, !DesEde3}.

(** [main] on options followed by anything: the loop goes on from the
    variables the options have set. *)
Lemma main_command_line_app (argv0 : string) (l : list argument)
    (rest : list string) (w : world) :
  main argv0 (command_line l ++ rest) w =
  (r ← main_loop argv0 (getopt_all argv0 "edi:o:p:" rest)
         (foldl set_option
            {| opt_encrypt := -1;
               opt_input_file := None;
               opt_output_file := None;
               opt_password := None |} l);
   match r with
   | inr code => mret code
   | inl o =>
       if (opt_encrypt o =? -1)%Z then
         print_usage argv0;; mret 1%Z
       else
         match opt_input_file o, opt_output_file o, opt_password o with
         | Some input_file, Some output_file, Some password =>
             (if (opt_encrypt o =? 1)%Z
              then encrypt_file input_file output_file
                     (String.list_byte_of_string password)
              else decrypt_file input_file output_file
                     (String.list_byte_of_string password));;
             mret 0%Z
         | _, _, _ => print_usage argv0;; mret 1%Z
         end
   end) w.
Proof.
  unfold main. by rewrite getopt_all_command_line, main_loop_options.
Qed.

(** [main] on options alone. *)
Lemma main_command_line (argv0 : string) (l : list argument) (w : world) :
  main argv0 (command_line l) w =
  match chosen_mode l, chosen_input l, chosen_output l, chosen_password l with
  | Some m, Some i, Some o, Some p => (operation m i o p;; mret 0%Z) w
  | _, _, _, _ => Returned 1%Z (printed w (usage_lines argv0))
  end.
Proof.
  rewrite <- (app_nil_r (command_line l)), main_command_line_app.
  cbn [getopt_all main_loop]. rewrite proc_bind_eq. cbv beta iota.
  change (mret (M := proc) ?x w) with (Returned x w). cbv beta iota.
  rewrite foldl_set_option.
  cbn [opt_encrypt opt_input_file opt_output_file opt_password].
  destruct (chosen_mode l) as [[]|], (chosen_input l) as [i|],
    (chosen_output l) as [o|], (chosen_password l) as [p|];
    cbn [Z.eqb Pos.eqb]; try done;
    by rewrite proc_bind_eq, print_usage_printed.
Qed.

End CommandLineFacts.

(** ** The loop of [main] on any results of [getopt] *)

(** The variables after the loop hold the last value given for each. *)
Lemma main_loop_known (prog : string) (results : list getopt_result)
    (o : options) (w : world) :
  forallb known results = true →
  main_loop prog results o w =
  Returned
    (inl {| opt_encrypt :=
              match last_mode results with
              | Some m => if m then 1%Z else 0%Z
              | None => opt_encrypt o
              end;
            opt_input_file :=
              default (opt_input_file o) (last_argument "i" results);
            opt_output_file :=
              default (opt_output_file o) (last_argument "o" results);
            opt_password :=
              default (opt_password o) (last_argument "p" results) |}) w.
Proof.
  revert o. induction results as [|[c optarg|complaint] results IH];
    intros o Hknown; [by destruct o| |done].
  cbn [forallb known] in Hknown. apply andb_prop in Hknown as [Hc Hknown].
  apply bool_decide_eq_true in Hc.
  unfold last_mode, last_argument. cbn [main_loop omap list_omap].
  unfold main_switch.
  repeat (apply elem_of_cons in Hc as [->|Hc]);
    [..|by apply elem_of_nil in Hc];
    repeat (case_bool_decide; try done); rewrite IH by done;
    unfold last_mode, last_argument;
    cbn [opt_encrypt opt_input_file opt_output_file opt_password];
    rewrite ?last_cons; do 2 f_equal; by repeat case_match.
Qed.

(** A result the [switch] has no case for ends the loop. *)
Lemma main_loop_not_known (prog : string) (results : list getopt_result)
    (o : options) (w : world) :
  forallb known results = false →
  ∃ complaint,
    length complaint ≤ 1 ∧
    main_loop prog results o w =
    Returned (inr 1%Z) (printed w (complaint ++ usage_lines prog)).
Proof.
  revert o. induction results as [|[c optarg|complaint] results IH];
    intros o Hknown; [done| |].
  - cbn [forallb known] in Hknown. cbn [main_loop].
    destruct (main_switch c optarg o) as [o'|] eqn:Hsw.
    + apply IH. apply andb_false_iff in Hknown as [Hc|]; [|done].
      apply bool_decide_eq_false in Hc. unfold main_switch in Hsw.
      repeat case_bool_decide; try done; subst; destruct Hc;
        by apply (bool_decide_unpack _).
    + exists []. split; [cbn; lia|].
      by rewrite proc_bind_eq, print_usage_printed.
  - exists [complaint]. split; [done|]. apply main_loop_unknown.
Qed.

(** ** What the two functions do, case by case *)

Lemma files_opened_ne (f g : FILE) (w : world) :
  g ≠ f → w_files (opened f w) !! g = w_files w !! g.
Proof.
  intros Hne. unfold opened. destruct (decide _); [done|].
  cbn. by rewrite lookup_insert_ne.
Qed.

Lemma files_written_ne (data : bytes) (f g : FILE) (w : world) :
  g ≠ f → w_files (written data f w) !! g = w_files w !! g.
Proof. intros Hne. unfold written. cbn. by rewrite lookup_insert_ne. Qed.

(** However [fwrite] ends, it has written to its own file only, and
    printed nothing. *)
Lemma files_fwrite_ne (data : bytes) (f g : FILE) (w : world) :
  g ≠ f → w_files (world_of (fwrite data f w)) !! g = w_files w !! g.
Proof.
  intros Hne. unfold fwrite.
  destruct (w_signal w !! f) as [[limit sig]|]; [destruct (_ && _)|];
    cbn [world_of]; by rewrite files_written_ne.
Qed.

(** [fwrite] returns or is ended by the signal of its file; it never
    calls [exit]. *)
Lemma fwrite_ends (data : bytes) (f : FILE) (w : world) :
  match fwrite data f w with
  | Returned _ w' => w' = written data f w
  | Exited _ _ => False
  | Killed sig w' =>
      ∃ limit,
        w_signal w !! f = Some (limit, sig) ∧
        w' = written
               (take (limit - length (default [] (w_files w !! f))) data)
               f w
  end.
Proof.
  unfold fwrite.
  destruct (w_signal w !! f) as [[limit sig]|]; [destruct (_ && _)|];
    try done.
  by exists limit.
Qed.

Lemma stderr_fwrite (data : bytes) (f : FILE) (w : world) :
  w_stderr (world_of (fwrite data f w)) = w_stderr w.
Proof.
  unfold fwrite.
  destruct (w_signal w !! f) as [[limit sig]|]; [destruct (_ && _)|]; done.
Qed.

Lemma opened_overwrites (f : FILE) (old : bytes) (w : world) :
  opened f (set_files w (<[f := old]> (w_files w))) =
  if decide (f ∈ w_locked w) then set_files w (<[f := old]> (w_files w))
  else set_files w (<[f := []]> (w_files w)).
Proof.
  unfold opened. cbn [w_locked set_files w_files].
  destruct (decide _); [done|].
  unfold set_files. cbn. by rewrite insert_insert_eq.
Qed.

Lemma readable_opened_same (f : FILE) (w : world) :
  f ∉ w_locked w → readable (opened f w) f = [].
Proof.
  intros Hl. unfold opened. rewrite decide_False by done.
  unfold readable. cbn. rewrite lookup_insert_eq. cbn.
  destruct (w_fault w !! f); by rewrite ?take_nil.
Qed.

Lemma files_opened (f : FILE) (w : world) :
  f ∉ w_locked w → w_files (opened f w) !! f = Some [].
Proof.
  intros Hl. unfold opened. rewrite decide_False by done.
  cbn. by rewrite lookup_insert_eq.
Qed.

Lemma signal_opened (f g : FILE) (w : world) :
  w_signal (opened f w) !! g = w_signal w !! g.
Proof. unfold opened. by destruct (decide _). Qed.

Lemma raises_opened (f g : FILE) (n : nat) (w : world) :
  raises (opened g w) f n = raises w f n.
Proof. unfold opened. by destruct (decide _). Qed.

(** Writing to the file just opened, whatever its medium. *)
Lemma fwrite_just_opened (data : bytes) (out : FILE) (w : world) :
  out ∉ w_locked w →
  fwrite data out (opened out w) =
  match raises w out (length data) with
  | Some (limit, sig) =>
      Killed sig (written (take limit data) out (opened out w))
  | None => Returned tt (written data out (opened out w))
  end.
Proof.
  intros Hl. rewrite fwrite_empty by by apply files_opened.
  by rewrite raises_opened.
Qed.

Lemma opened_set_stack (f : FILE) (stack : nat → byte) (w : world) :
  opened f (set_stack w stack) = set_stack (opened f w) stack.
Proof. unfold opened. cbn. by destruct (decide _). Qed.

Lemma fwrite_set_stack (data : bytes) (f : FILE) (stack : nat → byte)
    (w : world) :
  fwrite data f (set_stack w stack) =
  match fwrite data f w with
  | Returned a w' => Returned a (set_stack w' stack)
  | Exited status w' => Exited status (set_stack w' stack)
  | Killed sig w' => Killed sig (set_stack w' stack)
  end.
Proof.
  unfold fwrite. cbn [set_stack w_signal w_files w_room].
  destruct (w_signal w !! f) as [[limit sig]|]; [destruct (_ && _)|]; done.
Qed.

Section Outcomes.
Context `{!Sha256, !DesEde3}.

Lemma encrypt_file_sized_outcome (n : nat) (input_file output_file : string)
    (password : bytes) (w : world) :
  0 < n →
  encrypt_file_sized n input_file output_file password w =
  let inp := w_file w input_file in
  let out := w_file w output_file in
  let w1 := opened out w in
  if decide (is_Some (w_files w !! inp) ∧ out ∉ w_locked w)
  then fwrite (ciphertext password (readable w1 inp)) out w1
  else Exited 1 (add_stderr w1 "Unable to open input or output file").
Proof.
  intros Hn. cbv zeta. destruct (decide _) as [[Hin Hl]|Hno].
  - by rewrite encrypt_file_sized_result.
  - apply encrypt_file_sized_unopened.
    destruct (w_files w !! w_file w input_file) eqn:E; [|by left].
    right. destruct (decide (w_file w output_file ∈ w_locked w)); [done|].
    destruct Hno. split; [by eexists|done].
Qed.

Lemma decrypt_file_sized_outcome (n : nat) (input_file output_file : string)
    (password : bytes) (w : world) :
  0 < n →
  decrypt_file_sized n input_file output_file password w =
  let inp := w_file w input_file in
  let out := w_file w output_file in
  let w1 := opened out w in
  let o := decrypt_outcome password (readable w1 inp) in
  if decide (is_Some (w_files w !! inp) ∧ out ∉ w_locked w)
  then if o.1 then fwrite o.2 out w1
       else (fwrite o.2 out;; eprintln "Error occurred";; exit 1) w1
  else Exited 1 (add_stderr w1 "Unable to open input or output file").
Proof.
  intros Hn. cbv zeta. destruct (decide _) as [[Hin Hl]|Hno].
  - by rewrite decrypt_file_sized_result.
  - apply decrypt_file_sized_unopened.
    destruct (w_files w !! w_file w input_file) eqn:E; [|by left].
    right. destruct (decide (w_file w output_file ∈ w_locked w)); [done|].
    destruct Hno. split; [by eexists|done].
Qed.

(** How either function can end: a call that returns has printed
    nothing, a call that ends the process has printed one line and uses
    exit status 1, and a signal is one the output file raises. *)
Lemma operation_ends (encrypt : bool)
    (input_file output_file password : string) (w : world) :
  match operation encrypt input_file output_file password w with
  | Returned _ w' => w_stderr w' = w_stderr w
  | Exited status w' =>
      status = 1%Z ∧
      (w_stderr w' = w_stderr w ++ ["Unable to open input or output file"] ∨
       w_stderr w' = w_stderr w ++ ["Error occurred"])
  | Killed sig w' =>
      ∃ limit, w_signal w !! w_file w output_file = Some (limit, sig)
  end.
Proof.
  assert (Hwrite : ∀ data,
    match fwrite data (w_file w output_file)
            (opened (w_file w output_file) w) with
    | Returned _ w' => w_stderr w' = w_stderr w
    | Exited _ _ => False
    | Killed sig w' =>
        ∃ limit, w_signal w !! w_file w output_file = Some (limit, sig)
    end).
  { intros data.
    pose proof (fwrite_ends data (w_file w output_file)
                  (opened (w_file w output_file) w)) as Hends.
    pose proof (stderr_fwrite data (w_file w output_file)
                  (opened (w_file w output_file) w)) as Hse.
    rewrite stderr_opened in Hse.
    destruct (fwrite _ _ _) as [[] ?|?|?]; [done..|].
    destruct Hends as (limit & Hs & _). exists limit.
    by rewrite signal_opened in Hs. }
  unfold operation, encrypt_file, decrypt_file.
  destruct encrypt.
  - rewrite encrypt_file_sized_outcome by apply BUF_SIZE_pos. cbv zeta.
    destruct (decide _).
    + specialize (Hwrite (ciphertext (String.list_byte_of_string password)
        (readable (opened (w_file w output_file) w) (w_file w input_file)))).
      by destruct (fwrite _ _ _).
    + split; [done|]. left. by rewrite stderr_add_stderr, stderr_opened.
  - rewrite decrypt_file_sized_outcome by apply BUF_SIZE_pos. cbv zeta.
    set (o := decrypt_outcome _ _).
    destruct (decide _); [destruct o.1|].
    + specialize (Hwrite o.2). by destruct (fwrite _ _ _).
    + rewrite proc_bind_eq. specialize (Hwrite o.2).
      destruct (fwrite _ _ _) as [[] ?|?|?]; cbn in Hwrite |- *; [|done..].
      split; [done|]. right. rewrite stderr_add_stderr. by f_equal.
    + split; [done|]. left. by rewrite stderr_add_stderr, stderr_opened.
Qed.

Lemma ciphertext_prefix (password x y : bytes) :
  length x mod 8 = 0 →
  take (length x) (ciphertext password (x ++ y)) =
  (Cbc.encrypt (length x / 8) EVP_des_ede3_cbc
     (key_of password) (iv_of password) x).1.
Proof.
  intros Hal. unfold ciphertext.
  pose proof (Nat.div_mod_eq (length x) 8) as Hx.
  set (n := length x / 8) in *.
  assert (Hlen : length x = n * 8) by lia.
  assert (Hn : n ≤ length (x ++ y) / 8).
  { apply Nat.div_le_lower_bound; [lia|]. rewrite length_app. lia. }
  replace (length (x ++ y) / 8 + 1) with (n + (length (x ++ y) / 8 + 1 - n))
    by lia.
  assert (Hpad : n * 8 ≤ length (pkcs7_pad 8 (x ++ y))).
  { unfold pkcs7_pad. rewrite !length_app. lia. }
  rewrite (cbc_encrypt_split EVP_des_ede3_cbc) by done.
  cbv zeta. cbn [fst].
  rewrite <- (cbc_encrypt_take EVP_des_ede3_cbc n _ _ (pkcs7_pad 8 (x ++ y))).
  cbn [cipher_block_size EVP_des_ede3_cbc].
  unfold pkcs7_pad at 1. rewrite <- app_assoc.
  rewrite (take_app_length' x) by done.
  assert (Hout : length (Cbc.encrypt n EVP_des_ede3_cbc (key_of password)
                           (iv_of password) x).1 = n * 8).
  { apply (cbc_encrypt_length EVP_des_ede3_cbc des_ede3_encrypt_block_length).
    - apply length_iv_of.
    - cbn [cipher_block_size EVP_des_ede3_cbc]. lia. }
  rewrite Hlen. by rewrite take_app_length'.
Qed.

(** A ciphertext that [decrypt_file] accepts is made of whole blocks, at
    least one, and gives back between one and eight bytes fewer. *)
Lemma decrypt_outcome_accepts (password data : bytes) :
  (decrypt_outcome password data).1 = true →
  0 < length data ∧ length data mod 8 = 0 ∧
  length data - 8 ≤ length (decrypt_outcome password data).2 < length data.
Proof.
  unfold decrypt_outcome.
  destruct (length data =? 0) eqn:E0; [done|].
  destruct (length data mod 8 =? 0) eqn:E8; [|done].
  apply Nat.eqb_neq in E0. apply Nat.eqb_eq in E8. cbn [orb negb].
  pose proof (length_plain_blocks password data) as Hp.
  pose proof (Nat.div_mod_eq (length data) 8) as Hd.
  set (p := plain_blocks password data) in *.
  destruct (pkcs7_valid 8 (drop (length p - 8) p)) eqn:Hv; [|done].
  intros _. cbn [snd].
  unfold pkcs7_valid in Hv. apply andb_prop in Hv as [Hv _].
  apply andb_prop in Hv as [Hlo%Nat.leb_le Hhi%Nat.leb_le].
  rewrite length_take. lia.
Qed.

End Outcomes.

(** ** Failures of the library calls *)

Section FailureFacts.
Context `{!Sha256, !DesEde3, !Lib.Evp}.

Lemma encrypt_loop_failures (ps : list bytes) (ctx : EVP_CIPHER_CTX)
    (out : FILE) (w : world) :
  w_signal w !! out = None →
  match first_failing_update Lib.EVP_EncryptUpdate ps ctx with
  | Some ctx' =>
      ∃ w', encrypt_loop ps ctx out w = Returned ctx' w' ∧
            w_stderr w' = w_stderr w ∧ w_signal w' !! out = None
  | None =>
      ∃ w', encrypt_loop ps ctx out w = Exited 1 w' ∧
            w_stderr w' = w_stderr w ++ ["Error occurred"]
  end.
Proof.
  revert ctx w. induction ps as [|p ps IH]; intros ctx w Hs.
  - by exists w.
  - cbn [first_failing_update encrypt_loop].
    destruct (Lib.EVP_EncryptUpdate ctx p) as [[r outbuf] ctx'].
    cbn [fst snd]. destruct (r =? 1)%Z; cbn [negb].
    + rewrite proc_bind_eq, fwrite_quiet by done.
      specialize (IH ctx' (written outbuf out w)).
      rewrite signal_written, stderr_written in IH. by apply IH.
    + by eexists.
Qed.

Lemma decrypt_loop_failures (ps : list bytes) (ctx : EVP_CIPHER_CTX)
    (out : FILE) (w : world) :
  w_signal w !! out = None →
  match first_failing_update Lib.EVP_DecryptUpdate ps ctx with
  | Some ctx' =>
      ∃ w', decrypt_loop ps ctx out w = Returned ctx' w' ∧
            w_stderr w' = w_stderr w ∧ w_signal w' !! out = None
  | None =>
      ∃ w', decrypt_loop ps ctx out w = Exited 1 w' ∧
            w_stderr w' = w_stderr w ++ ["Error occurred"]
  end.
Proof.
  revert ctx w. induction ps as [|p ps IH]; intros ctx w Hs.
  - by exists w.
  - cbn [first_failing_update decrypt_loop].
    destruct (Lib.EVP_DecryptUpdate ctx p) as [[r outbuf] ctx'].
    cbn [fst snd]. destruct (r =? 1)%Z; cbn [negb].
    + rewrite proc_bind_eq, fwrite_quiet by done.
      specialize (IH ctx' (written outbuf out w)).
      rewrite signal_written, stderr_written in IH. by apply IH.
    + by eexists.
Qed.

Lemma fopen_both (input_file output_file : string) (w : world)
    {A} (k : option FILE → option FILE → proc A) :
  (in_ ← fopen input_file rb; out ← fopen output_file wb; k in_ out) w =
  k (match w_files w !! w_file w input_file with
     | Some _ => Some (w_file w input_file)
     | None => None
     end)
    (if decide (w_file w output_file ∈ w_locked w) then None
     else Some (w_file w output_file))
    (opened (w_file w output_file) w).
Proof.
  rewrite proc_bind_eq. unfold fopen at 1. cbv zeta.
  destruct (w_files w !! w_file w input_file);
    rewrite proc_bind_eq; unfold fopen, opened; cbv zeta;
    by destruct (decide _).
Qed.

End FailureFacts.

(** ** The sizes of what the cipher calls write *)

Lemma pieces_of_length (fuel n : nat) (data : bytes) :
  Forall (λ p, length p ≤ n) (pieces_of fuel n data).
Proof.
  revert data. induction fuel as [|fuel IH]; intros data; [constructor|].
  destruct data as [|x data]; [constructor|].
  cbn [pieces_of]. constructor; [|apply IH].
  rewrite length_take. lia.
Qed.

Lemma pieces_length (n : nat) (data : bytes) :
  Forall (λ p, length p ≤ n) (pieces n data).
Proof.
  unfold pieces. destruct (n =? 0); [constructor|apply pieces_of_length].
Qed.

Section Sizes.
Context `{!Sha256, !DesEde3}.

(** The IV stays a block long through the encrypting updates. *)
Lemma EVP_EncryptUpdate_iv (ctx : EVP_CIPHER_CTX) (inp : bytes) :
  ctx_cipher ctx = Some EVP_des_ede3_cbc → ctx_encrypt ctx = true →
  length (ctx_iv ctx) = 8 →
  length (ctx_iv (EVP_EncryptUpdate ctx inp).2) = 8 ∧
  length (EVP_EncryptUpdate ctx inp).1.2 ≤ length (ctx_buf ctx) + length inp.
Proof.
  intros Hc He Hiv.
  rewrite (EVP_EncryptUpdate_eq EVP_des_ede3_cbc) by done. cbv zeta.
  cbn [fst snd ctx_advance ctx_iv].
  destruct (cbc_encrypt_length EVP_des_ede3_cbc des_ede3_encrypt_block_length
              (length (ctx_buf ctx ++ inp) / 8)
              (ctx_key ctx) (ctx_iv ctx) (ctx_buf ctx ++ inp))
    as [Hout Hiv']; [done|apply div_mul_le|].
  cbn [cipher_block_size EVP_des_ede3_cbc] in *.
  split; [done|]. rewrite Hout, <- length_app. apply div_mul_le.
Qed.

Lemma EVP_EncryptFinal_ex_length (ctx : EVP_CIPHER_CTX) :
  enc_ready EVP_des_ede3_cbc ctx → length (ctx_iv ctx) = 8 →
  length (EVP_EncryptFinal_ex ctx).1.2 = 8.
Proof.
  intros (Hc & He & Hb) Hiv. rewrite EVP_EncryptFinal_ex_eq by done.
  cbv zeta. cbn [fst snd]. cbn [cipher_block_size EVP_des_ede3_cbc] in Hb.
  destruct (cbc_encrypt_length EVP_des_ede3_cbc des_ede3_encrypt_block_length
              1 (ctx_key ctx) (ctx_iv ctx)
              (ctx_buf ctx ++ replicate (8 - length (ctx_buf ctx))
                                (Bytes.of_nat (8 - length (ctx_buf ctx)))))
    as [Hout _]; [done| |done].
  cbn [cipher_block_size EVP_des_ede3_cbc].
  rewrite length_app, length_replicate. lia.
Qed.

Lemma EVP_DecryptUpdate_held (ctx : EVP_CIPHER_CTX) (inp : bytes) :
  dec_held ctx →
  dec_held (EVP_DecryptUpdate ctx inp).2 ∧
  length (EVP_DecryptUpdate ctx inp).1.2 ≤ length inp + 8.
Proof.
  intros [Hready Hheld]. pose proof Hready as (Hc & He & Hb & Hiv).
  cbn [cipher_block_size EVP_des_ede3_cbc] in Hb, Hiv.
  split; [split|].
  - by apply (EVP_DecryptUpdate_ready _ des_ede3_block_size_gt_1
                des_ede3_decrypt_block_length).
  - destruct (decide (inp = [])) as [->|Hi].
    { by rewrite (EVP_DecryptUpdate_nil EVP_des_ede3_cbc). }
    rewrite (EVP_DecryptUpdate_eq _ des_ede3_block_size_gt_1) by done.
    cbv zeta. cbn [cipher_block_size EVP_des_ede3_cbc].
    set (data := ctx_buf ctx ++ inp).
    destruct (cbc_decrypt_length EVP_des_ede3_cbc
                des_ede3_decrypt_block_length (length data / 8)
                (ctx_key ctx) (ctx_iv ctx) data)
      as [Hout _]; [done|apply div_mul_le|].
    cbn [cipher_block_size EVP_des_ede3_cbc] in Hout.
    destruct (length (drop (length data / 8 * 8) data) =? 0) eqn:E;
      cbn [snd ctx_advance ctx_final ctx_buf]; [|done].
    apply Nat.eqb_eq in E. split; [|by apply length_zero_iff_nil].
    rewrite length_drop, Hout.
    rewrite length_drop_blocks in E.
    assert (0 < length data).
    { unfold data. rewrite length_app. destruct inp; [done|cbn; lia]. }
    pose proof (Nat.div_mod_eq (length data) 8). lia.
  - destruct (decide (inp = [])) as [->|Hi].
    { rewrite (EVP_DecryptUpdate_nil EVP_des_ede3_cbc) by done. cbn. lia. }
    rewrite (EVP_DecryptUpdate_eq _ des_ede3_block_size_gt_1) by done.
    cbv zeta. cbn [cipher_block_size EVP_des_ede3_cbc].
    set (data := ctx_buf ctx ++ inp).
    destruct (cbc_decrypt_length EVP_des_ede3_cbc
                des_ede3_decrypt_block_length (length data / 8)
                (ctx_key ctx) (ctx_iv ctx) data)
      as [Hout _]; [done|apply div_mul_le|].
    cbn [cipher_block_size EVP_des_ede3_cbc] in Hout.
    pose proof (div_mul_le (length data) 8) as Hle.
    assert (Hdata : length data = length (ctx_buf ctx) + length inp)
      by apply length_app.
    assert (Hh : length (default [] (ctx_final ctx)) + length data
                 ≤ length inp + 8).
    { destruct (ctx_final ctx) as [final|]; cbn.
      - destruct Hheld as [Hf Hbuf]. rewrite Hbuf in Hdata. cbn in Hdata. lia.
      - lia. }
    destruct (length (drop _ data) =? 0); cbn [fst snd];
      rewrite length_app, ?length_take; lia.
Qed.

Lemma EVP_DecryptFinal_ex_length (ctx : EVP_CIPHER_CTX) :
  ctx_cipher ctx = Some EVP_des_ede3_cbc →
  length (EVP_DecryptFinal_ex ctx).1.2 ≤ 8.
Proof.
  intros Hc. unfold EVP_DecryptFinal_ex. rewrite Hc.
  cbn [cipher_block_size EVP_des_ede3_cbc].
  repeat case_match; cbn [fst snd length]; try lia.
  rewrite length_take. lia.
Qed.

End Sizes.

(** ** The options chosen *)

Lemma chosen_complete (l1 l2 : list argument) (m : bool) (i o p : string) :
  l2 ≡ₚ [Mode m; Input i; Output o; Password p] →
  chosen_mode (l1 ++ l2) = Some m ∧ chosen_input (l1 ++ l2) = Some i ∧
  chosen_output (l1 ++ l2) = Some o ∧ chosen_password (l1 ++ l2) = Some p.
Proof.
  intros Hl2.
  unfold chosen_mode, chosen_input, chosen_output, chosen_password.
  rewrite !omap_app, !last_app.
  split_and!;
    match goal with
    | |- context [omap ?f l2] =>
        assert (Hone : omap f l2 ≡ₚ omap f [Mode m; Input i; Output o;
                                              Password p])
          by (by rewrite Hl2);
        cbn in Hone; apply Permutation_singleton_r in Hone; by rewrite Hone
    end.
Qed.

Lemma chosen_none {A} (f : argument → option A) (l : list argument) :
  (∀ a, a ∈ l → f a = None) → last (omap f l) = None.
Proof.
  intros Hno. apply last_None.
  induction l as [|a l IH]; [done|].
  cbn. rewrite Hno by left. apply IH. intros b Hb. apply Hno. by right.
Qed.

(** ** A small instance of the two interfaces

    A 32-byte digest and an invertible 8-byte block function, simple
    enough to run the program on concrete files. *)

Module Sample.

Definition digest (m : bytes) : bytes :=
  (λ i, Bytes.xor (Bytes.of_nat (length m + 7 * i)) (foldr Bytes.xor Bytes.NUL m))
    <$> seq 0 32.

Definition key_block (k : bytes) : bytes :=
  take 8 (k ++ replicate 8 Bytes.NUL).

Definition encrypt_block (k x : bytes) : bytes :=
  rev (Bytes.xors x (key_block k)).

Definition decrypt_block (k y : bytes) : bytes :=
  Bytes.xors (rev y) (key_block k).

Lemma digest_length (m : bytes) : length (digest m) = 32.
Proof. unfold digest. by rewrite length_fmap, length_seq. Qed.

Lemma key_block_length (k : bytes) : length (key_block k) = 8.
Proof.
  unfold key_block. rewrite length_take, length_app, length_replicate. lia.
Qed.

Lemma encrypt_block_length (k x : bytes) :
  length x = 8 → length (encrypt_block k x) = 8.
Proof.
  intros Hx. unfold encrypt_block.
  rewrite length_rev, length_xors; rewrite ?key_block_length; done.
Qed.

Lemma decrypt_block_length (k y : bytes) :
  length y = 8 → length (decrypt_block k y) = 8.
Proof.
  intros Hy. unfold decrypt_block.
  rewrite length_xors; rewrite length_rev, ?key_block_length; done.
Qed.

Lemma decrypt_encrypt_block (k x : bytes) :
  length k = 24 → length x = 8 → decrypt_block k (encrypt_block k x) = x.
Proof.
  intros _ Hx. unfold decrypt_block, encrypt_block.
  rewrite rev_involutive. apply xors_involutive.
  by rewrite key_block_length.
Qed.

Definition md : Sha256 :=
  {| sha256 := digest; sha256_length := digest_length |}.

Definition cipher : DesEde3 :=
  {| des_ede3_encrypt := encrypt_block;
     des_ede3_decrypt := decrypt_block;
     des_ede3_encrypt_length := encrypt_block_length;
     des_ede3_decrypt_length := decrypt_block_length;
     des_ede3_decrypt_encrypt := decrypt_encrypt_block |}.

(** The password "hunter2" and the input "hello world". *)
Definition hunter2 : bytes := [x68; x75; x6e; x74; x65; x72; x32].
Definition hello_world : bytes :=
  [x68; x65; x6c; x6c; x6f; x20; x77; x6f; x72; x6c; x64].

(** Sixteen bytes that are no ciphertext of anything under "hunter2". *)
Definition garbled : bytes :=
  [x00; x01; x02; x03; x04; x05; x06; x07;
   x08; x09; x0a; x0b; x0c; x0d; x0e; x0f].

(** The paths of the sample disks and the files they name: "./plain" is
    another name of the file "plain"; a path not listed names file 0. *)
Definition names : list (string * FILE) :=
  [("plain", 1); ("./plain", 1); ("empty", 2); ("garbled", 3);
   ("cipher", 4); ("out", 5); ("copy", 6); ("full", 7); ("pipe", 8)].

Definition file_of (path : string) : FILE :=
  default 0 ((list_to_map names : gmap string FILE) !! path).

(** A disk with a few files on it, and nothing that fails. *)
Definition disk : world :=
  {| w_file := file_of;
     w_files := {[ file_of "plain" := hello_world;
                   file_of "empty" := [];
                   file_of "garbled" := garbled ]};
     w_locked := ∅;
     w_room := ∅;
     w_signal := ∅;
     w_fault := ∅;
     w_stderr := [];
     w_stack := λ _, xaa |}.

(** The same disk with a device that accepts no byte, like [/dev/full]. *)
Definition disk_full : world :=
  {| w_file := file_of;
     w_files := {[ file_of "plain" := hello_world ]};
     w_locked := ∅;
     w_room := {[ file_of "full" := 0 ]};
     w_signal := ∅;
     w_fault := ∅;
     w_stderr := [];
     w_stack := λ _, xaa |}.

(** The same disk with a pipe nobody reads. *)
Definition disk_pipe : world :=
  {| w_file := file_of;
     w_files := {[ file_of "plain" := hello_world ]};
     w_locked := ∅;
     w_room := ∅;
     w_signal := {[ file_of "pipe" := (0, SIGPIPE) ]};
     w_fault := ∅;
     w_stderr := [];
     w_stack := λ _, xaa |}.

(** The same disk with a medium that fails after five bytes of "plain". *)
Definition disk_faulty : world :=
  {| w_file := file_of;
     w_files := {[ file_of "plain" := hello_world ]};
     w_locked := ∅;
     w_room := ∅;
     w_signal := ∅;
     w_fault := {[ file_of "plain" := 5 ]};
     w_stderr := [];
     w_stack := λ _, xaa |}.

(** "hello world" encrypted under "hunter2", and a disk that holds it. *)
Definition sealed : bytes :=
  Eval vm_compute in @ciphertext md cipher hunter2 hello_world.

Definition disk_sealed : world :=
  {| w_file := file_of;
     w_files := {[ file_of "cipher" := sealed ]};
     w_locked := ∅;
     w_room := ∅;
     w_signal := ∅;
     w_fault := ∅;
     w_stderr := [];
     w_stack := λ _, xaa |}.

(** A library that cannot set the cipher up, as when no loaded provider
    offers DES-EDE3: the init calls report failure. *)
Definition without_des : Lib.Evp :=
  {| Lib.EVP_BytesToKey := EVP_BytesToKey;
     Lib.EVP_CIPHER_CTX_new := EVP_CIPHER_CTX_new;
     Lib.EVP_EncryptInit_ex := λ ctx _ _ _, (0%Z, ctx);
     Lib.EVP_EncryptUpdate := EVP_EncryptUpdate;
     Lib.EVP_EncryptFinal_ex := EVP_EncryptFinal_ex;
     Lib.EVP_DecryptInit_ex := λ ctx _ _ _, (0%Z, ctx);
     Lib.EVP_DecryptUpdate := EVP_DecryptUpdate;
     Lib.EVP_DecryptFinal_ex := EVP_DecryptFinal_ex |}.

End Sample.

(** ** The properties of the program *)

Section Properties.
Context `{!Sha256, !DesEde3}.

(** C1. Round trip: on media that neither fail nor fill up nor raise a
    signal, [encrypt_file] followed by [decrypt_file] under the same
    password returns normally both times and leaves in the last output
    file exactly the bytes of the first input file. The three paths
    name files of which the second is neither the first nor the
    third. *)
Theorem decrypt_file_encrypt_file
    (input_file mid_file output_file : string) (password b : bytes)
    (w : world) :
  w_files w !! w_file w input_file = Some b →
  w_file w input_file ≠ w_file w mid_file →
  w_file w mid_file ≠ w_file w output_file →
  w_file w mid_file ∉ w_locked w → w_file w output_file ∉ w_locked w →
  w_fault w !! w_file w input_file = None →
  w_fault w !! w_file w mid_file = None →
  w_room w !! w_file w mid_file = None →
  w_room w !! w_file w output_file = None →
  w_signal w !! w_file w mid_file = None →
  w_signal w !! w_file w output_file = None →
  ∃ w1 w2,
    encrypt_file input_file mid_file password w = Returned tt w1 ∧
    decrypt_file mid_file output_file password w1 = Returned tt w2 ∧
    w_files w2 !! w_file w output_file = Some b.
Proof.
  intros Hin Hne1 Hne2 Hl1 Hl2 Hf1 Hf2 Hr1 Hr2 Hs1 Hs2.
  eexists _, _. split_and!.
  - unfold encrypt_file.
    apply (encrypt_file_sized_good _ _ _ _ b); (done || apply BUF_SIZE_pos).
  - unfold decrypt_file.
    rewrite (decrypt_file_sized_good _ _ _ _ (ciphertext password b));
      try (done || apply BUF_SIZE_pos).
    + cbv zeta. by rewrite decrypt_outcome_ciphertext.
    + unfold set_files. cbn. by rewrite lookup_insert_eq.
  - unfold set_files. cbn. by rewrite lookup_insert_eq.
Qed.

(** C2. For a password [p], a string without NUL byte given with or
    without the bytes that follow its terminating NUL in memory,
    [generate_key_iv] returns 1 and leaves in the first 24 bytes of its
    64-byte key buffer and in the first 8 bytes of its 16-byte IV
    buffer the key and the IV of the reference derivation (one
    iteration, no salt, SHA-256: digest of previous digest ‖ password
    from an empty previous digest, until 32 bytes are there; the first
    24 are the key, the next 8 the IV). The rest of the two buffers is
    left as it was. *)
Theorem generate_key_iv_refines_spec
    (p rest key iv : bytes) (w : world) :
  Bytes.NUL ∉ p →
  length key = EVP_MAX_KEY_LENGTH → length iv = EVP_MAX_IV_LENGTH →
  ∃ key' iv',
    generate_key_iv p key iv w = Returned (1%Z, key', iv') w ∧
    generate_key_iv (p ++ Bytes.NUL :: rest) key iv w =
      Returned (1%Z, key', iv') w ∧
    take 24 key' = (Spec.derive p).1 ∧
    take 8 iv' = (Spec.derive p).2 ∧
    drop 24 key' = drop 24 key ∧
    drop 8 iv' = drop 8 iv.
Proof.
  intros Hp Hk Hv. unfold EVP_MAX_KEY_LENGTH in Hk.
  unfold EVP_MAX_IV_LENGTH in Hv.
  rewrite !generate_key_iv_returns, cstring_app_nul, cstring_no_nul by done.
  rewrite spec_derive_unfold. cbn [fst snd].
  pose proof (sha256_length p) as Hd.
  set (k := take 24 (sha256 p)). set (v := take 8 (drop 24 (sha256 p))).
  assert (Hlk : length k = 24) by (unfold k; rewrite length_take; lia).
  assert (Hlv : length v = 8)
    by (unfold v; rewrite length_take, length_drop; lia).
  assert (Hmk : memcpy key 0 k = k ++ drop 24 key).
  { unfold memcpy. rewrite <- (take_drop 24 key) at 1.
    rewrite list_inserts_0_r by (rewrite length_take; lia).
    done. }
  assert (Hmv : memcpy iv 0 v = v ++ drop 8 iv).
  { unfold memcpy. rewrite <- (take_drop 8 iv) at 1.
    rewrite list_inserts_0_r by (rewrite length_take; lia).
    done. }
  eexists _, _. split_and!; [done|done|..]; rewrite ?Hmk, ?Hmv.
  - rewrite <- Hlk at 1. apply take_app_length.
  - rewrite <- Hlv at 1. apply take_app_length.
  - rewrite <- Hlk at 1. apply drop_app_length.
  - rewrite <- Hlv at 1. apply drop_app_length.
Qed.

(** C3 (as amended). The output of [encrypt_file] is as long as the
    input rounded down to a multiple of 8, plus exactly one block of 8:
    the least multiple of 8 above the input length. The two paths name
    different files, on media that neither fail nor fill up nor raise a
    signal. *)
Theorem encrypt_file_output_length
    (input_file output_file : string) (password b : bytes) (w : world) :
  w_files w !! w_file w input_file = Some b →
  w_file w input_file ≠ w_file w output_file →
  w_file w output_file ∉ w_locked w →
  w_fault w !! w_file w input_file = None →
  w_room w !! w_file w output_file = None →
  w_signal w !! w_file w output_file = None →
  ∃ w' c,
    encrypt_file input_file output_file password w = Returned tt w' ∧
    w_files w' !! w_file w output_file = Some c ∧
    length c = length b / 8 * 8 + 8.
Proof.
  intros Hin Hne Hl Hf Hr Hs. eexists _, _. split_and!.
  - unfold encrypt_file.
    apply (encrypt_file_sized_good _ _ _ _ b); (done || apply BUF_SIZE_pos).
  - unfold set_files. cbn. by rewrite lookup_insert_eq.
  - rewrite length_ciphertext. lia.
Qed.

(** C4. Encrypting an empty input writes exactly one block, the
    encryption of a block of eight bytes of value 8 chained with the IV;
    encrypting an input whose length is a multiple of 8 writes 8 bytes
    more than it read. The two paths name different files, on media
    that neither fail nor fill up nor raise a signal. *)
Theorem encrypt_file_padding_block
    (input_file output_file : string) (password b : bytes) (w : world) :
  w_files w !! w_file w input_file = Some b →
  w_file w input_file ≠ w_file w output_file →
  w_file w output_file ∉ w_locked w →
  w_fault w !! w_file w input_file = None →
  w_room w !! w_file w output_file = None →
  w_signal w !! w_file w output_file = None →
  ∃ w' c,
    encrypt_file input_file output_file password w = Returned tt w' ∧
    w_files w' !! w_file w output_file = Some c ∧
    (b = [] →
     length c = 8 ∧
     c = des_ede3_encrypt (key_of password)
           (Bytes.xors (replicate 8 (Bytes.of_nat 8)) (iv_of password))) ∧
    (length b mod 8 = 0 → length c = length b + 8).
Proof.
  intros Hin Hne Hl Hf Hr Hs. eexists _, _. split_and!.
  - unfold encrypt_file.
    apply (encrypt_file_sized_good _ _ _ _ b); (done || apply BUF_SIZE_pos).
  - unfold set_files. cbn. by rewrite lookup_insert_eq.
  - intros ->. split; [by rewrite length_ciphertext|].
    unfold ciphertext, pkcs7_pad. cbn. by rewrite app_nil_r.
  - intros Hal. rewrite length_ciphertext.
    pose proof (Nat.div_mod_eq (length b) 8). lia.
Qed.


(** C6. Two calls of [generate_key_iv] on the same password, whatever
    the state of the process and whatever the buffers held before, both
    return, and the 24 key bytes and 8 IV bytes they leave are the
    same. *)
Theorem generate_key_iv_deterministic
    (password key1 iv1 key2 iv2 : bytes) (w1 w2 : world) :
  length key1 = EVP_MAX_KEY_LENGTH → length key2 = EVP_MAX_KEY_LENGTH →
  length iv1 = EVP_MAX_IV_LENGTH → length iv2 = EVP_MAX_IV_LENGTH →
  ∃ k1 v1 k2 v2,
    generate_key_iv password key1 iv1 w1 = Returned (1%Z, k1, v1) w1 ∧
    generate_key_iv password key2 iv2 w2 = Returned (1%Z, k2, v2) w2 ∧
    take 24 k1 = take 24 k2 ∧ take 8 v1 = take 8 v2.
Proof.
  intros Hk1 Hk2 Hv1 Hv2. eexists _, _, _, _. split_and!.
  - apply generate_key_iv_returns.
  - apply generate_key_iv_returns.
  - pose proof (length_key_of password) as Hk. unfold key_of in Hk.
    transitivity (take 24 (sha256 (cstring password))); [|symmetry];
      (rewrite <- Hk at 1; apply take_memcpy;
       rewrite Hk, ?Hk1, ?Hk2; unfold EVP_MAX_KEY_LENGTH; lia).
  - pose proof (length_iv_of password) as Hv. unfold iv_of in Hv.
    transitivity (take 8 (drop 24 (sha256 (cstring password)))); [|symmetry];
      (rewrite <- Hv at 1; apply take_memcpy;
       rewrite Hv, ?Hv1, ?Hv2; unfold EVP_MAX_IV_LENGTH; lia).
Qed.


(** C8. The output of encryption does not depend on how the input is
    cut into reads: two lists of pieces with the same bytes leave the
    same file and the same context behind the reading loop, and
    [encrypt_file] run with two read sizes does the same thing. *)
Theorem encrypt_chunking_irrelevant
    (ps1 ps2 : list bytes) (n1 n2 : nat) (input_file output_file : string)
    (out : FILE) (password : bytes) (w : world) :
  concat ps1 = concat ps2 → is_Some (w_files w !! out) →
  0 < n1 → 0 < n2 →
  encrypt_loop ps1 (started true password) out w =
  encrypt_loop ps2 (started true password) out w ∧
  encrypt_file_sized n1 input_file output_file password w =
  encrypt_file_sized n2 input_file output_file password w.
Proof.
  intros Hps Hout Hn1 Hn2. split.
  - rewrite !encrypt_loop_concat by (done || apply started_enc_ready).
    by rewrite Hps.
  - by rewrite !encrypt_file_sized_outcome by done.
Qed.


(** C10. The password is read up to its first NUL byte: two buffers
    that agree up to and including that byte give the same key and IV,
    the same as the bytes before it alone. *)
Theorem generate_key_iv_stops_at_nul
    (s rest1 rest2 key iv : bytes) (w : world) :
  Bytes.NUL ∉ s →
  generate_key_iv (s ++ Bytes.NUL :: rest1) key iv w =
  generate_key_iv (s ++ Bytes.NUL :: rest2) key iv w ∧
  generate_key_iv (s ++ Bytes.NUL :: rest1) key iv w =
  generate_key_iv s key iv w.
Proof.
  intros Hs. rewrite !generate_key_iv_returns.
  by rewrite !cstring_app_nul, cstring_no_nul.
Qed.

End Properties.

(** ** The properties at work on the sample instance *)

Ltac sample_side :=
  solve [ reflexivity | discriminate | apply not_elem_of_empty
        | vm_compute; lia | by vm_compute ].

Ltac sample_member :=
  solve [ apply (bool_decide_unpack _); by vm_compute ].

Lemma decrypt_file_encrypt_file_witness :
  ∃ w1 w2,
    @encrypt_file Sample.md Sample.cipher openssl "./plain" "cipher"
      Sample.hunter2 Sample.disk = Returned tt w1 ∧
    @decrypt_file Sample.md Sample.cipher openssl "cipher" "out"
      Sample.hunter2 w1 = Returned tt w2 ∧
    w_files w2 !! w_file Sample.disk "out" = Some Sample.hello_world.
Proof.
  apply (@decrypt_file_encrypt_file Sample.md Sample.cipher
           "./plain" "cipher" "out" Sample.hunter2 Sample.hello_world
           Sample.disk); sample_side.
Defined.

Lemma generate_key_iv_refines_spec_witness :
  ∃ key' iv',
    @generate_key_iv Sample.md Sample.cipher openssl Sample.hunter2
      (replicate 64 x00) (replicate 16 x00) Sample.disk =
      Returned (1%Z, key', iv') Sample.disk ∧
    @generate_key_iv Sample.md Sample.cipher openssl
      (Sample.hunter2 ++ Bytes.NUL :: [x41]) (replicate 64 x00)
      (replicate 16 x00) Sample.disk =
      Returned (1%Z, key', iv') Sample.disk ∧
    take 24 key' = (@Spec.derive Sample.md Sample.hunter2).1 ∧
    take 8 iv' = (@Spec.derive Sample.md Sample.hunter2).2 ∧
    drop 24 key' = drop 24 (replicate 64 x00) ∧
    drop 8 iv' = drop 8 (replicate 16 x00).
Proof.
  apply (@generate_key_iv_refines_spec Sample.md Sample.cipher
           Sample.hunter2 [x41] (replicate 64 x00) (replicate 16 x00)
           Sample.disk); (sample_side || sample_member).
Defined.

Lemma encrypt_file_output_length_witness :
  ∃ w' c,
    @encrypt_file Sample.md Sample.cipher openssl "plain" "cipher"
      Sample.hunter2 Sample.disk = Returned tt w' ∧
    w_files w' !! w_file Sample.disk "cipher" = Some c ∧
    length c = length Sample.hello_world / 8 * 8 + 8.
Proof.
  apply (@encrypt_file_output_length Sample.md Sample.cipher
           "plain" "cipher" Sample.hunter2 Sample.hello_world Sample.disk);
    sample_side.
Defined.

(** The claim as first stated, with the input length rounded up before
    the block is added, fails on the 11 bytes of "hello world" whatever
    the digest and the cipher: the output has 16 bytes, not 24. *)
Lemma encrypt_file_length_not_rounded_up :
  ¬ ∃ (md : Sha256) (c : DesEde3) (w' : world) (out : bytes),
      @encrypt_file md c openssl "plain" "cipher" Sample.hunter2
        Sample.disk = Returned tt w' ∧
      w_files w' !! w_file Sample.disk "cipher" = Some out ∧
      length out = round_up 8 (length Sample.hello_world) + 8.
Proof.
  intros (md & c & w' & out & Hrun & Hout & Hlen).
  unfold encrypt_file in Hrun.
  rewrite (@encrypt_file_sized_good md c _ _ _ _ Sample.hello_world) in Hrun
    by (apply BUF_SIZE_pos || sample_side).
  injection Hrun as <-.
  unfold set_files in Hout. cbn [w_files] in Hout.
  rewrite lookup_insert_eq in Hout. injection Hout as <-.
  rewrite length_ciphertext in Hlen. vm_compute in Hlen. lia.
Qed.

Lemma encrypt_file_padding_block_witness :
  ∃ w' c,
    @encrypt_file Sample.md Sample.cipher openssl "empty" "cipher"
      Sample.hunter2 Sample.disk = Returned tt w' ∧
    w_files w' !! w_file Sample.disk "cipher" = Some c ∧
    (@nil byte = [] →
     length c = 8 ∧
     c = @des_ede3_encrypt Sample.cipher
           (@key_of Sample.md Sample.hunter2)
           (Bytes.xors (replicate 8 (Bytes.of_nat 8))
                       (@iv_of Sample.md Sample.hunter2))) ∧
    (length (@nil byte) mod 8 = 0 → length c = length (@nil byte) + 8).
Proof.
  apply (@encrypt_file_padding_block Sample.md Sample.cipher
           "empty" "cipher" Sample.hunter2 [] Sample.disk); sample_side.
Defined.



Lemma generate_key_iv_deterministic_witness :
  ∃ k1 v1 k2 v2,
    @generate_key_iv Sample.md Sample.cipher openssl Sample.hunter2
      (replicate 64 x00) (replicate 16 x00) Sample.disk =
      Returned (1%Z, k1, v1) Sample.disk ∧
    @generate_key_iv Sample.md Sample.cipher openssl Sample.hunter2
      (replicate 64 xff) (replicate 16 xff) Sample.disk_full =
      Returned (1%Z, k2, v2) Sample.disk_full ∧
    take 24 k1 = take 24 k2 ∧ take 8 v1 = take 8 v2.
Proof.
  apply (@generate_key_iv_deterministic Sample.md Sample.cipher
           Sample.hunter2 (replicate 64 x00) (replicate 16 x00)
           (replicate 64 xff) (replicate 16 xff)
           Sample.disk Sample.disk_full); sample_side.
Defined.



Lemma encrypt_chunking_irrelevant_witness :
  encrypt_loop [Sample.hello_world]
    (@started Sample.md Sample.cipher true Sample.hunter2)
    (Sample.file_of "empty") Sample.disk =
  encrypt_loop [take 3 Sample.hello_world; drop 3 Sample.hello_world]
    (@started Sample.md Sample.cipher true Sample.hunter2)
    (Sample.file_of "empty") Sample.disk ∧
  @encrypt_file_sized Sample.md Sample.cipher openssl 1 "plain" "cipher"
    Sample.hunter2 Sample.disk =
  @encrypt_file_sized Sample.md Sample.cipher openssl 4 "plain" "cipher"
    Sample.hunter2 Sample.disk.
Proof.
  apply (@encrypt_chunking_irrelevant Sample.md Sample.cipher
           [Sample.hello_world]
           [take 3 Sample.hello_world; drop 3 Sample.hello_world]
           1 4 "plain" "cipher" (Sample.file_of "empty") Sample.hunter2
           Sample.disk);
    try sample_side.
  by eexists.
Defined.


Lemma generate_key_iv_stops_at_nul_witness :
  @generate_key_iv Sample.md Sample.cipher openssl
    (Sample.hunter2 ++ Bytes.NUL :: [x41]) (replicate 64 x00)
    (replicate 16 x00) Sample.disk =
  @generate_key_iv Sample.md Sample.cipher openssl
    (Sample.hunter2 ++ Bytes.NUL :: [x42; x43]) (replicate 64 x00)
    (replicate 16 x00) Sample.disk ∧
  @generate_key_iv Sample.md Sample.cipher openssl
    (Sample.hunter2 ++ Bytes.NUL :: [x41]) (replicate 64 x00)
    (replicate 16 x00) Sample.disk =
  @generate_key_iv Sample.md Sample.cipher openssl Sample.hunter2
    (replicate 64 x00) (replicate 16 x00) Sample.disk.
Proof.
  apply (@generate_key_iv_stops_at_nul Sample.md Sample.cipher
           Sample.hunter2 [x41] [x42; x43] (replicate 64 x00)
           (replicate 16 x00) Sample.disk).
  sample_member.
Defined.

(** ** Further properties of the two functions *)

Section FileProperties.
Context `{!Sha256, !DesEde3}.


(** X2. The output file is written from the start: what it held before
    the call has no influence on how either function ends nor on what
    the files hold afterwards. *)
Theorem output_file_overwritten
    (input_file output_file : string) (password old1 old2 : bytes)
    (w : world) :
  w_file w output_file ∉ w_locked w →
  encrypt_file input_file output_file password
    (set_files w (<[w_file w output_file := old1]> (w_files w))) =
  encrypt_file input_file output_file password
    (set_files w (<[w_file w output_file := old2]> (w_files w))) ∧
  decrypt_file input_file output_file password
    (set_files w (<[w_file w output_file := old1]> (w_files w))) =
  decrypt_file input_file output_file password
    (set_files w (<[w_file w output_file := old2]> (w_files w))).
Proof.
  intros Hl. unfold encrypt_file, decrypt_file.
  rewrite !encrypt_file_sized_outcome, !decrypt_file_sized_outcome
    by apply BUF_SIZE_pos.
  cbv zeta. cbn [w_file set_files]. rewrite !opened_overwrites.
  rewrite !(decide_False (P := w_file w output_file ∈ w_locked w)) by done.
  cbn [w_files w_locked set_files].
  assert (Hsame : ∀ old,
    is_Some (<[w_file w output_file := old]> (w_files w)
               !! w_file w input_file) ↔
    is_Some (<[w_file w output_file := old1]> (w_files w)
               !! w_file w input_file)).
  { intros old.
    destruct (decide (w_file w output_file = w_file w input_file))
      as [->|Hne].
    - rewrite !lookup_insert_eq. split; by eexists.
    - by rewrite !lookup_insert_ne. }
  split.
  - destruct (decide _) as [[Hin ?]|Hno];
      destruct (decide _) as [[Hin' ?]|Hno']; try done.
    + destruct Hno'. split; [by apply Hsame|done].
    + destruct Hno. split; [by apply Hsame in Hin'|done].
  - destruct (decide _) as [[Hin ?]|Hno];
      destruct (decide _) as [[Hin' ?]|Hno']; try done.
    + destruct Hno'. split; [by apply Hsame|done].
    + destruct Hno. split; [by apply Hsame in Hin'|done].
Qed.


(** X4. Whatever happens, no file other than the one the output path
    names is created, changed or removed by either function. *)
Theorem other_files_untouched
    (input_file output_file : string) (other : FILE) (password : bytes)
    (w : world) :
  other ≠ w_file w output_file →
  w_files (world_of (encrypt_file input_file output_file password w))
    !! other = w_files w !! other ∧
  w_files (world_of (decrypt_file input_file output_file password w))
    !! other = w_files w !! other.
Proof.
  intros Hne. unfold encrypt_file, decrypt_file.
  rewrite encrypt_file_sized_outcome, decrypt_file_sized_outcome
    by apply BUF_SIZE_pos.
  cbv zeta.
  assert (Hwrite : ∀ data,
    w_files (world_of (fwrite data (w_file w output_file)
                         (opened (w_file w output_file) w))) !! other =
    w_files w !! other).
  { intros data. by rewrite files_fwrite_ne, files_opened_ne. }
  destruct (decide _); [destruct (decrypt_outcome _ _).1|]; split;
    try apply Hwrite; try (cbn; by rewrite files_opened_ne).
  rewrite proc_bind_eq. specialize (Hwrite (decrypt_outcome password
    (readable (opened (w_file w output_file) w) (w_file w input_file))).2).
  by destruct (fwrite _ _ _).
Qed.

(** X5. Under one password, the first blocks of the output depend on
    the first blocks of the input only: for an input [x ++ y] where [x]
    is made of whole blocks, the output starts with the chained
    encryption of [x] from the IV of the password, whatever [y] is. Two
    files that begin alike encrypt to files that begin alike. The two
    paths name different files, on media that neither fail nor fill up
    nor raise a signal. *)
Theorem encrypt_file_common_prefix
    (input_file output_file : string) (password x y : bytes) (w : world) :
  w_files w !! w_file w input_file = Some (x ++ y) →
  w_file w input_file ≠ w_file w output_file →
  w_file w output_file ∉ w_locked w →
  w_fault w !! w_file w input_file = None →
  w_room w !! w_file w output_file = None →
  w_signal w !! w_file w output_file = None →
  length x mod 8 = 0 →
  ∃ w' c,
    encrypt_file input_file output_file password w = Returned tt w' ∧
    w_files w' !! w_file w output_file = Some c ∧
    take (length x) c =
    (Cbc.encrypt (length x / 8) EVP_des_ede3_cbc
       (key_of password) (iv_of password) x).1.
Proof.
  intros Hin Hne Hl Hf Hr Hs Hal. eexists _, _. split_and!.
  - unfold encrypt_file.
    apply (encrypt_file_sized_good _ _ _ _ (x ++ y));
      (done || apply BUF_SIZE_pos).
  - unfold set_files. cbn. by rewrite lookup_insert_eq.
  - by apply ciphertext_prefix.
Qed.

(** X6. The output of decryption does not depend on how the input is
    cut into reads either: two lists of pieces with the same bytes
    leave the same file and the same context behind the reading loop,
    and [decrypt_file] run with two read sizes does the same thing. *)
Theorem decrypt_chunking_irrelevant
    (ps1 ps2 : list bytes) (n1 n2 : nat) (input_file output_file : string)
    (out : FILE) (password : bytes) (w : world) :
  concat ps1 = concat ps2 → is_Some (w_files w !! out) →
  0 < n1 → 0 < n2 →
  decrypt_loop ps1 (started false password) out w =
  decrypt_loop ps2 (started false password) out w ∧
  decrypt_file_sized n1 input_file output_file password w =
  decrypt_file_sized n2 input_file output_file password w.
Proof.
  intros Hps Hout Hn1 Hn2. split.
  - rewrite !decrypt_loop_concat by (done || apply started_dec_ready).
    by rewrite Hps.
  - by rewrite !decrypt_file_sized_outcome.
Qed.

(** X7. When [decrypt_file] returns, the file it read was made of whole
    blocks, at least one, and the file it wrote is shorter by one to
    eight bytes. *)
Theorem decrypt_file_success_lengths
    (input_file output_file : string) (password data : bytes)
    (w w' : world) :
  w_files w !! w_file w input_file = Some data →
  w_file w input_file ≠ w_file w output_file →
  w_file w output_file ∉ w_locked w →
  w_fault w !! w_file w input_file = None →
  w_room w !! w_file w output_file = None →
  decrypt_file input_file output_file password w = Returned tt w' →
  ∃ out,
    w_files w' !! w_file w output_file = Some out ∧
    0 < length data ∧ length data mod 8 = 0 ∧
    length data - 8 ≤ length out < length data.
Proof.
  intros Hin Hne Hl Hf Hr. unfold decrypt_file.
  rewrite decrypt_file_sized_result
    by (done || apply BUF_SIZE_pos || by eexists).
  cbv zeta. rewrite (readable_opened _ _ data) by done.
  destruct (decrypt_outcome password data).1 eqn:Hok.
  - intros ->%fwrite_returned. rewrite written_opened by done.
    eexists. split.
    + unfold set_files. cbn. by rewrite lookup_insert_eq.
    + by apply decrypt_outcome_accepts.
  - rewrite proc_bind_eq. by destruct (fwrite _ _ _).
Qed.

(** X8. Under one password, different inputs give different outputs:
    two runs of [encrypt_file] that leave the same bytes in their output
    files have read the same bytes. In either run the two paths name
    different files, on media that neither fail nor fill up nor raise a
    signal. *)
Theorem encrypt_file_injective
    (input1 output1 input2 output2 : string) (password data1 data2 : bytes)
    (w : world) :
  w_files w !! w_file w input1 = Some data1 →
  w_files w !! w_file w input2 = Some data2 →
  w_file w input1 ≠ w_file w output1 → w_file w input2 ≠ w_file w output2 →
  w_file w output1 ∉ w_locked w → w_file w output2 ∉ w_locked w →
  w_fault w !! w_file w input1 = None → w_fault w !! w_file w input2 = None →
  w_room w !! w_file w output1 = None → w_room w !! w_file w output2 = None →
  w_signal w !! w_file w output1 = None →
  w_signal w !! w_file w output2 = None →
  w_files (world_of (encrypt_file input1 output1 password w))
    !! w_file w output1 =
  w_files (world_of (encrypt_file input2 output2 password w))
    !! w_file w output2 →
  data1 = data2.
Proof.
  intros Hin1 Hin2 Hne1 Hne2 Hl1 Hl2 Hf1 Hf2 Hr1 Hr2 Hs1 Hs2.
  unfold encrypt_file.
  rewrite (encrypt_file_sized_good _ _ _ _ data1),
    (encrypt_file_sized_good _ _ _ _ data2)
    by (done || apply BUF_SIZE_pos).
  unfold set_files. cbn. rewrite !lookup_insert_eq. intros [= Heq].
  apply (f_equal (decrypt_outcome password)) in Heq.
  rewrite !decrypt_outcome_ciphertext in Heq. congruence.
Qed.

(** X9. A read error during encryption passes for the end of the input:
    [encrypt_file] returns normally, with nothing on standard error, and
    what it wrote is a ciphertext in good order of the bytes before the
    error. [decrypt_file] accepts it and gives those bytes back. The
    three paths name files of which the second is neither the first
    nor the third, and the media written to neither fill up nor raise
    a signal. *)
Theorem read_error_truncates_silently
    (input_file mid_file output_file : string) (password data : bytes)
    (k : nat) (w : world) :
  w_files w !! w_file w input_file = Some data →
  w_fault w !! w_file w input_file = Some k →
  w_file w input_file ≠ w_file w mid_file →
  w_file w mid_file ≠ w_file w output_file →
  w_file w mid_file ∉ w_locked w → w_file w output_file ∉ w_locked w →
  w_fault w !! w_file w mid_file = None →
  w_room w !! w_file w mid_file = None →
  w_room w !! w_file w output_file = None →
  w_signal w !! w_file w mid_file = None →
  w_signal w !! w_file w output_file = None →
  ∃ w1 w2,
    encrypt_file input_file mid_file password w = Returned tt w1 ∧
    w_stderr w1 = w_stderr w ∧
    decrypt_file mid_file output_file password w1 = Returned tt w2 ∧
    w_files w2 !! w_file w output_file = Some (take k data).
Proof.
  intros Hin Hk Hne1 Hne2 Hl1 Hl2 Hf2 Hr1 Hr2 Hs1 Hs2.
  assert (Hread : readable (opened (w_file w mid_file) w)
                    (w_file w input_file) = take k data).
  { unfold readable, opened. rewrite decide_False by done. cbn.
    by rewrite lookup_insert_ne, Hin, Hk. }
  eexists _, _. split_and!.
  - unfold encrypt_file.
    rewrite encrypt_file_sized_result
      by (apply BUF_SIZE_pos || done || by eexists).
    cbv zeta. by rewrite Hread, fwrite_opened.
  - done.
  - unfold decrypt_file.
    rewrite (decrypt_file_sized_good _ _ _ _ (ciphertext password (take k data)));
      try (done || apply BUF_SIZE_pos).
    + cbv zeta. by rewrite decrypt_outcome_ciphertext.
    + unfold set_files. cbn. by rewrite lookup_insert_eq.
  - unfold set_files. cbn. by rewrite lookup_insert_eq.
Qed.

(** X10. The arrays [key] and [iv] are not initialised, and longer than
    the key and the IV: the bytes the stack happens to hold there have
    no influence on how either function ends, nor on the files and
    standard error it leaves. *)
Theorem stack_contents_irrelevant
    (input_file output_file : string) (password : bytes)
    (stack : nat → byte) (w : world) :
  observed (encrypt_file input_file output_file password (set_stack w stack)) =
  observed (encrypt_file input_file output_file password w) ∧
  observed (decrypt_file input_file output_file password (set_stack w stack)) =
  observed (decrypt_file input_file output_file password w).
Proof.
  unfold encrypt_file, decrypt_file.
  rewrite !encrypt_file_sized_outcome, !decrypt_file_sized_outcome
    by apply BUF_SIZE_pos.
  cbv zeta. cbn [w_file set_stack]. rewrite !opened_set_stack.
  cbn [set_stack w_files w_locked].
  change (readable (set_stack ?w stack)) with (readable w).
  destruct (decide _); [destruct (decrypt_outcome _ _).1|];
    rewrite ?proc_bind_eq, ?fwrite_set_stack; try done;
    split; by destruct (fwrite _ _ _).
Qed.
(** X11. [outbuf] is large enough while encrypting. At any point of
    the reading loop, the piece [fread] delivers next is no longer than
    [BUF_SIZE], [EVP_EncryptUpdate] writes for it no more than the
    [BUF_SIZE] bytes and one block that [outbuf] has, and so does
    [EVP_EncryptFinal_ex] once the loop is over. *)
Theorem encrypt_file_outbuf_large_enough
    (password data : bytes) (ps1 ps2 : list bytes) (out : FILE)
    (ctx : EVP_CIPHER_CTX) (w w' : world) :
  ps1 ++ ps2 = pieces BUF_SIZE data →
  is_Some (w_files w !! out) →
  encrypt_loop ps1 (started true password) out w = Returned ctx w' →
  (∀ inbuf, head ps2 = Some inbuf →
     length inbuf ≤ BUF_SIZE ∧
     length (EVP_EncryptUpdate ctx inbuf).1.2
     ≤ BUF_SIZE + cipher_block_size EVP_des_ede3_cbc) ∧
  length (EVP_EncryptFinal_ex ctx).1.2
  ≤ BUF_SIZE + cipher_block_size EVP_des_ede3_cbc.
Proof.
  intros Hps Hout.
  rewrite encrypt_loop_concat by (done || apply started_enc_ready).
  cbv zeta. destruct (fwrite _ _ _); cbn [returning]; [|done..].
  intros [= <- _].
  pose proof (EVP_EncryptUpdate_ready _ des_ede3_block_size_gt_1
                (started true password) (concat ps1) eq_refl eq_refl)
    as Hready.
  destruct (EVP_EncryptUpdate_iv (started true password) (concat ps1)
              eq_refl eq_refl (length_iv_of password)) as [Hiv _].
  set (ctx := (EVP_EncryptUpdate (started true password) (concat ps1)).2)
    in *.
  cbn [cipher_block_size EVP_des_ede3_cbc]. split.
  - intros inbuf Hhead.
    assert (Hlen : length inbuf ≤ BUF_SIZE).
    { pose proof (pieces_length BUF_SIZE data) as Hall.
      rewrite <- Hps in Hall. apply Forall_app in Hall as [_ Hall].
      destruct ps2 as [|p ps2]; [done|]. injection Hhead as ->.
      by apply Forall_cons in Hall as [? _]. }
    split; [done|]. destruct Hready as (Hc & He & Hb).
    cbn [cipher_block_size EVP_des_ede3_cbc] in Hb.
    destruct (EVP_EncryptUpdate_iv ctx inbuf Hc He Hiv) as [_ Hle]. lia.
  - rewrite EVP_EncryptFinal_ex_length by done. lia.
Qed.

(** X12. [outbuf] is large enough while decrypting: the same for
    [EVP_DecryptUpdate], which writes up to a block more than it is
    given, and [EVP_DecryptFinal_ex]. *)
Theorem decrypt_file_outbuf_large_enough
    (password data : bytes) (ps1 ps2 : list bytes) (out : FILE)
    (ctx : EVP_CIPHER_CTX) (w w' : world) :
  ps1 ++ ps2 = pieces BUF_SIZE data →
  is_Some (w_files w !! out) →
  decrypt_loop ps1 (started false password) out w = Returned ctx w' →
  (∀ inbuf, head ps2 = Some inbuf →
     length inbuf ≤ BUF_SIZE ∧
     length (EVP_DecryptUpdate ctx inbuf).1.2
     ≤ BUF_SIZE + cipher_block_size EVP_des_ede3_cbc) ∧
  length (EVP_DecryptFinal_ex ctx).1.2
  ≤ BUF_SIZE + cipher_block_size EVP_des_ede3_cbc.
Proof.
  intros Hps Hout.
  rewrite decrypt_loop_concat by (done || apply started_dec_ready).
  cbv zeta. destruct (fwrite _ _ _); cbn [returning]; [|done..].
  intros [= <- _].
  assert (Hstart : dec_held (started false password)).
  { split; [apply started_dec_ready|done]. }
  destruct (EVP_DecryptUpdate_held (started false password) (concat ps1)
              Hstart) as [Hheld _].
  set (ctx := (EVP_DecryptUpdate (started false password) (concat ps1)).2)
    in *.
  cbn [cipher_block_size EVP_des_ede3_cbc]. split.
  - intros inbuf Hhead.
    assert (Hlen : length inbuf ≤ BUF_SIZE).
    { pose proof (pieces_length BUF_SIZE data) as Hall.
      rewrite <- Hps in Hall. apply Forall_app in Hall as [_ Hall].
      destruct ps2 as [|p ps2]; [done|]. injection Hhead as ->.
      by apply Forall_cons in Hall as [? _]. }
    split; [done|].
    destruct (EVP_DecryptUpdate_held ctx inbuf Hheld) as [_ Hle]. lia.
  - destruct Hheld as [(Hc & _) _].
    pose proof (EVP_DecryptFinal_ex_length ctx Hc). lia.
Qed.

End FileProperties.

(** ** Properties of the command line *)

Section CommandLineProperties.
Context `{!Sha256, !DesEde3}.

(** X13. The four options may come in any order, and an option given
    again overrides the one before: when the command line ends with one
    mode flag, one [-i], one [-o] and one [-p] in some order, [main]
    runs that operation on those files with that password, whatever
    options came before, and returns 0 if the operation returns. *)
Theorem main_options_in_any_order
    (argv0 : string) (before l : list argument) (m : bool)
    (i o p : string) (w : world) :
  l ≡ₚ [Mode m; Input i; Output o; Password p] →
  main argv0 (command_line (before ++ l)) w =
  (operation m i o p;; mret 0%Z) w.
Proof.
  intros Hl. rewrite main_command_line.
  by destruct (chosen_complete before l m i o p Hl) as (-> & -> & -> & ->).
Qed.




(** X17. Words that are no options are passed over without a message:
    a word that does not start with '-', or "-" alone, standing where
    an option could stand, changes nothing, and neither does anything
    from a "--" on. *)
Theorem main_ignores_operands
    (argv0 : string) (l : list argument) (x : string) (rest : list string)
    (w : world) :
  operand x = true →
  main argv0 (command_line l ++ x :: rest) w =
  main argv0 (command_line l ++ rest) w ∧
  main argv0 (command_line l ++ "--" :: rest) w =
  main argv0 (command_line l) w.
Proof.
  intros Hx. split.
  - by rewrite !main_command_line_app, getopt_all_operand.
  - rewrite <- (app_nil_r (command_line l)) at 2.
    by rewrite !main_command_line_app.
Qed.



(** X20. The round trip through the command line: encrypting a file
    with [-e] and decrypting the result with [-d] under the same
    password returns 0 both times and gives the bytes of the file
    back. The three paths name files of which the second is neither
    the first nor the third, on media that neither fail nor fill up nor
    raise a signal. *)
Theorem main_round_trip
    (argv0 input_file mid_file output_file password : string) (b : bytes)
    (w : world) :
  w_files w !! w_file w input_file = Some b →
  w_file w input_file ≠ w_file w mid_file →
  w_file w mid_file ≠ w_file w output_file →
  w_file w mid_file ∉ w_locked w → w_file w output_file ∉ w_locked w →
  w_fault w !! w_file w input_file = None →
  w_fault w !! w_file w mid_file = None →
  w_room w !! w_file w mid_file = None →
  w_room w !! w_file w output_file = None →
  w_signal w !! w_file w mid_file = None →
  w_signal w !! w_file w output_file = None →
  ∃ w1 w2,
    main argv0 ["-e"; "-i"; input_file; "-o"; mid_file; "-p"; password] w =
      Returned 0%Z w1 ∧
    main argv0 ["-d"; "-i"; mid_file; "-o"; output_file; "-p"; password] w1 =
      Returned 0%Z w2 ∧
    w_files w2 !! w_file w output_file = Some b ∧
    w_stderr w2 = w_stderr w.
Proof.
  intros Hin Hne1 Hne2 Hl1 Hl2 Hf1 Hf2 Hr1 Hr2 Hs1 Hs2.
  change ["-e"; "-i"; input_file; "-o"; mid_file; "-p"; password]
    with (command_line [Mode true; Input input_file; Output mid_file;
                        Password password]).
  change ["-d"; "-i"; mid_file; "-o"; output_file; "-p"; password]
    with (command_line [Mode false; Input mid_file; Output output_file;
                        Password password]).
  eexists _, _. split_and!.
  - rewrite main_command_line. cbn [chosen_mode chosen_input chosen_output
      chosen_password omap list_omap last].
    rewrite proc_bind_eq. unfold operation, encrypt_file.
    by rewrite (encrypt_file_sized_good _ _ _ _ b)
      by (done || apply BUF_SIZE_pos).
  - rewrite main_command_line. cbn [chosen_mode chosen_input chosen_output
      chosen_password omap list_omap last].
    rewrite proc_bind_eq. unfold operation, decrypt_file.
    rewrite (decrypt_file_sized_good _ _ _ _
               (ciphertext (String.list_byte_of_string password) b));
      try (done || apply BUF_SIZE_pos).
    + cbv zeta. by rewrite decrypt_outcome_ciphertext.
    + unfold set_files. cbn. by rewrite lookup_insert_eq.
  - unfold set_files. cbn. by rewrite lookup_insert_eq.
  - done.
Qed.

(** X21. Words may be joined as [getopt] allows: the argument of
    [-i], [-o] or [-p] may follow its letter in the same word, and [-e]
    or [-d] may stand in one word with the option after it. *)
Theorem main_accepts_joined_words
    (argv0 : string) (l : list argument) (m c : Ascii.ascii) (arg : string)
    (rest : list string) (w : world) :
  m ∈ ["e"; "d"]%char → c ∈ ["i"; "o"; "p"]%char → arg ≠ "" →
  main argv0 (command_line l ++ String "-" (String c arg) :: rest) w =
  main argv0
    (command_line l ++ String "-" (String c "") :: arg :: rest) w ∧
  main argv0
    (command_line l ++ String "-" (String m (String c arg)) :: rest) w =
  main argv0
    (command_line l ++ String "-" (String m "")
                    :: String "-" (String c arg) :: rest) w.
Proof.
  intros Hm Hc Harg. rewrite !main_command_line_app. split.
  - by rewrite getopt_all_attached.
  - rewrite getopt_all_cluster; [done..|].
    by intros [= -> ->].
Qed.

End CommandLineProperties.

(** ** The further properties at work on the sample instance *)


Lemma output_file_overwritten_witness :
  @encrypt_file Sample.md Sample.cipher openssl "plain" "out" Sample.hunter2
    (set_files Sample.disk (<[Sample.file_of "out" := Sample.garbled]> (w_files Sample.disk))) =
  @encrypt_file Sample.md Sample.cipher openssl "plain" "out" Sample.hunter2
    (set_files Sample.disk (<[Sample.file_of "out" := []]> (w_files Sample.disk))) ∧
  @decrypt_file Sample.md Sample.cipher openssl "plain" "out" Sample.hunter2
    (set_files Sample.disk (<[Sample.file_of "out" := Sample.garbled]> (w_files Sample.disk))) =
  @decrypt_file Sample.md Sample.cipher openssl "plain" "out" Sample.hunter2
    (set_files Sample.disk (<[Sample.file_of "out" := []]> (w_files Sample.disk))).
Proof.
  apply (@output_file_overwritten Sample.md Sample.cipher
           "plain" "out" Sample.hunter2 Sample.garbled [] Sample.disk).
  sample_side.
Defined.


Lemma other_files_untouched_witness :
  w_files (world_of (@encrypt_file Sample.md Sample.cipher openssl
                       "plain" "pipe" Sample.hunter2 Sample.disk_pipe))
    !! Sample.file_of "plain" =
  w_files Sample.disk_pipe !! Sample.file_of "plain" ∧
  w_files (world_of (@decrypt_file Sample.md Sample.cipher openssl
                       "plain" "pipe" Sample.hunter2 Sample.disk_pipe))
    !! Sample.file_of "plain" =
  w_files Sample.disk_pipe !! Sample.file_of "plain".
Proof.
  apply (@other_files_untouched Sample.md Sample.cipher
           "plain" "pipe" (Sample.file_of "plain") Sample.hunter2
           Sample.disk_pipe).
  sample_side.
Defined.

Lemma encrypt_file_common_prefix_witness :
  ∃ w' c,
    @encrypt_file Sample.md Sample.cipher openssl "plain" "cipher" Sample.hunter2
      Sample.disk = Returned tt w' ∧
    w_files w' !! Sample.file_of "cipher" = Some c ∧
    take (length (take 8 Sample.hello_world)) c =
    (Cbc.encrypt (length (take 8 Sample.hello_world) / 8)
       (@EVP_des_ede3_cbc Sample.cipher)
       (@key_of Sample.md Sample.hunter2) (@iv_of Sample.md Sample.hunter2)
       (take 8 Sample.hello_world)).1.
Proof.
  apply (@encrypt_file_common_prefix Sample.md Sample.cipher
           "plain" "cipher" Sample.hunter2
           (take 8 Sample.hello_world) (drop 8 Sample.hello_world)
           Sample.disk); sample_side.
Defined.

Lemma decrypt_chunking_irrelevant_witness :
  decrypt_loop [Sample.garbled]
    (@started Sample.md Sample.cipher false Sample.hunter2) (Sample.file_of "empty")
    Sample.disk =
  decrypt_loop [take 3 Sample.garbled; drop 3 Sample.garbled]
    (@started Sample.md Sample.cipher false Sample.hunter2) (Sample.file_of "empty")
    Sample.disk ∧
  @decrypt_file_sized Sample.md Sample.cipher openssl 1 "garbled" "out"
    Sample.hunter2 Sample.disk =
  @decrypt_file_sized Sample.md Sample.cipher openssl 4 "garbled" "out"
    Sample.hunter2 Sample.disk.
Proof.
  apply (@decrypt_chunking_irrelevant Sample.md Sample.cipher
           [Sample.garbled]
           [take 3 Sample.garbled; drop 3 Sample.garbled]
           1 4 "garbled" "out" (Sample.file_of "empty") Sample.hunter2 Sample.disk);
    try sample_side.
  by eexists.
Defined.

Lemma decrypt_file_success_lengths_witness :
  ∃ out,
    w_files (world_of (@decrypt_file Sample.md Sample.cipher openssl "cipher" "out"
                         Sample.hunter2 Sample.disk_sealed)) !! Sample.file_of "out" =
      Some out ∧
    0 < length Sample.sealed ∧ length Sample.sealed mod 8 = 0 ∧
    length Sample.sealed - 8 ≤ length out < length Sample.sealed.
Proof.
  apply (@decrypt_file_success_lengths Sample.md Sample.cipher
           "cipher" "out" Sample.hunter2 Sample.sealed Sample.disk_sealed);
    sample_side.
Defined.

Lemma encrypt_file_injective_witness :
  w_files (world_of (@encrypt_file Sample.md Sample.cipher openssl "plain" "cipher"
                       Sample.hunter2 Sample.disk)) !! Sample.file_of "cipher" =
  w_files (world_of (@encrypt_file Sample.md Sample.cipher openssl "plain" "copy"
                       Sample.hunter2 Sample.disk)) !! Sample.file_of "copy" ∧
  Sample.hello_world = Sample.hello_world.
Proof.
  split; [sample_side|].
  apply (@encrypt_file_injective Sample.md Sample.cipher
           "plain" "cipher" "plain" "copy" Sample.hunter2
           Sample.hello_world Sample.hello_world Sample.disk);
    sample_side.
Defined.

Lemma read_error_truncates_silently_witness :
  ∃ w1 w2,
    @encrypt_file Sample.md Sample.cipher openssl "plain" "cipher" Sample.hunter2
      Sample.disk_faulty = Returned tt w1 ∧
    w_stderr w1 = w_stderr Sample.disk_faulty ∧
    @decrypt_file Sample.md Sample.cipher openssl "cipher" "out" Sample.hunter2 w1 =
      Returned tt w2 ∧
    w_files w2 !! Sample.file_of "out" = Some (take 5 Sample.hello_world).
Proof.
  apply (@read_error_truncates_silently Sample.md Sample.cipher
           "plain" "cipher" "out" Sample.hunter2 Sample.hello_world 5
           Sample.disk_faulty); sample_side.
Defined.

Lemma encrypt_file_outbuf_large_enough_witness :
  (∀ inbuf, head [Sample.hello_world] = Some inbuf →
     length inbuf ≤ BUF_SIZE ∧
     length (EVP_EncryptUpdate
               (@started Sample.md Sample.cipher true Sample.hunter2)
               inbuf).1.2
     ≤ BUF_SIZE + cipher_block_size (@EVP_des_ede3_cbc Sample.cipher)) ∧
  length (EVP_EncryptFinal_ex
            (@started Sample.md Sample.cipher true Sample.hunter2)).1.2
  ≤ BUF_SIZE + cipher_block_size (@EVP_des_ede3_cbc Sample.cipher).
Proof.
  apply (@encrypt_file_outbuf_large_enough Sample.md Sample.cipher
           Sample.hunter2 Sample.hello_world [] [Sample.hello_world]
           (Sample.file_of "empty") _ Sample.disk Sample.disk); try sample_side.
  by eexists.
Defined.

Lemma decrypt_file_outbuf_large_enough_witness :
  (∀ inbuf, head [Sample.sealed] = Some inbuf →
     length inbuf ≤ BUF_SIZE ∧
     length (EVP_DecryptUpdate
               (@started Sample.md Sample.cipher false Sample.hunter2)
               inbuf).1.2
     ≤ BUF_SIZE + cipher_block_size (@EVP_des_ede3_cbc Sample.cipher)) ∧
  length (EVP_DecryptFinal_ex
            (@started Sample.md Sample.cipher false Sample.hunter2)).1.2
  ≤ BUF_SIZE + cipher_block_size (@EVP_des_ede3_cbc Sample.cipher).
Proof.
  apply (@decrypt_file_outbuf_large_enough Sample.md Sample.cipher
           Sample.hunter2 Sample.sealed [] [Sample.sealed]
           (Sample.file_of "empty") _ Sample.disk Sample.disk); try sample_side.
  by eexists.
Defined.

Lemma main_options_in_any_order_witness :
  @main Sample.md Sample.cipher openssl "prog"
    (command_line ([Mode false; Output "other"] ++
                   [Input "plain"; Mode true; Output "cipher";
                    Password "hunter2"]))
    Sample.disk =
  (@operation Sample.md Sample.cipher openssl true "plain" "cipher" "hunter2";;
   mret 0%Z) Sample.disk.
Proof.
  apply (@main_options_in_any_order Sample.md Sample.cipher "prog"
           [Mode false; Output "other"]
           [Input "plain"; Mode true; Output "cipher"; Password "hunter2"]
           true "plain" "cipher" "hunter2" Sample.disk).
  apply perm_swap.
Defined.




Lemma main_ignores_operands_witness :
  @main Sample.md Sample.cipher openssl "prog"
    (command_line [Mode true; Input "plain"] ++
     "notes.txt" :: ["-o"; "cipher"; "-p"; "hunter2"]) Sample.disk =
  @main Sample.md Sample.cipher openssl "prog"
    (command_line [Mode true; Input "plain"] ++
     ["-o"; "cipher"; "-p"; "hunter2"]) Sample.disk ∧
  @main Sample.md Sample.cipher openssl "prog"
    (command_line [Mode true; Input "plain"] ++
     "--" :: ["-o"; "cipher"; "-p"; "hunter2"]) Sample.disk =
  @main Sample.md Sample.cipher openssl "prog"
    (command_line [Mode true; Input "plain"]) Sample.disk.
Proof.
  apply (@main_ignores_operands Sample.md Sample.cipher "prog"
           [Mode true; Input "plain"] "notes.txt"
           ["-o"; "cipher"; "-p"; "hunter2"] Sample.disk).
  reflexivity.
Defined.

Lemma main_round_trip_witness :
  ∃ w1 w2,
    @main Sample.md Sample.cipher openssl "prog"
      ["-e"; "-i"; "plain"; "-o"; "cipher"; "-p"; "hunter2"] Sample.disk =
      Returned 0%Z w1 ∧
    @main Sample.md Sample.cipher openssl "prog"
      ["-d"; "-i"; "cipher"; "-o"; "out"; "-p"; "hunter2"] w1 =
      Returned 0%Z w2 ∧
    w_files w2 !! Sample.file_of "out" = Some Sample.hello_world ∧
    w_stderr w2 = w_stderr Sample.disk.
Proof.
  apply (@main_round_trip Sample.md Sample.cipher "prog"
           "plain" "cipher" "out" "hunter2" Sample.hello_world Sample.disk);
    sample_side.
Defined.

Lemma main_accepts_joined_words_witness :
  @main Sample.md Sample.cipher openssl "prog"
    (command_line [Mode true] ++
     "-iplain" :: ["-o"; "cipher"; "-p"; "hunter2"]) Sample.disk =
  @main Sample.md Sample.cipher openssl "prog"
    (command_line [Mode true] ++
     "-i" :: "plain" :: ["-o"; "cipher"; "-p"; "hunter2"]) Sample.disk ∧
  @main Sample.md Sample.cipher openssl "prog"
    (command_line [Mode true] ++
     "-diplain" :: ["-o"; "cipher"; "-p"; "hunter2"]) Sample.disk =
  @main Sample.md Sample.cipher openssl "prog"
    (command_line [Mode true] ++
     "-d" :: "-iplain" :: ["-o"; "cipher"; "-p"; "hunter2"]) Sample.disk.
Proof.
  apply (@main_accepts_joined_words Sample.md Sample.cipher "prog"
           [Mode true] "d" "i" "plain" ["-o"; "cipher"; "-p"; "hunter2"]
           Sample.disk).
  - sample_member.
  - sample_member.
  - discriminate.
Defined.
